(** * The wish-draw matching engine

    A shallow embedding of the seeded generator [SeededRandom] and of the
    cross-group matching function [matchWishes] of
    [src/WishGameWithRooms.tsx] (the revision with the augmenting-path
    search), followed by the properties of the specification.

    Conventions of the embedding.
    - A JavaScript string is the list of its UTF-16 code units.
    - A JavaScript number that holds an integer below [2^53] is a [Z]; the
      numbers that are not integers, the value returned by [next] and its
      product with the array index in [shuffle], are IEEE-754 binary64
      values of [SpecFloat], rounded to nearest even as the language
      prescribes.
    - A JavaScript [Map] is an association list in insertion order with
      unique keys; a [Set] is a duplicate-free list.
    - [throw] is the [Throw] outcome; the recursion of [tryMatch] is
      unfolded with a fuel argument, and [OutOfFuel] is shown unreachable. *)

From Stdlib Require Import ZArith QArith Qpower Lia Lqa.
From Stdlib Require Import String Ascii DecimalString.
From Stdlib Require Import Floats.SpecFloat.
From stdpp Require Import base list.

Set Default Proof Using "Type".
Local Open Scope Z_scope.

(** ** Strings *)

Abbreviation jsstring := (list Z).

(** The code units of an ASCII literal of the source. *)
Definition lit (s : string) : jsstring :=
  List.map (fun a => Z.of_N (N_of_ascii a)) (list_ascii_of_string s).

(** [String(n)] for a non-negative integer [n]: its decimal digits. *)
Definition number_to_string (n : nat) : jsstring :=
  lit (NilZero.string_of_uint (Nat.to_uint n)).

(** A string is truthy when it is not empty. *)
Definition truthy (s : jsstring) : bool :=
  match s with [] => false | _ :: _ => true end.

(** ** 32-bit integer operators *)

(** [ToInt32]: the signed 32-bit integer congruent to [z] modulo [2^32]. *)
Definition toInt32 (z : Z) : Z := (z + 2 ^ 31) mod 2 ^ 32 - 2 ^ 31.

(** [a << k] *)
Definition shl32 (a k : Z) : Z := toInt32 (Z.shiftl (toInt32 a) (k mod 32)).

(** [a & b] *)
Definition and32 (a b : Z) : Z := toInt32 (Z.land (toInt32 a) (toInt32 b)).

(** ** binary64 numbers *)

Abbreviation b64_prec := 53 (only parsing).
Abbreviation b64_emax := 1024 (only parsing).

(** The binary64 value of an integer (round to nearest even). *)
Definition Z2SF (z : Z) : spec_float := binary_normalize b64_prec b64_emax z 0 false.

Definition b64_div : spec_float -> spec_float -> spec_float := SFdiv b64_prec b64_emax.
Definition b64_mul : spec_float -> spec_float -> spec_float := SFmul b64_prec b64_emax.

(** [Math.floor] of a finite value, as an integer: [Z.shiftl] with a negative
    count is the flooring division by a power of two.  Infinities and NaN
    have no integer floor; they do not arise (Lemma [draw_finite]) and are
    sent to 0. *)
Definition Math_floor (x : spec_float) : Z :=
  match x with
  | S754_finite s m e => Z.shiftl (cond_Zopp s (Zpos m)) e
  | _ => 0
  end.

(** The rational number a binary64 value stands for (0 for the
    non-finite ones). *)
Definition SF2Q (x : spec_float) : Q :=
  match x with
  | S754_finite s m e => (inject_Z (cond_Zopp s (Zpos m)) * Qpower 2 e)%Q
  | _ => 0%Q
  end.

Definition SFfinite (x : spec_float) : bool :=
  match x with
  | S754_finite _ _ _ | S754_zero _ => true
  | _ => false
  end.

(** ** class SeededRandom *)

(** One round of the constructor's loop:
    [hash = ((hash << 5) - hash) + char; hash = hash & hash]. *)
Definition hash_step (hash char : Z) : Z :=
  let hash := (shl32 hash 5 - hash) + char in
  and32 hash hash.

Definition seed_hash (seed : jsstring) : Z := fold_left hash_step seed 0.

(** [new SeededRandom(seed)]: the object is its one field, [this.seed]. *)
Definition SeededRandom (seed : jsstring) : Z := Z.abs (seed_hash seed).

(** [this.seed = (this.seed * 9301 + 49297) % 233280]; [%] truncates. *)
Definition next_seed (s : Z) : Z := Z.rem (s * 9301 + 49297) 233280.

(** [next()]: the returned number and the new state. *)
Definition next (s : Z) : spec_float * Z :=
  let s' := next_seed s in
  (b64_div (Z2SF s') (Z2SF 233280), s').

(** [Math.floor(this.next() * n)] and the new state. *)
Definition draw (s : Z) (n : Z) : Z * Z :=
  let '(x, s') := next s in
  (Math_floor (b64_mul x (Z2SF n)), s').

(** [[result[i], result[j]] = [result[j], result[i]]].  Both indices are
    inside the array whenever [shuffle] performs the exchange
    (Lemma [draw_range]); outside, where JavaScript would grow the array,
    the list is left alone. *)
Definition swap {T} (i j : nat) (result : list T) : list T :=
  match result !! i, result !! j with
  | Some a, Some b => <[j:=a]> (<[i:=b]> result)
  | _, _ => result
  end.

(** [for (let i = result.length - 1; i > 0; i--)] *)
Fixpoint shuffle_loop {T} (i : nat) (s : Z) (result : list T) : list T * Z :=
  match i with
  | O => (result, s)
  | S i' =>
      let '(j, s') := draw s (Z.of_nat i + 1) in
      shuffle_loop i' s' (swap i (Z.to_nat j) result)
  end.

(** [shuffle(array)] with the generator state it leaves behind. *)
Definition shuffle_state {T} (s : Z) (array : list T) : list T * Z :=
  shuffle_loop (length array - 1) s array.

Definition shuffle {T} (s : Z) (array : list T) : list T :=
  fst (shuffle_state s array).

(** The first [n] values of [next()]. *)
Fixpoint next_values (n : nat) (s : Z) : list spec_float :=
  match n with
  | O => []
  | S n' => let '(x, s') := next s in x :: next_values n' s'
  end.

(** The generator state after [n] calls of [next()]. *)
Fixpoint state_after (n : nat) (s : Z) : Z :=
  match n with
  | O => s
  | S n' => state_after n' (next_seed s)
  end.

(** ** Data of the game *)

(** [interface Player]: the fields the engine reads.  [group] is optional. *)
Record Player := {
  player_id : jsstring;
  player_name : jsstring;
  player_group : option jsstring;
}.

(** [interface Wish] *)
Record Wish := {
  wish_id : jsstring;
  wish_ownerId : jsstring;
  wish_text : jsstring;
}.

(** [interface MatchPair] *)
Record MatchPair := {
  pickerId : jsstring;
  wishId : jsstring;
}.

(** The two [Error]s of [matchWishes], by what their message says, and the
    [TypeError] of iterating [undefined]. *)
Inductive error :=
  | NoCandidates (name : jsstring)
  | Exhausted
  | TypeError.

Inductive outcome (A : Type) :=
  | Return (a : A)
  | Throw (e : error)
  | OutOfFuel.
Arguments Return {A} a.
Arguments Throw {A} e.
Arguments OutOfFuel {A}.

(** ** Map *)

Module JsMap.
Definition t (V : Type) := list (jsstring * V).

Fixpoint get {V} (m : t V) (k : jsstring) : option V :=
  match m with
  | [] => None
  | (k', v) :: m' => if decide (k' = k) then Some v else get m' k
  end.

(** [set] overwrites the value of a key that is present, at its place,
    and appends a new key. *)
Fixpoint set {V} (m : t V) (k : jsstring) (v : V) : t V :=
  match m with
  | [] => [(k, v)]
  | (k', v') :: m' =>
      if decide (k' = k) then (k, v) :: m' else (k', v') :: set m' k v
  end.

(** [new Map(entries)] *)
Definition of_entries {V} (l : list (jsstring * V)) : t V :=
  fold_left (fun m kv => set m kv.1 kv.2) l [].

Definition entries {V} (m : t V) : list (jsstring * V) := m.
End JsMap.

(** ** matchWishes *)

(** [x || 'A'] for an optional string *)
Definition or_A (x : option jsstring) : jsstring :=
  match x with
  | Some s => if truthy s then s else lit "A"
  | None => lit "A"
  end.

(** [new Map(players.map(p => [p.id, p.group || 'A']))] *)
Definition groupOf (players : list Player) : JsMap.t jsstring :=
  JsMap.of_entries (List.map (fun p => (player_id p, or_A (player_group p))) players).

(** [new Map(wishes.map(w => [w.id, w]))] *)
Definition wishById (wishes : list Wish) : JsMap.t Wish :=
  JsMap.of_entries (List.map (fun w => (wish_id w, w)) wishes).

Definition allWishIds (wishes : list Wish) : list jsstring := List.map wish_id wishes.

(** The predicate of [allWishIds.filter] for the player with id [pid].
    [wishById.get(id)] is defined for every id of [allWishIds]
    (Lemma [wishById_defined]). *)
Definition eligible (players : list Player) (wishes : list Wish)
    (pid id : jsstring) : bool :=
  let myGroup := or_A (JsMap.get (groupOf players) pid) in
  match JsMap.get (wishById wishes) id with
  | Some w =>
      let ownerGroup := or_A (JsMap.get (groupOf players) (wish_ownerId w)) in
      bool_decide (wish_ownerId w <> pid) && bool_decide (ownerGroup <> myGroup)
  | None => false
  end.

(** [const list = allWishIds.filter(...)] *)
Definition candidateList (players : list Player) (wishes : list Wish)
    (pid : jsstring) : list jsstring :=
  List.filter (eligible players wishes pid) (allWishIds wishes).

(** The loop [for (const p of players)] that fills [candidates]; [ps] is
    what is left of [players]. *)
Fixpoint buildCandidates (players : list Player) (wishes : list Wish)
    (attemptSeed : jsstring) (ps : list Player)
    (candidates : JsMap.t (list jsstring)) : outcome (JsMap.t (list jsstring)) :=
  match ps with
  | [] => Return candidates
  | p :: ps' =>
      let list := candidateList players wishes (player_id p) in
      match list with
      | [] => Throw (NoCandidates (player_name p))
      | _ :: _ =>
          let shuffled :=
            shuffle (SeededRandom (attemptSeed ++ lit "#cand#" ++ player_id p)) list in
          buildCandidates players wishes attemptSeed ps'
            (JsMap.set candidates (player_id p) shuffled)
      end
  end.

(** The mutable objects of one attempt that [tryMatch] works on: the two
    maps it closes over and the [seen] set it is handed. *)
Record search := {
  wishAssignedTo : JsMap.t jsstring;
  pickerAssignedWish : JsMap.t jsstring;
  seen : list jsstring;
}.

Definition add_seen (wid : jsstring) (st : search) : search :=
  {| wishAssignedTo := wishAssignedTo st;
     pickerAssignedWish := pickerAssignedWish st;
     seen := seen st ++ [wid] |}.

(** [wishAssignedTo.set(wid, pickerId); pickerAssignedWish.set(pickerId, wid)] *)
Definition assign (wid pid : jsstring) (st : search) : search :=
  {| wishAssignedTo := JsMap.set (wishAssignedTo st) wid pid;
     pickerAssignedWish := JsMap.set (pickerAssignedWish st) pid wid;
     seen := seen st |}.

(** [new Set()] for a top-level call *)
Definition fresh_seen (st : search) : search :=
  {| wishAssignedTo := wishAssignedTo st;
     pickerAssignedWish := pickerAssignedWish st;
     seen := [] |}.

(** The test [!cur || tryMatch(cur, seen)] goes into the recursive call
    only for a [cur] that is truthy: [!cur] holds for [undefined] and for
    the empty string. *)
Definition holder (cur : option jsstring) : option jsstring :=
  match cur with
  | Some c => if truthy c then Some c else None
  | None => None
  end.

Section TryMatch.
Variable candidates : JsMap.t (list jsstring).

(** [for (const wid of opts)] of [tryMatch]; [rec] is the recursive call. *)
Fixpoint tryLoop (rec : jsstring -> search -> outcome (bool * search))
    (pid : jsstring) (opts : list jsstring) (st : search)
    : outcome (bool * search) :=
  match opts with
  | [] => Return (false, st)
  | wid :: opts' =>
      if bool_decide (wid ∈ seen st) then tryLoop rec pid opts' st
      else
        let st := add_seen wid st in
        match holder (JsMap.get (wishAssignedTo st) wid) with
        | None => Return (true, assign wid pid st)
        | Some cur =>
            match rec cur st with
            | Return (true, st') => Return (true, assign wid pid st')
            | Return (false, st') => tryLoop rec pid opts' st'
            | Throw e => Throw e
            | OutOfFuel => OutOfFuel
            end
        end
  end.

(** [function tryMatch(pickerId, seen)]; [candidates.get(pickerId)!] of an
    id without candidates is [undefined], and iterating it throws. *)
Fixpoint tryMatch (fuel : nat) (pid : jsstring) (st : search)
    : outcome (bool * search) :=
  match fuel with
  | O => OutOfFuel
  | S fuel' =>
      match JsMap.get candidates pid with
      | Some opts => tryLoop (tryMatch fuel') pid opts st
      | None => Throw TypeError
      end
  end.

(** [for (const pid of playerOrder) if (!tryMatch(pid, new Set())) ...]:
    the value of [okAll] and the maps at the end. *)
Fixpoint matchAll (fuel : nat) (order : list jsstring) (st : search)
    : outcome (bool * search) :=
  match order with
  | [] => Return (true, st)
  | pid :: order' =>
      match tryMatch fuel pid (fresh_seen st) with
      | Return (true, st') => matchAll fuel order' st'
      | Return (false, st') => Return (false, st')
      | Throw e => Throw e
      | OutOfFuel => OutOfFuel
      end
  end.
End TryMatch.

Definition empty_search : search :=
  {| wishAssignedTo := []; pickerAssignedWish := []; seen := [] |}.

Definition pairs_of (st : search) : list MatchPair :=
  List.map (fun kv => {| pickerId := kv.1; wishId := kv.2 |})
    (JsMap.entries (pickerAssignedWish st)).

(** The recursion of [tryMatch] is never deeper than the number of wishes
    plus one (Lemma [tryMatch_returns]). *)
Definition search_fuel (wishes : list Wish) : nat := S (length wishes).

(** The body of the attempt loop for a given [attemptSeed]: [Some pairs]
    when the body returns, [None] when it falls through to the next
    attempt. *)
Definition attemptWith (players : list Player) (wishes : list Wish)
    (attemptSeed : jsstring) : outcome (option (list MatchPair)) :=
  match buildCandidates players wishes attemptSeed players [] with
  | Return candidates =>
      let playerOrder :=
        shuffle (SeededRandom (attemptSeed ++ lit "#order")) (List.map player_id players) in
      match matchAll candidates (search_fuel wishes) playerOrder empty_search with
      | Return (true, st) => Return (Some (pairs_of st))
      | Return (false, _) => Return None
      | Throw e => Throw e
      | OutOfFuel => OutOfFuel
      end
  | Throw e => Throw e
  | OutOfFuel => OutOfFuel
  end.

(** [const attemptSeed = seed + '|' + attempt] *)
Definition attemptSeed (seed : jsstring) (attempt : nat) : jsstring :=
  seed ++ lit "|" ++ number_to_string attempt.

(** [for (let attempt = ...; attempt < 7; attempt++)] with [n] iterations
    to go, then the final [throw]. *)
Fixpoint attemptsFrom (players : list Player) (wishes : list Wish)
    (seed : jsstring) (n : nat) (attempt : nat) : outcome (list MatchPair) :=
  match n with
  | O => Throw Exhausted
  | S n' =>
      match attemptWith players wishes (attemptSeed seed attempt) with
      | Return (Some pairs) => Return pairs
      | Return None => attemptsFrom players wishes seed n' (S attempt)
      | Throw e => Throw e
      | OutOfFuel => OutOfFuel
      end
  end.

Definition matchWishes (players : list Player) (wishes : list Wish)
    (seed : jsstring) : outcome (list MatchPair) :=
  attemptsFrom players wishes seed 7 0.

(** [x] is a binary64 value that is not negative and at most [B].  An
    infinity stands for a rounded value of [2^972] or more, and then [B] is
    that large as well. *)
Definition SFbounded (x : spec_float) (B : Q) : Prop :=
  match x with
  | S754_zero s => s = false
  | S754_infinity s => s = false /\ (2 ^ 972 <= B)%Q
  | S754_nan => False
  | S754_finite s m e => s = false /\ (SF2Q x <= B)%Q
  end.

(** [const shuffled = new SeededRandom(attemptSeed + '#cand#' + p.id).shuffle(list)]
    for the player with id [pid]. *)
Definition shuffledCandidates (players : list Player) (wishes : list Wish)
    (attemptSeed pid : jsstring) : list jsstring :=
  shuffle (SeededRandom (attemptSeed ++ lit "#cand#" ++ pid))
    (candidateList players wishes pid).

(** ** The search as a relation, and what it is measured against *)

(** The graph of [tryLoop]: [tryRun candidates pid opts st b st'] is a
    finished run of the loop of [tryMatch(pid, seen)] over the options
    [opts] that are left, from the maps and [seen] set of [st], returning
    [b] and leaving [st'].  Proofs about [tryMatch] go by induction on it
    (Lemma [tryMatch_run]). *)
Inductive tryRun (candidates : JsMap.t (list jsstring))
    : jsstring -> list jsstring -> search -> bool -> search -> Prop :=
  | run_nil pid st :
      tryRun candidates pid [] st false st
  | run_seen pid wid opts st b st' :
      wid ∈ seen st ->
      tryRun candidates pid opts st b st' ->
      tryRun candidates pid (wid :: opts) st b st'
  | run_free pid wid opts st :
      wid ∉ seen st ->
      holder (JsMap.get (wishAssignedTo st) wid) = None ->
      tryRun candidates pid (wid :: opts) st true (assign wid pid (add_seen wid st))
  | run_move pid wid opts st cur copts st1 :
      wid ∉ seen st ->
      holder (JsMap.get (wishAssignedTo st) wid) = Some cur ->
      JsMap.get candidates cur = Some copts ->
      tryRun candidates cur copts (add_seen wid st) true st1 ->
      tryRun candidates pid (wid :: opts) st true (assign wid pid st1)
  | run_back pid wid opts st cur copts st1 b st' :
      wid ∉ seen st ->
      holder (JsMap.get (wishAssignedTo st) wid) = Some cur ->
      JsMap.get candidates cur = Some copts ->
      tryRun candidates cur copts (add_seen wid st) false st1 ->
      tryRun candidates pid opts st1 b st' ->
      tryRun candidates pid (wid :: opts) st b st'.

(** Every holder recorded in [wishAssignedTo] has a candidate list. *)
Definition holders_known (candidates : JsMap.t (list jsstring))
    (m : JsMap.t jsstring) : Prop :=
  forall w q, JsMap.get m w = Some q -> is_Some (JsMap.get candidates q).

(** The number of times [q] stands in a list of ids. *)
Definition occurrences (q : jsstring) (l : list jsstring) : nat :=
  length (filter (fun x => x = q) l).

(** The number of wishes that [wishAssignedTo] gives to [q]. *)
Definition held (q : jsstring) (m : JsMap.t jsstring) : nat :=
  occurrences q m.*2.

(** The candidate-eligibility graph as the attempt holds it, in
    [candidates]: [w] is one of the candidates of [q]. *)
Definition candidate_of (candidates : JsMap.t (list jsstring))
    (q w : jsstring) : Prop :=
  exists l, JsMap.get candidates q = Some l /\ w ∈ l.

(** A perfect matching of the candidate-eligibility graph: one wish id for
    every participant, in the order of [players], taken from the
    participant's candidate list, no wish id twice. *)
Definition perfect_matching (players : list Player) (wishes : list Wish)
    (asg : list jsstring) : Prop :=
  Forall2 (fun p w => w ∈ candidateList players wishes (player_id p)) players asg
  /\ NoDup asg.

Global Instance perfect_matching_dec players wishes asg :
  Decision (perfect_matching players wishes asg).
Proof. unfold perfect_matching. apply _. Defined.

(** The two maps of the search say the same thing: [q] has picked [w]
    exactly when [w] is assigned to [q]. *)
Definition maps_agree (st : search) : Prop :=
  forall q w, JsMap.get (pickerAssignedWish st) q = Some w
              <-> JsMap.get (wishAssignedTo st) w = Some q.

(** What the loop over the pickers keeps, once the pickers of [done] have
    had their turn (for participants with different, non-empty ids). *)
Definition matched_so_far (candidates : JsMap.t (list jsstring))
    (done : list jsstring) (st : search) : Prop :=
  NoDup (pickerAssignedWish st).*1
  /\ (forall q, q ∈ (pickerAssignedWish st).*1 <-> q ∈ done)
  /\ maps_agree st
  /\ (forall q w, JsMap.get (pickerAssignedWish st) q = Some w ->
        candidate_of candidates q w).

(** A complete valid assignment, in the words of the specification: every
    participant is the picker of exactly one pair, no wish id is matched
    twice, and the owner of a matched wish is not the picker and has another
    group label than the picker ([x || 'A'] as the source computes it). *)
Definition valid_assignment (players : list Player) (wishes : list Wish)
    (pairs : list MatchPair) : Prop :=
  List.map pickerId pairs ≡ₚ List.map player_id players
  /\ NoDup (List.map wishId pairs)
  /\ Forall (fun pr =>
        wishId pr ∈ allWishIds wishes
        /\ forall w, w ∈ wishes -> wish_id w = wishId pr ->
              wish_ownerId w <> pickerId pr
              /\ or_A (JsMap.get (groupOf players) (wish_ownerId w))
                 <> or_A (JsMap.get (groupOf players) (pickerId pr))) pairs.

(** ** The data of the self-test and of the examples *)

Definition mkPlayer (id group : string) : Player :=
  {| player_id := lit id; player_name := lit id; player_group := Some (lit group) |}.

Definition mkWish (id owner : string) : Wish :=
  {| wish_id := lit id; wish_ownerId := lit owner; wish_text := [] |}.

Definition mkPair (picker wish : string) : MatchPair :=
  {| pickerId := lit picker; wishId := lit wish |}.

(** The players and wishes of [__selfTest]. *)
Definition selfTest_players : list Player := [mkPlayer "A" "A"; mkPlayer "B" "B"].
Definition selfTest_wishes : list Wish :=
  [mkWish "wA1" "A"; mkWish "wA2" "A"; mkWish "wB1" "B"; mkWish "wB2" "B"].

(** Two players of one group. *)
Definition oneGroup_players : list Player := [mkPlayer "A" "A"; mkPlayer "B" "A"].

(** Three players with different ids, one of them the empty string; the
    first two are in one group and can only take the wish of the third. *)
Definition emptyId_players : list Player :=
  [mkPlayer "" "A"; mkPlayer "b" "A"; mkPlayer "c" "B"].
Definition emptyId_wishes : list Wish := [mkWish "w1" "c"; mkWish "w2" ""].

(** The same with the id [a] in the place of the empty string: two players
    for one wish, no perfect matching. *)
Definition twoForOne_players : list Player :=
  [mkPlayer "a" "A"; mkPlayer "b" "A"; mkPlayer "c" "B"].
Definition twoForOne_wishes : list Wish := [mkWish "w1" "c"; mkWish "w2" "a"].





(** A search in which [w1] is held by [A] and wanted by [B], who has no
    other candidate, while [A] can move on to [w2]. *)
Definition relay_candidates : JsMap.t (list jsstring) :=
  [(lit "A", [lit "w1"; lit "w2"]); (lit "B", [lit "w1"])].

Definition relay_search : search :=
  {| wishAssignedTo := [(lit "w1", lit "A")];
     pickerAssignedWish := [(lit "A", lit "w1")];
     seen := [] |}.

Definition relay_result : search :=
  {| wishAssignedTo := [(lit "w1", lit "B"); (lit "w2", lit "A")];
     pickerAssignedWish := [(lit "A", lit "w2"); (lit "B", lit "w1")];
     seen := [lit "w1"; lit "w2"] |}.

(** ** sanitizeText *)

(** The code units that [\s] matches and that [trim] strips: the
    WhiteSpace and LineTerminator code points of ECMAScript (tab, line
    feed, vertical tab, form feed, carriage return, space, no-break space,
    U+1680, U+2000 to U+200A, U+2028, U+2029, U+202F, U+205F, U+3000 and
    U+FEFF). *)
Definition is_space (c : Z) : bool :=
  bool_decide (c ∈ [9; 10; 11; 12; 13; 32; 160; 5760; 8232; 8233; 8239;
                    8287; 12288; 65279])
  || ((8192 <=? c) && (c <=? 8202)).

Fixpoint trimStart (s : jsstring) : jsstring :=
  match s with
  | [] => []
  | c :: s' => if is_space c then trimStart s' else s
  end.

Definition trimEnd (s : jsstring) : jsstring := reverse (trimStart (reverse s)).

(** [s.trim()] *)
Definition trim (s : jsstring) : jsstring := trimEnd (trimStart s).

(** [s.replace(/\s+/g, ' ')]: every maximal run of whitespace becomes one
    space.  [in_run] says that the code unit before this one was
    whitespace, so that the run it belongs to has been replaced already. *)
Fixpoint replace_spaces (in_run : bool) (s : jsstring) : jsstring :=
  match s with
  | [] => []
  | c :: s' =>
      if is_space c
      then (if in_run then replace_spaces true s' else 32 :: replace_spaces true s')
      else c :: replace_spaces false s'
  end.

(** [text.trim().replace(/\s+/g, ' ').slice(0, 120)] *)
Definition sanitizeText (text : jsstring) : jsstring :=
  take 120 (replace_spaces false (trim text)).

(** What a sanitized text looks like: whitespace is the plain space only,
    never two in a row; [after_space] says that the code unit before was a
    space (or, at the start, that no space may come first). *)
Fixpoint single_spaced (after_space : bool) (s : jsstring) : bool :=
  match s with
  | [] => true
  | c :: s' =>
      if is_space c
      then (c =? 32) && negb after_space && single_spaced true s'
      else single_spaced false s'
  end.

(** The last code unit, if any, is whitespace. *)
Definition ends_with_space (s : jsstring) : bool :=
  match last s with Some c => is_space c | None => false end.

(** ** Rooms *)

(** [interface Player] with all its fields; [as_player] is the part of it
    that [matchWishes] reads. *)
Record RoomPlayer := {
  rp_id : jsstring;
  rp_name : jsstring;
  rp_wishes : list jsstring;
  rp_isOwner : option bool;
  rp_locked : option bool;
  rp_group : option jsstring;
}.

Definition as_player (p : RoomPlayer) : Player :=
  {| player_id := rp_id p; player_name := rp_name p; player_group := rp_group p |}.

Inductive Stage :=
  | WAITING | COLLECTING | LOCK_CONFIRM | MATCHING | REVEALED | FINISHED.

(** [interface Room] *)
Record Room := {
  room_id : jsstring;
  room_password : jsstring;
  room_ownerId : jsstring;
  room_maxPlayers : Z;
  room_players : list RoomPlayer;
  room_stage : Stage;
  room_wishes : list Wish;
  room_pairs : list MatchPair;
  room_seed : jsstring;
  room_createdAt : Z;
}.

(** [{ ...room, players }] *)
Definition with_players (room : Room) (players : list RoomPlayer) : Room :=
  {| room_id := room_id room; room_password := room_password room;
     room_ownerId := room_ownerId room; room_maxPlayers := room_maxPlayers room;
     room_players := players; room_stage := room_stage room;
     room_wishes := room_wishes room; room_pairs := room_pairs room;
     room_seed := room_seed room; room_createdAt := room_createdAt room |}.

(** [{ ...room, stage }] *)
Definition with_stage (room : Room) (stage : Stage) : Room :=
  {| room_id := room_id room; room_password := room_password room;
     room_ownerId := room_ownerId room; room_maxPlayers := room_maxPlayers room;
     room_players := room_players room; room_stage := stage;
     room_wishes := room_wishes room; room_pairs := room_pairs room;
     room_seed := room_seed room; room_createdAt := room_createdAt room |}.

(** [{ ...p, wishes }] *)
Definition with_wishes (p : RoomPlayer) (wishes : list jsstring) : RoomPlayer :=
  {| rp_id := rp_id p; rp_name := rp_name p; rp_wishes := wishes;
     rp_isOwner := rp_isOwner p; rp_locked := rp_locked p; rp_group := rp_group p |}.

(** [{ id, name, wishes: ['', ''], isOwner, locked: false, group }], the
    player that [createRoom] and [joinRoom] push. *)
Definition newPlayer (id name : jsstring) (isOwner : bool)
    (group : option jsstring) : RoomPlayer :=
  {| rp_id := id; rp_name := name; rp_wishes := [[]; []];
     rp_isOwner := Some isOwner; rp_locked := Some false; rp_group := group |}.

(** ** class MockRoomAPI *)

(** The object has one field, [rooms: Map<string, Room>]: a method takes the
    map and returns the map it leaves together with its result.  What
    [generateRoomId()], [generateSeed()] and [Date.now()] return is not
    fixed by the program; [createRoom] takes the three values as [newId],
    [newSeed] and [now]. *)
Module MockRoomAPI.
Definition t := JsMap.t Room.

(** The name of an owner who gives none: two code units, U+623F U+4E3B. *)
Definition ownerDefault : jsstring := [25151; 20027].

Definition createRoom (rooms : t) (newId newSeed : jsstring) (now : Z)
    (password : jsstring) (maxPlayers : Z) (ownerId ownerName : jsstring) : t * Room :=
  let room :=
    {| room_id := newId; room_password := password; room_ownerId := ownerId;
       room_maxPlayers := maxPlayers;
       room_players :=
         [newPlayer ownerId (if truthy ownerName then ownerName else ownerDefault)
            true (Some (lit "A"))];
       room_stage := WAITING; room_wishes := []; room_pairs := [];
       room_seed := newSeed; room_createdAt := now |} in
  (JsMap.set rooms (room_id room) room, room).

(** The two refusals of [joinRoom], by what their text says. *)
Inductive JoinError := RoomNotFound | WrongPassword.

(** What [joinRoom] returns; all fields but [success] are optional. *)
Record JoinResult := {
  success : bool;
  join_error : option JoinError;
  join_room : option Room;
  asViewer : option bool;
  resolvedPlayerId : option jsstring;
}.

Definition refused (e : JoinError) : JoinResult :=
  {| success := false; join_error := Some e; join_room := None;
     asViewer := None; resolvedPlayerId := None |}.

Definition groups : list jsstring := [lit "A"; lit "B"; lit "C"; lit "D"].

(** [groups.map(g => room.players.filter(p => p.group === g).length)] *)
Definition counts (players : list RoomPlayer) : list nat :=
  List.map (fun g => length (filter (fun p => rp_group p = Some g) players)) groups.

(** [Math.min(...l)]; of no argument it is [Infinity], here [None]. *)
Definition Math_min (l : list nat) : option nat :=
  match l with
  | [] => None
  | x :: l' => Some (fold_left Nat.min l' x)
  end.

(** [l.indexOf(x)], with [None] for [-1]. *)
Fixpoint indexOf (l : list nat) (x : nat) : option nat :=
  match l with
  | [] => None
  | y :: l' => if decide (y = x) then Some 0%nat else S <$> indexOf l' x
  end.

(** [groups[counts.indexOf(Math.min(...counts))]], [None] for [undefined] *)
Definition leastGroup (players : list RoomPlayer) : option jsstring :=
  m ← Math_min (counts players);
  i ← indexOf (counts players) m;
  groups !! i.

Definition joinRoom (rooms : t) (roomId password playerId playerName : jsstring)
    : t * JoinResult :=
  match JsMap.get rooms roomId with
  | None => (rooms, refused RoomNotFound)
  | Some room =>
      if decide (room_password room <> password)
      then (rooms, refused WrongPassword)
      else
        let existingById :=
          List.find (fun p => bool_decide (rp_id p = playerId)) (room_players room) in
        let sameNamePlayer :=
          List.find (fun p => bool_decide (rp_name p = playerName)) (room_players room) in
        match existingById, sameNamePlayer with
        | Some p, _ =>
            (rooms, {| success := true; join_error := None; join_room := Some room;
                       asViewer := Some false; resolvedPlayerId := Some (rp_id p) |})
        | None, Some p =>
            (rooms, {| success := true; join_error := None; join_room := Some room;
                       asViewer := Some false; resolvedPlayerId := Some (rp_id p) |})
        | None, None =>
            if decide (room_maxPlayers room <= Z.of_nat (length (room_players room)))
            then
              (rooms, {| success := true; join_error := None; join_room := Some room;
                         asViewer := Some true; resolvedPlayerId := None |})
            else
              let group := leastGroup (room_players room) in
              (* [room.players.push(...)] changes the room that the map holds *)
              let room' :=
                with_players room
                  (room_players room ++ [newPlayer playerId playerName false group]) in
              (JsMap.set rooms roomId room',
               {| success := true; join_error := None; join_room := Some room';
                  asViewer := Some false; resolvedPlayerId := Some playerId |})
        end
  end.

Definition updateRoom (rooms : t) (roomId : jsstring) (updater : Room -> Room)
    : t * option Room :=
  match JsMap.get rooms roomId with
  | None => (rooms, None)
  | Some room =>
      let updatedRoom := updater room in
      (JsMap.set rooms roomId updatedRoom, Some updatedRoom)
  end.

(** [this.rooms.get(roomId) || null] *)
Definition getRoom (rooms : t) (roomId : jsstring) : option Room :=
  JsMap.get rooms roomId.
End MockRoomAPI.

(** ** The component WishGameWithRooms *)

Inductive Mode := MENU | CREATE_ROOM | JOIN_ROOM | IN_ROOM.

(** [interface GameState] *)
Record GameState := {
  gs_mode : Mode;
  currentRoom : option Room;
  currentPlayerId : option jsstring;
  showResults : bool;
  isViewer : option bool;
}.

(** The texts that the handlers below put in [error], by what they say:
    the password has not four code units, the form to join is not filled
    in, [joinRoom] has refused (with its text, or with the text of the
    handler when it gave none), fewer than two players, all players in one
    group, somebody not ready, and the message of an error of
    [matchWishes]. *)
Inductive message :=
  | PasswordLength
  | FormIncomplete
  | JoinRefused (e : MockRoomAPI.JoinError)
  | JoinFailed
  | NeedTwoPlayers
  | OneGroupOnly
  | NotAllReady
  | MatchError (e : error).

(** What the handlers read and write: the room API of the module, the
    [gameState] and [error] of the component ([None] for the empty text)
    and [mountedRef.current].  The room in [gameState] is the room as it
    was when the state was set; the one statement that changes a room in
    place is the [push] of [MockRoomAPI.joinRoom], and the handler
    [joinRoom] sets the state to that room right after it. *)
Record App := {
  roomAPI : MockRoomAPI.t;
  gameState : GameState;
  error_text : option message;
  mountedRef : bool;
}.

Definition with_roomAPI (app : App) (rooms : MockRoomAPI.t) : App :=
  {| roomAPI := rooms; gameState := gameState app;
     error_text := error_text app; mountedRef := mountedRef app |}.

(** [if (mountedRef.current) { setGameState(updater); setError(''); }] *)
Definition updateGameState (updater : GameState -> GameState) (app : App) : App :=
  if mountedRef app
  then {| roomAPI := roomAPI app; gameState := updater (gameState app);
          error_text := None; mountedRef := mountedRef app |}
  else app.

(** [mountedRef.current && setError(msg)] *)
Definition setErrorSafe (msg : message) (app : App) : App :=
  if mountedRef app
  then {| roomAPI := roomAPI app; gameState := gameState app;
          error_text := Some msg; mountedRef := mountedRef app |}
  else app.

(** [prev => ({ ...prev, currentRoom: updatedRoom })] *)
Definition with_currentRoom (updatedRoom : Room) (prev : GameState) : GameState :=
  {| gs_mode := gs_mode prev; currentRoom := Some updatedRoom;
     currentPlayerId := currentPlayerId prev; showResults := showResults prev;
     isViewer := isViewer prev |}.

(** [const updatedRoom = roomAPI.updateRoom(roomId, updater);
     if (updatedRoom) updateGameState(prev => ({ ...prev, currentRoom: updatedRoom }))],
    the end of every handler. *)
Definition updateAndShow (roomId : jsstring) (updater : Room -> Room) (app : App) : App :=
  let r := MockRoomAPI.updateRoom (roomAPI app) roomId updater in
  match r.2 with
  | Some updatedRoom => updateGameState (with_currentRoom updatedRoom) (with_roomAPI app r.1)
  | None => with_roomAPI app r.1
  end.

(** [generatePlayerId()]: [`player-${Date.now()}-${Math.random().toString(36).substr(2, 9)}`];
    [stamp] is what the template yields after [player-]. *)
Definition generatePlayerId (stamp : jsstring) : jsstring := lit "player-" ++ stamp.

(** [prev => ({ ...prev, mode: 'IN_ROOM', currentRoom, currentPlayerId, isViewer })] *)
Definition enterRoom (room : option Room) (playerId : option jsstring) (viewer : bool)
    (prev : GameState) : GameState :=
  {| gs_mode := IN_ROOM; currentRoom := room; currentPlayerId := playerId;
     showResults := showResults prev; isViewer := Some viewer |}.

(** The handler [createRoom].  [roomPassword], [newPlayerName] and
    [maxPlayers] are the state of the form; [stamp], [newId], [newSeed] and
    [now] stand for what the clock and [Math.random] give.  What the
    handler writes to [localStorage] is not part of [App]. *)
Definition createRoom (roomPassword newPlayerName : jsstring) (maxPlayers : Z)
    (stamp newId newSeed : jsstring) (now : Z) (app : App) : App :=
  if negb (truthy roomPassword) || negb (bool_decide (length roomPassword = 4%nat))
  then setErrorSafe PasswordLength app
  else
    let playerId := generatePlayerId stamp in
    let ownerName :=
      if truthy newPlayerName then sanitizeText newPlayerName
      else MockRoomAPI.ownerDefault in
    let r := MockRoomAPI.createRoom (roomAPI app) newId newSeed now roomPassword
               maxPlayers playerId ownerName in
    updateGameState (enterRoom (Some r.2) (Some playerId) false) (with_roomAPI app r.1).

(** [a || b] for optional strings *)
Definition or_else (a b : option jsstring) : option jsstring :=
  match a with
  | Some s => if truthy s then a else b
  | None => b
  end.

(** The handler [joinRoom].  [joinRoomId], [joinPassword] and
    [newPlayerName] are the state of the form; [toUpperCase] is the method
    of that name of strings; [stored] is what [localStorage.getItem] gives
    for the room and the name, [None] when it gives [null] or throws;
    [stamp] is as in [createRoom]. *)
Definition joinRoom (joinRoomId joinPassword newPlayerName : jsstring)
    (toUpperCase : jsstring -> jsstring) (stored : option jsstring) (stamp : jsstring)
    (app : App) : App :=
  if negb (truthy joinRoomId) || negb (truthy joinPassword) || negb (truthy newPlayerName)
  then setErrorSafe FormIncomplete app
  else
    let roomId := toUpperCase joinRoomId in
    let cleanName := sanitizeText newPlayerName in
    let fromStorage := default [] stored in
    let playerId :=
      if truthy fromStorage then fromStorage else generatePlayerId stamp in
    let r := MockRoomAPI.joinRoom (roomAPI app) roomId joinPassword playerId cleanName in
    let result := r.2 in
    match MockRoomAPI.success result, MockRoomAPI.join_room result with
    | true, Some room =>
        let viewer := bool_decide (MockRoomAPI.asViewer result = Some true) in
        let resolvedId :=
          or_else (MockRoomAPI.resolvedPlayerId result)
            (if viewer then None else Some playerId) in
        updateGameState
          (enterRoom (Some room) (if viewer then None else resolvedId) viewer)
          (with_roomAPI app r.1)
    | _, _ =>
        setErrorSafe
          (match MockRoomAPI.join_error result with
           | Some e => JoinRefused e
           | None => JoinFailed
           end)
          (with_roomAPI app r.1)
    end.

(** [gameState.isViewer || playerId !== gameState.currentPlayerId], the
    test after which the three wish handlers return at once. *)
Definition notOwnWishes (gs : GameState) (playerId : jsstring) : bool :=
  bool_decide (isViewer gs = Some true)
  || bool_decide (Some playerId <> currentPlayerId gs).

(** [l.filter((_, i) => keep(i))], for the elements from index [k] on. *)
Fixpoint filter_index {A} (keep : nat -> bool) (k : nat) (l : list A) : list A :=
  match l with
  | [] => []
  | x :: l' =>
      if keep k then x :: filter_index keep (S k) l' else filter_index keep (S k) l'
  end.

(** The updaters that the handlers hand to [updateRoom]. *)
Definition mapPlayers (f : RoomPlayer -> RoomPlayer) (room : Room) : Room :=
  with_players room (List.map f (room_players room)).

(** [p.id === playerId ? { ...p, wishes: p.wishes.map((w, i) => i === wishIndex ? sanitized : w) } : p] *)
Definition setWish (playerId : jsstring) (wishIndex : nat) (sanitized : jsstring)
    (p : RoomPlayer) : RoomPlayer :=
  if decide (rp_id p = playerId)
  then with_wishes p
         (imap (fun i w => if decide (i = wishIndex) then sanitized else w) (rp_wishes p))
  else p.

(** [p.id === playerId && p.wishes.length < 4 ? { ...p, wishes: [...p.wishes, ''] } : p] *)
Definition addWish (playerId : jsstring) (p : RoomPlayer) : RoomPlayer :=
  if decide (rp_id p = playerId /\ (length (rp_wishes p) < 4)%nat)
  then with_wishes p (rp_wishes p ++ [[]])
  else p.

(** [p.id === playerId && p.wishes.length > 2 ? { ...p, wishes: p.wishes.filter((_, i) => i !== wishIndex) } : p] *)
Definition removeWish (playerId : jsstring) (wishIndex : nat) (p : RoomPlayer)
    : RoomPlayer :=
  if decide (rp_id p = playerId /\ (2 < length (rp_wishes p))%nat)
  then with_wishes p
         (filter_index (fun i => bool_decide (i <> wishIndex)) 0 (rp_wishes p))
  else p.

(** [p.id === player.id ? { ...p, group: newGroup } : p], of the group
    selector. *)
Definition setGroup (playerId newGroup : jsstring) (p : RoomPlayer) : RoomPlayer :=
  if decide (rp_id p = playerId)
  then {| rp_id := rp_id p; rp_name := rp_name p; rp_wishes := rp_wishes p;
          rp_isOwner := rp_isOwner p; rp_locked := rp_locked p;
          rp_group := Some newGroup |}
  else p.

(** [p.id === player.id ? { ...p, locked: !p.locked } : p], of the lock
    button. *)
Definition toggleLock (playerId : jsstring) (p : RoomPlayer) : RoomPlayer :=
  if decide (rp_id p = playerId)
  then {| rp_id := rp_id p; rp_name := rp_name p; rp_wishes := rp_wishes p;
          rp_isOwner := rp_isOwner p;
          rp_locked := Some (negb (bool_decide (rp_locked p = Some true)));
          rp_group := rp_group p |}
  else p.

(** The index of a wish slot is the index that the caller renders the slot
    at: a natural number. *)
Definition updatePlayerWish (playerId : jsstring) (wishIndex : nat) (text : jsstring)
    (app : App) : App :=
  match currentRoom (gameState app) with
  | None => app
  | Some cur =>
      if notOwnWishes (gameState app) playerId then app
      else
        let sanitized := sanitizeText text in
        updateAndShow (room_id cur) (mapPlayers (setWish playerId wishIndex sanitized)) app
  end.

Definition addWishToPlayer (playerId : jsstring) (app : App) : App :=
  match currentRoom (gameState app) with
  | None => app
  | Some cur =>
      if notOwnWishes (gameState app) playerId then app
      else updateAndShow (room_id cur) (mapPlayers (addWish playerId)) app
  end.

Definition removeWishFromPlayer (playerId : jsstring) (wishIndex : nat) (app : App)
    : App :=
  match currentRoom (gameState app) with
  | None => app
  | Some cur =>
      if notOwnWishes (gameState app) playerId then app
      else updateAndShow (room_id cur) (mapPlayers (removeWish playerId wishIndex)) app
  end.

(** The [onChange] of the group selector and the [onClick] of the lock
    button, for the room and the player that they are rendered for. *)
Definition changeGroup (roomId playerId newGroup : jsstring) (app : App) : App :=
  updateAndShow roomId (mapPlayers (setGroup playerId newGroup)) app.

Definition clickLock (roomId playerId : jsstring) (app : App) : App :=
  updateAndShow roomId (mapPlayers (toggleLock playerId)) app.

(** [p.wishes.filter(w => w.trim())]: the slots that hold more than
    whitespace. *)
Definition filledWishes (p : RoomPlayer) : list jsstring :=
  filter (fun w => truthy (trim w)) (rp_wishes p).

(** [new Set(players.map(p => p.group || 'A'))] *)
Definition groupLabels (players : list RoomPlayer) : list jsstring :=
  remove_dups (List.map (fun p => or_A (rp_group p)) players).

(** [players.every(p => p.wishes.filter(w => w.trim()).length >= 2 && p.locked === true)] *)
Definition everyoneOk (players : list RoomPlayer) : bool :=
  forallb (fun p => (2 <=? length (filledWishes p))%nat
                    && bool_decide (rp_locked p = Some true)) players.

(** The three tests of [startGame], in their order: the message of the
    first one that fails. *)
Definition startGame_refusal (players : list RoomPlayer) : option message :=
  if (length players <? 2)%nat then Some NeedTwoPlayers
  else if (length (groupLabels players) <? 2)%nat then Some OneGroupOnly
  else if negb (everyoneOk players) then Some NotAllReady
  else None.

Definition startGame (app : App) : App :=
  match currentRoom (gameState app) with
  | None => app
  | Some cur =>
      match startGame_refusal (room_players cur) with
      | Some msg => setErrorSafe msg app
      | None => updateAndShow (room_id cur) (fun room => with_stage room LOCK_CONFIRM) app
      end
  end.

(** The owner and the text of the wishes that [confirmAndMatch] pushes, in
    the order of the two nested [forEach]. *)
Definition wishTexts (players : list RoomPlayer) : list (jsstring * jsstring) :=
  players ≫= (fun p => List.map (fun wishText => (rp_id p, trim wishText)) (filledWishes p)).

(** The wishes that [confirmAndMatch] builds.  The id of a wish is
    [`wish-${Date.now()}-${Math.random().toString(36).substr(2, 9)}`];
    [stamps k] is what the template yields after [wish-] for the wish
    pushed as number [k]. *)
Definition collectWishes (stamps : nat -> jsstring) (players : list RoomPlayer)
    : list Wish :=
  imap (fun k ot => {| wish_id := lit "wish-" ++ stamps k;
                       wish_ownerId := ot.1; wish_text := ot.2 |})
       (wishTexts players).

(** [{ ...room, wishes, seed: newSeed, stage: 'MATCHING' }] with
    [newSeed = `${room.seed}|${Date.now()}|${Math.random().toString(36).slice(2)}`];
    [seedStamp] is what the template yields after the first bar. *)
Definition toMatching (wishes : list Wish) (seedStamp : jsstring) (room : Room) : Room :=
  {| room_id := room_id room; room_password := room_password room;
     room_ownerId := room_ownerId room; room_maxPlayers := room_maxPlayers room;
     room_players := room_players room; room_stage := MATCHING;
     room_wishes := wishes; room_pairs := room_pairs room;
     room_seed := room_seed room ++ lit "|" ++ seedStamp;
     room_createdAt := room_createdAt room |}.

Definition confirmAndMatch (stamps : nat -> jsstring) (seedStamp : jsstring)
    (app : App) : App :=
  match currentRoom (gameState app) with
  | None => app
  | Some cur =>
      let wishes := collectWishes stamps (room_players cur) in
      updateAndShow (room_id cur) (toMatching wishes seedStamp) app
  end.

(** [{ ...room, pairs, stage: 'REVEALED' }] *)
Definition toRevealed (pairs : list MatchPair) (room : Room) : Room :=
  {| room_id := room_id room; room_password := room_password room;
     room_ownerId := room_ownerId room; room_maxPlayers := room_maxPlayers room;
     room_players := room_players room; room_stage := REVEALED;
     room_wishes := room_wishes room; room_pairs := pairs;
     room_seed := room_seed room; room_createdAt := room_createdAt room |}.

(** The callback of the timer that the effect on the stage [MATCHING]
    sets: the call of [matchWishes] and what follows it, but for the
    confetti and the flag [showMatchFX] of the animation.  ([matchWishes]
    never runs out of fuel, Lemma [matchWishes_total].) *)
Definition reveal (app : App) : App :=
  if negb (mountedRef app) then app
  else
    match currentRoom (gameState app) with
    | None => app
    | Some cur =>
        match matchWishes (List.map as_player (room_players cur))
                (room_wishes cur) (room_seed cur) with
        | Return pairs => updateAndShow (room_id cur) (toRevealed pairs) app
        | Throw e => setErrorSafe (MatchError e) app
        | OutOfFuel => app
        end
    end.

(** The functions that the handlers hand to [updateRoom]. *)
Inductive updater : (Room -> Room) -> Prop :=
  | updater_setWish playerId wishIndex text :
      updater (mapPlayers (setWish playerId wishIndex (sanitizeText text)))
  | updater_addWish playerId :
      updater (mapPlayers (addWish playerId))
  | updater_removeWish playerId wishIndex :
      updater (mapPlayers (removeWish playerId wishIndex))
  | updater_setGroup playerId newGroup :
      updater (mapPlayers (setGroup playerId newGroup))
  | updater_toggleLock playerId :
      updater (mapPlayers (toggleLock playerId))
  | updater_toLockConfirm :
      updater (fun room => with_stage room LOCK_CONFIRM)
  | updater_toMatching wishes seedStamp :
      updater (toMatching wishes seedStamp)
  | updater_toRevealed pairs :
      updater (toRevealed pairs).

(** The wish slots of a player as the editor means them to be: two to
    four, each of at most 120 code units, not starting with whitespace and
    with no whitespace but single plain spaces. *)
Definition slots_ok (p : RoomPlayer) : Prop :=
  (2 <= length (rp_wishes p) <= 4)%nat
  /\ Forall (fun w => (length w <= 120)%nat /\ single_spaced true w = true) (rp_wishes p).

(** [room'] is [room] but for the wishes of players with the id
    [playerId], and is [room] itself unless [allowed]. *)
Definition same_but_wishes (playerId : jsstring) (allowed : Prop)
    (room room' : Room) : Prop :=
  room' = with_players room (room_players room')
  /\ Forall2 (fun p p' =>
       p' = p \/ (allowed /\ rp_id p = playerId /\ p' = with_wishes p (rp_wishes p')))
       (room_players room) (room_players room').

(** ** The rooms that the program can hold *)

(** One call of a handler of the component. *)
Inductive handles : App -> App -> Prop :=
  | handles_updatePlayerWish playerId wishIndex text app :
      handles app (updatePlayerWish playerId wishIndex text app)
  | handles_addWishToPlayer playerId app :
      handles app (addWishToPlayer playerId app)
  | handles_removeWishFromPlayer playerId wishIndex app :
      handles app (removeWishFromPlayer playerId wishIndex app)
  | handles_changeGroup roomId playerId newGroup app :
      handles app (changeGroup roomId playerId newGroup app)
  | handles_clickLock roomId playerId app :
      handles app (clickLock roomId playerId app)
  | handles_startGame app :
      handles app (startGame app)
  | handles_confirmAndMatch stamps seedStamp app :
      handles app (confirmAndMatch stamps seedStamp app)
  | handles_reveal app :
      handles app (reveal app).

(** The maps of rooms that the calls of the program lead to from
    [new Map()]: the two methods of the API that add rooms and players,
    with any arguments, and the handlers, run from any state of the
    component beside the map. *)
Inductive reachable : MockRoomAPI.t -> Prop :=
  | reachable_new : reachable []
  | reachable_createRoom rooms newId newSeed now password maxPlayers ownerId ownerName :
      reachable rooms ->
      reachable (MockRoomAPI.createRoom rooms newId newSeed now password maxPlayers
                   ownerId ownerName).1
  | reachable_joinRoom rooms roomId password playerId playerName :
      reachable rooms ->
      reachable (MockRoomAPI.joinRoom rooms roomId password playerId playerName).1
  | reachable_handler app app' :
      reachable (roomAPI app) ->
      handles app app' ->
      reachable (roomAPI app').

(** One call of a handler of the component, [createRoom] and [joinRoom]
    among them. *)
Inductive handles_ui : App -> App -> Prop :=
  | handles_createRoom roomPassword newPlayerName maxPlayers stamp newId newSeed now app :
      handles_ui app
        (createRoom roomPassword newPlayerName maxPlayers stamp newId newSeed now app)
  | handles_joinRoom joinRoomId joinPassword newPlayerName toUpperCase stored stamp app :
      handles_ui app
        (joinRoom joinRoomId joinPassword newPlayerName toUpperCase stored stamp app)
  | handles_other app app' :
      handles app app' -> handles_ui app app'.

(** The maps of rooms that the handlers of the component lead to from
    [new Map()]: the API is called by nothing else. *)
Inductive reachable_ui : MockRoomAPI.t -> Prop :=
  | reachable_ui_new : reachable_ui []
  | reachable_ui_handler app app' :
      reachable_ui (roomAPI app) ->
      handles_ui app app' ->
      reachable_ui (roomAPI app').

(** ** Rooms for the examples *)

(** A room just created, and the map with it after a second player has
    joined. *)
Definition created_rooms : MockRoomAPI.t * Room :=
  MockRoomAPI.createRoom [] (lit "ROOM01") (lit "1-abc") 1 (lit "1234") 3
    (lit "p1") (lit "Ann").

Definition example_rooms : MockRoomAPI.t :=
  (MockRoomAPI.joinRoom created_rooms.1 (lit "ROOM01") (lit "1234") (lit "p2")
     (lit "Bob")).1.

(** The room that [example_rooms] holds. *)
Definition example_room : Room :=
  {| room_id := lit "ROOM01"; room_password := lit "1234"; room_ownerId := lit "p1";
     room_maxPlayers := 3;
     room_players := [newPlayer (lit "p1") (lit "Ann") true (Some (lit "A"));
                      newPlayer (lit "p2") (lit "Bob") false (Some (lit "B"))];
     room_stage := WAITING; room_wishes := []; room_pairs := [];
     room_seed := lit "1-abc"; room_createdAt := 1 |}.

(** The component of the second player, in that room. *)
Definition example_app : App :=
  {| roomAPI := example_rooms;
     gameState := {| gs_mode := IN_ROOM; currentRoom := Some example_room;
                     currentPlayerId := Some (lit "p2"); showResults := false;
                     isViewer := Some false |};
     error_text := None; mountedRef := true |}.

(** The two players once they are ready; one slot of the second is empty. *)
Definition ready_players : list RoomPlayer :=
  [{| rp_id := lit "p1"; rp_name := lit "Ann";
      rp_wishes := [lit "tea"; lit "a book"];
      rp_isOwner := Some true; rp_locked := Some true; rp_group := Some (lit "A") |};
   {| rp_id := lit "p2"; rp_name := lit "Bob";
      rp_wishes := [lit "a kite"; []; lit "socks"];
      rp_isOwner := Some false; rp_locked := Some true; rp_group := Some (lit "B") |}].

Definition example_stamps (k : nat) : jsstring := lit "1-" ++ number_to_string k.

(** The room as [confirmAndMatch] leaves it, and the component of the
    owner showing it. *)
Definition matching_room : Room :=
  toMatching (collectWishes example_stamps ready_players) (lit "2|xyz")
    (with_players example_room ready_players).

Definition matching_app : App :=
  {| roomAPI := [(lit "ROOM01", matching_room)];
     gameState := {| gs_mode := IN_ROOM; currentRoom := Some matching_room;
                     currentPlayerId := Some (lit "p1"); showResults := false;
                     isViewer := Some false |};
     error_text := None; mountedRef := true |}.

(** The same through the handlers of the component: a room is created,
    a second player joins, both fill in two wishes and lock. *)
Definition menu_app : App :=
  {| roomAPI := [];
     gameState := {| gs_mode := MENU; currentRoom := None; currentPlayerId := None;
                     showResults := false; isViewer := None |};
     error_text := None; mountedRef := true |}.

(** [toUpperCase] for the letters a to z. *)
Definition ascii_upper (s : jsstring) : jsstring :=
  List.map (fun c => if (97 <=? c) && (c <=? 122) then c - 32 else c) s.

Definition ui_created : App :=
  createRoom (lit "1234") (lit " Ann ") 3 (lit "1-aaa") (lit "ROOM01") (lit "1-abc") 1
    menu_app.

Definition ui_joined : App :=
  joinRoom (lit "room01") (lit "1234") (lit "Bob") ascii_upper None (lit "2-bbb")
    ui_created.

Definition ui_second_ready : App :=
  clickLock (lit "ROOM01") (lit "player-2-bbb")
    (updatePlayerWish (lit "player-2-bbb") 1 (lit "socks")
       (updatePlayerWish (lit "player-2-bbb") 0 (lit "a kite") ui_joined)).

Definition ui_owner : App :=
  {| roomAPI := roomAPI ui_second_ready;
     gameState := enterRoom (currentRoom (gameState ui_second_ready))
                    (Some (lit "player-1-aaa")) false (gameState ui_second_ready);
     error_text := None; mountedRef := true |}.

Definition ui_everyone_ready : App :=
  clickLock (lit "ROOM01") (lit "player-1-aaa")
    (updatePlayerWish (lit "player-1-aaa") 1 (lit "a book")
       (updatePlayerWish (lit "player-1-aaa") 0 (lit "tea") ui_owner)).

(** The room that [ui_everyone_ready] holds. *)
Definition ui_ready_room : Room :=
  {| room_id := lit "ROOM01"; room_password := lit "1234";
     room_ownerId := lit "player-1-aaa"; room_maxPlayers := 3;
     room_players :=
       [{| rp_id := lit "player-1-aaa"; rp_name := lit "Ann";
           rp_wishes := [lit "tea"; lit "a book"];
           rp_isOwner := Some true; rp_locked := Some true;
           rp_group := Some (lit "A") |};
        {| rp_id := lit "player-2-bbb"; rp_name := lit "Bob";
           rp_wishes := [lit "a kite"; lit "socks"];
           rp_isOwner := Some false; rp_locked := Some true;
           rp_group := Some (lit "B") |}];
     room_stage := WAITING; room_wishes := []; room_pairs := [];
     room_seed := lit "1-abc"; room_createdAt := 1 |}.

(** The wishes of the self-test with texts. *)
Definition selfTest_wishes_with_texts : list Wish :=
  List.map (fun w => {| wish_id := wish_id w; wish_ownerId := wish_ownerId w;
                        wish_text := lit "a wish" |}) selfTest_wishes.

(** ** The recurrence of the specification for the seed hash *)

(** [h = (h*31 + charCode) mod 2^32], read as a signed 32-bit integer. *)
Definition hash_spec_step (h c : Z) : Z := toInt32 (h * 31 + c).
Definition hash_spec (seed : jsstring) : Z := fold_left hash_spec_step seed 0.

(* ================================================================== *)
(** * Properties *)

(** ** 32-bit arithmetic *)

Lemma toInt32_range z : - 2 ^ 31 <= toInt32 z < 2 ^ 31.
Proof. unfold toInt32. pose proof (Z.mod_pos_bound (z + 2 ^ 31) (2 ^ 32)). lia. Qed.

Lemma toInt32_small z : - 2 ^ 31 <= z < 2 ^ 31 -> toInt32 z = z.
Proof. intros H. unfold toInt32. rewrite Z.mod_small; lia. Qed.

Lemma toInt32_congr a b : (a - b) mod 2 ^ 32 = 0 -> toInt32 a = toInt32 b.
Proof.
  intros H. unfold toInt32. f_equal.
  apply Z.mod_divide in H; [|lia]. destruct H as [k Hk].
  replace (a + 2 ^ 31) with (b + 2 ^ 31 + k * 2 ^ 32) by lia.
  apply Z.mod_add. lia.
Qed.

Lemma toInt32_mod z : (toInt32 z - z) mod 2 ^ 32 = 0.
Proof.
  unfold toInt32. pose proof (Z.div_mod (z + 2 ^ 31) (2 ^ 32)).
  replace ((z + 2 ^ 31) mod 2 ^ 32 - 2 ^ 31 - z)
    with ((- ((z + 2 ^ 31) / 2 ^ 32)) * 2 ^ 32) by lia.
  apply Z.mod_mul. lia.
Qed.

Lemma toInt32_idemp z : toInt32 (toInt32 z) = toInt32 z.
Proof. apply toInt32_small, toInt32_range. Qed.

Lemma and32_diag a : and32 a a = toInt32 a.
Proof. unfold and32. rewrite Z.land_diag. apply toInt32_idemp. Qed.

Lemma hash_step_spec h c : hash_step h c = hash_spec_step h c.
Proof.
  unfold hash_step, hash_spec_step, shl32. rewrite and32_diag.
  change (5 mod 32) with 5. rewrite Z.shiftl_mul_pow2 by lia.
  apply toInt32_congr.
  pose proof (toInt32_mod (toInt32 h * 2 ^ 5)) as H1.
  pose proof (toInt32_mod h) as H2.
  apply Z.mod_divide in H1; [|lia]. apply Z.mod_divide in H2; [|lia].
  destruct H1 as [k1 H1], H2 as [k2 H2].
  apply Z.mod_divide; [lia|]. exists (k1 + 32 * k2). lia.
Qed.

(** The value [((hash << 5) - hash) + char] stays far below [2^53], where
    the arithmetic of numbers is exact, before it is truncated. *)
Lemma hash_step_exact h c :
  - 2 ^ 31 <= h < 2 ^ 31 -> 0 <= c < 65536 ->
  Z.abs (shl32 h 5 - h + c) < 2 ^ 53.
Proof.
  intros Hh Hc. unfold shl32.
  pose proof (toInt32_range (Z.shiftl (toInt32 h) (5 mod 32))). lia.
Qed.

Lemma seed_hash_fold seed : forall h,
  fold_left hash_step seed h = fold_left hash_spec_step seed h.
Proof.
  induction seed as [|c seed IH]; intros h; simpl; [done|].
  rewrite hash_step_spec. apply IH.
Qed.

Lemma hash_spec_fold_range seed : forall h,
  - 2 ^ 31 <= h < 2 ^ 31 -> - 2 ^ 31 <= fold_left hash_spec_step seed h < 2 ^ 31.
Proof.
  induction seed as [|c seed IH]; intros h Hh; simpl; [done|].
  apply IH, toInt32_range.
Qed.

Lemma SeededRandom_range seed : 0 <= SeededRandom seed <= 2 ^ 31.
Proof.
  unfold SeededRandom, seed_hash. rewrite seed_hash_fold.
  pose proof (hash_spec_fold_range seed 0 ltac:(lia)). lia.
Qed.

(** C5: the constructor's loop is the polynomial hash
    [h = (h*31 + charCode) mod 2^32] on signed 32-bit integers, for every
    seed string, and the initial state is the absolute value of the result. *)
Theorem SeededRandom_hash_spec (seed : jsstring) :
  seed_hash seed = hash_spec seed
  /\ SeededRandom seed = Z.abs (hash_spec seed)
  /\ - 2 ^ 31 <= hash_spec seed < 2 ^ 31
  /\ 0 <= SeededRandom seed <= 2 ^ 31.
Proof.
  assert (Heq : seed_hash seed = hash_spec seed) by apply seed_hash_fold.
  repeat split.
  - exact Heq.
  - unfold SeededRandom. by rewrite Heq.
  - apply (hash_spec_fold_range seed 0). lia.
  - apply (hash_spec_fold_range seed 0). lia.
  - apply SeededRandom_range.
  - apply SeededRandom_range.
Qed.

(** ** binary64 arithmetic: upper bounds on rounded results *)

Section Binary64.
Local Open Scope Q_scope.

Lemma pow2_pos e : 0 < 2 ^ e.
Proof. apply Qpower_0_lt. reflexivity. Qed.

Lemma pow2_add a b : 2 ^ (a + b) == 2 ^ a * 2 ^ b.
Proof. apply Qpower_plus. discriminate. Qed.

Lemma pow2_le a b : (a <= b)%Z -> 2 ^ a <= 2 ^ b.
Proof. intros H. apply Qpower_le_compat_l; [exact H | discriminate]. Qed.

Lemma pow2_lt_inv a b : 2 ^ a < 2 ^ b -> (a < b)%Z.
Proof.
  intros H. destruct (Z_lt_le_dec a b) as [|Hle]; [assumption|].
  apply pow2_le in Hle. apply Qle_not_lt in Hle. contradiction.
Qed.

Lemma pow2_inject n : (0 <= n)%Z -> inject_Z (2 ^ n) == 2 ^ n.
Proof. intros H. apply (Zpower_Qpower 2 n H). Qed.

Lemma digits2_pos_bounds p :
  (2 ^ (Zpos (digits2_pos p) - 1) <= Zpos p < 2 ^ Zpos (digits2_pos p))%Z.
Proof.
  induction p as [p IH|p IH|]; simpl digits2_pos.
  - rewrite Pos2Z.inj_succ, (Pos2Z.inj_xI p).
    replace (Z.succ (Zpos (digits2_pos p)) - 1)%Z
      with (Z.succ (Zpos (digits2_pos p) - 1))%Z by lia.
    rewrite !Z.pow_succ_r by lia. lia.
  - rewrite Pos2Z.inj_succ, (Pos2Z.inj_xO p).
    replace (Z.succ (Zpos (digits2_pos p)) - 1)%Z
      with (Z.succ (Zpos (digits2_pos p) - 1))%Z by lia.
    rewrite !Z.pow_succ_r by lia. lia.
  - simpl. lia.
Qed.

(** A positive mantissa with [d] digits and exponent [e] is worth at
    least [2^(d-1+e)]. *)
Lemma digits2_value_ge p e :
  2 ^ (Zpos (digits2_pos p) - 1 + e) <= inject_Z (Zpos p) * 2 ^ e.
Proof.
  rewrite pow2_add. apply Qmult_le_compat_r; [|apply Qlt_le_weak, pow2_pos].
  rewrite <- pow2_inject by lia. rewrite <- Zle_Qle.
  apply digits2_pos_bounds.
Qed.

Lemma shr_1_m r : (0 <= shr_m r)%Z ->
  shr_m (shr_1 r) = (shr_m r / 2)%Z /\ (0 <= shr_m (shr_1 r))%Z.
Proof.
  destruct r as [m rb sb]. simpl shr_m at 1 3. intros Hm.
  destruct m as [|[p|p|]|p]; simpl; try lia.
  - split; [reflexivity|lia].
  - rewrite (Pos2Z.inj_xI p). split; [|lia].
    apply Z.div_unique with (r := 1%Z); lia.
  - rewrite (Pos2Z.inj_xO p). split; [|lia].
    apply Z.div_unique with (r := 0%Z); lia.
  - split; [reflexivity|lia].
Qed.

Lemma iter_shr_1_m p : forall r, (0 <= shr_m r)%Z ->
  shr_m (SpecFloat.iter_pos shr_1 p r) = (shr_m r / 2 ^ Zpos p)%Z
  /\ (0 <= shr_m (SpecFloat.iter_pos shr_1 p r))%Z.
Proof.
  induction p as [p IH|p IH|]; intros r Hr; simpl SpecFloat.iter_pos.
  - destruct (shr_1_m r Hr) as [E1 H1].
    destruct (IH _ H1) as [E2 H2]. destruct (IH _ H2) as [E3 H3].
    split; [|exact H3]. rewrite E3, E2, E1.
    rewrite !Z.div_div by lia. f_equal.
    rewrite (Pos2Z.inj_xI p).
    replace (2 * Zpos p + 1)%Z with (1 + Zpos p + Zpos p)%Z by lia.
    rewrite !Z.pow_add_r by lia. lia.
  - destruct (IH _ Hr) as [E2 H2]. destruct (IH _ H2) as [E3 H3].
    split; [|exact H3]. rewrite E3, E2.
    rewrite !Z.div_div by lia. f_equal.
    rewrite (Pos2Z.inj_xO p).
    replace (2 * Zpos p)%Z with (Zpos p + Zpos p)%Z by lia.
    rewrite !Z.pow_add_r by lia. lia.
  - destruct (shr_1_m r Hr) as [E1 H1]. split; [|exact H1].
    rewrite E1. reflexivity.
Qed.

(** [shr] divides the mantissa by [2^n] (rounding down) and adds [n] to
    the exponent, for a positive count [n]; it does nothing otherwise. *)
Lemma shr_spec r e n : (0 <= shr_m r)%Z ->
  (shr r e n).2 = (e + Z.max 0 n)%Z
  /\ shr_m (shr r e n).1 = (shr_m r / 2 ^ Z.max 0 n)%Z
  /\ (0 <= shr_m (shr r e n).1)%Z.
Proof.
  intros Hr. destruct n as [|p|p]; simpl.
  - rewrite Z.add_0_r, Z.div_1_r. auto.
  - destruct (iter_shr_1_m p r Hr) as [E H]. auto.
  - rewrite Z.add_0_r, Z.div_1_r. auto.
Qed.

Lemma round_nearest_even_bounds m l :
  (m <= round_nearest_even m l <= m + 1)%Z.
Proof. destruct l as [|[]]; simpl; try destruct (Z.even m); lia. Qed.

(** Dividing the mantissa by [2^n] and adding [n] to the exponent does
    not increase the value. *)
Lemma shift_value_le m e n : (0 <= n)%Z ->
  inject_Z (m / 2 ^ n) * 2 ^ (e + n) <= inject_Z m * 2 ^ e.
Proof.
  intros Hn. rewrite pow2_add.
  rewrite (Qmult_comm (2 ^ e)), Qmult_assoc.
  apply Qmult_le_compat_r; [|apply Qlt_le_weak, pow2_pos].
  rewrite <- pow2_inject by lia. rewrite <- inject_Z_mult, <- Zle_Qle.
  rewrite Z.mul_comm. apply Z.mul_div_le. lia.
Qed.

Lemma shr_record_of_loc_m m l : shr_m (shr_record_of_loc m l) = m.
Proof. destruct l as [|[]]; reflexivity. Qed.

Lemma SFbounded_le x B B' : B <= B' -> SFbounded x B -> SFbounded x B'.
Proof.
  intros HB. destruct x as [s|s| |s m e]; cbn [SFbounded]; auto.
  - intros [? ?]. split; [assumption|]. eapply Qle_trans; eassumption.
  - intros [? ?]. split; [assumption|]. eapply Qle_trans; eassumption.
Qed.

(** Rounding [mx * 2^ex] (known up to the location [lx] just above it)
    gives at most one unit of the target exponent more. *)
Lemma binary_round_aux_bounded mx ex lx : (0 <= mx)%Z ->
  SFbounded (binary_round_aux 53 1024 false mx ex lx)
    (inject_Z mx * 2 ^ ex + 2 ^ (Z.max ex (fexp 53 1024 (Zdigits2 mx + ex)))).
Proof.
  intros Hmx. unfold binary_round_aux, shr_fexp.
  set (k := (fexp 53 1024 (Zdigits2 mx + ex) - ex)%Z).
  assert (H0 : (0 <= shr_m (shr_record_of_loc mx lx))%Z)
    by (rewrite shr_record_of_loc_m; exact Hmx).
  destruct (shr_spec (shr_record_of_loc mx lx) ex k H0) as (He1 & Hm1 & Hp1).
  destruct (shr (shr_record_of_loc mx lx) ex k) as [mrs1 e1].
  simpl in He1, Hm1, Hp1. rewrite shr_record_of_loc_m in Hm1.
  set (m2 := round_nearest_even (shr_m mrs1) (loc_of_shr_record mrs1)).
  pose proof (round_nearest_even_bounds (shr_m mrs1) (loc_of_shr_record mrs1)) as Hm2.
  fold m2 in Hm2.
  set (k2 := (fexp 53 1024 (Zdigits2 m2 + e1) - e1)%Z).
  assert (H2 : (0 <= shr_m (shr_record_of_loc m2 loc_Exact))%Z) by (simpl; lia).
  destruct (shr_spec (shr_record_of_loc m2 loc_Exact) e1 k2 H2) as (He2 & Hm3 & Hp3).
  destruct (shr (shr_record_of_loc m2 loc_Exact) e1 k2) as [mrs2 e2].
  simpl in He2, Hm3, Hp3.
  assert (Hval : inject_Z (shr_m mrs2) * 2 ^ e2
                 <= inject_Z mx * 2 ^ ex
                    + 2 ^ (Z.max ex (fexp 53 1024 (Zdigits2 mx + ex)))).
  { rewrite Hm3, He2.
    eapply Qle_trans; [apply shift_value_le; lia|].
    apply Qle_trans with (inject_Z (shr_m mrs1 + 1) * 2 ^ e1).
    { apply Qmult_le_compat_r; [|apply Qlt_le_weak, pow2_pos].
      rewrite <- Zle_Qle. lia. }
    rewrite inject_Z_plus, Qmult_plus_distr_l, Qmult_1_l.
    apply Qplus_le_compat.
    - rewrite Hm1, He1. apply shift_value_le. lia.
    - apply pow2_le. subst k. lia. }
  destruct (shr_m mrs2) as [|m|m] eqn:Em.
  - reflexivity.
  - destruct (e2 <=? 1024 - 53)%Z eqn:Ee.
    + cbn [SFbounded SF2Q cond_Zopp]. split; [reflexivity|exact Hval].
    + cbn [SFbounded SF2Q cond_Zopp]. split; [reflexivity|].
      eapply Qle_trans; [|exact Hval].
      apply Z.leb_gt in Ee.
      apply Qle_trans with (1 * 2 ^ e2).
      * rewrite Qmult_1_l. apply pow2_le. lia.
      * apply Qmult_le_compat_r; [|apply Qlt_le_weak, pow2_pos].
        change 1 with (inject_Z 1). rewrite <- Zle_Qle. lia.
  - lia.
Qed.

(** Without a shift and from an exact location nothing is added. *)
Lemma binary_round_aux_exact mx ex :
  (0 <= mx)%Z -> (fexp 53 1024 (Zdigits2 mx + ex) <= ex)%Z ->
  SFbounded (binary_round_aux 53 1024 false mx ex loc_Exact) (inject_Z mx * 2 ^ ex).
Proof.
  intros Hmx Hk. unfold binary_round_aux, shr_fexp.
  set (k := (fexp 53 1024 (Zdigits2 mx + ex) - ex)%Z).
  assert (Es : shr (shr_record_of_loc mx loc_Exact) ex k
               = (shr_record_of_loc mx loc_Exact, ex)).
  { unfold shr. destruct k eqn:Ek; try reflexivity. lia. }
  rewrite Es. cbn [shr_record_of_loc shr_m loc_of_shr_record round_nearest_even].
  cbn [shr_record_of_loc] in Es. subst k. rewrite Es. cbn [shr_m].
  destruct mx as [|m|m]; [reflexivity| |lia].
  destruct (ex <=? 1024 - 53)%Z eqn:Ee.
  - cbn [SFbounded SF2Q cond_Zopp]. split; [reflexivity|apply Qle_refl].
  - cbn [SFbounded SF2Q cond_Zopp]. split; [reflexivity|].
    apply Z.leb_gt in Ee.
    apply Qle_trans with (1 * 2 ^ ex).
    + rewrite Qmult_1_l. apply pow2_le. lia.
    + apply Qmult_le_compat_r; [|apply Qlt_le_weak, pow2_pos].
      change 1 with (inject_Z 1). rewrite <- Zle_Qle. lia.
Qed.
Lemma fexp_value_le p ex :
  2 ^ (fexp 53 1024 (Zdigits2 (Zpos p) + ex))
  <= inject_Z (Zpos p) * 2 ^ ex * 2 ^ (-52) + 2 ^ (-1074).
Proof.
  pose proof (digits2_value_ge p ex) as Hd.
  pose proof (pow2_pos (-1074)) as H1.
  assert (H2 : 0 <= inject_Z (Zpos p) * 2 ^ ex * 2 ^ (-52)).
  { apply Qmult_le_0_compat; [apply Qmult_le_0_compat|];
      try (apply Qlt_le_weak, pow2_pos).
    change 0 with (inject_Z 0). rewrite <- Zle_Qle. lia. }
  unfold fexp, emin. cbn [Zdigits2].
  destruct (Z.max_spec (Zpos (digits2_pos p) + ex - 53) (3 - 1024 - 53))
    as [[_ ->]|[_ ->]].
  - change (3 - 1024 - 53)%Z with (-1074)%Z.
    rewrite <- (Qplus_0_l (2 ^ (-1074))) at 1.
    apply Qplus_le_compat; [exact H2|apply Qle_refl].
  - replace (Zpos (digits2_pos p) + ex - 53)%Z
      with ((Zpos (digits2_pos p) - 1 + ex) + (-52))%Z by lia.
    rewrite pow2_add.
    rewrite <- (Qplus_0_r (2 ^ (Zpos (digits2_pos p) - 1 + ex) * 2 ^ (-52))).
    apply Qplus_le_compat; [|apply Qlt_le_weak, H1].
    apply Qmult_le_compat_r; [exact Hd|apply Qlt_le_weak, pow2_pos].
Qed.

(** Rounding an exactly known positive value: the relative excess is at
    most [2^-52], up to the smallest positive number. *)
Lemma binary_round_aux_exact_rel p ex :
  SFbounded (binary_round_aux 53 1024 false (Zpos p) ex loc_Exact)
    (inject_Z (Zpos p) * 2 ^ ex * (1 + 2 ^ (-52)) + 2 ^ (-1074)).
Proof.
  pose proof (fexp_value_le p ex) as Hf.
  assert (H2 : 0 <= inject_Z (Zpos p) * 2 ^ ex * 2 ^ (-52)
                    /\ 0 <= 2 ^ (-1074)).
  { split; [|apply Qlt_le_weak, pow2_pos].
    apply Qmult_le_0_compat; [apply Qmult_le_0_compat|];
      try (apply Qlt_le_weak, pow2_pos).
    change 0 with (inject_Z 0). rewrite <- Zle_Qle. lia. }
  destruct H2 as [H2 H3].
  destruct (Z_le_gt_dec (fexp 53 1024 (Zdigits2 (Zpos p) + ex)) ex) as [Hk|Hk].
  - eapply SFbounded_le; [|apply binary_round_aux_exact; [lia|exact Hk]].
    set (v := inject_Z (Zpos p) * 2 ^ ex) in *.
    set (a := 2 ^ (-52)) in *. set (b := 2 ^ (-1074)) in *.
    clearbody v a b. lra.
  - eapply SFbounded_le; [|apply binary_round_aux_bounded; lia].
    rewrite Z.max_r by lia.
    set (v := inject_Z (Zpos p) * 2 ^ ex) in *.
    set (a := 2 ^ (-52)) in *. set (b := 2 ^ (-1074)) in *.
    set (c := 2 ^ _) in *.
    clearbody v a b c. lra.
Qed.

Lemma iter_xO_value p d : Zpos (Pos.iter xO p d) = (Zpos p * 2 ^ Zpos d)%Z.
Proof.
  induction d as [|d IH] using Pos.peano_ind.
  - simpl. lia.
  - rewrite Pos.iter_succ, (Pos2Z.inj_xO (Pos.iter xO p d)), IH.
    rewrite Pos2Z.inj_succ, Z.pow_succ_r by lia. lia.
Qed.

Lemma shl_align_value p e e' :
  inject_Z (Zpos (shl_align p e e').1) * 2 ^ (shl_align p e e').2
  == inject_Z (Zpos p) * 2 ^ e.
Proof.
  unfold shl_align. destruct (e' - e)%Z as [|d|d] eqn:Ed; cbn [fst snd];
    try reflexivity.
  rewrite iter_xO_value, inject_Z_mult, pow2_inject by lia.
  rewrite <- Qmult_assoc, <- pow2_add.
  replace (Zpos d + e')%Z with e by lia. reflexivity.
Qed.

(** The binary64 value of a positive integer [n]. *)
Lemma Z2SF_bounded n : (0 < n)%Z ->
  SFbounded (Z2SF n) (inject_Z n * (1 + 2 ^ (-52)) + 2 ^ (-1074)).
Proof.
  intros Hn. destruct n as [|p|p]; try lia.
  unfold Z2SF, binary_normalize, binary_round.
  pose proof (shl_align_value p 0 (fexp 53 1024 (Zpos (digits2_pos p) + 0))) as Hv.
  destruct (shl_align p 0 (fexp 53 1024 (Zpos (digits2_pos p) + 0))) as [mz ez].
  cbn [fst snd] in Hv.
  eapply SFbounded_le; [|apply binary_round_aux_exact_rel].
  rewrite Hv. change (2 ^ 0) with 1. rewrite Qmult_1_r. apply Qle_refl.
Qed.
Lemma eps_values :
  2 ^ (-52) == 1 # 4503599627370496 /\ 0 < 2 ^ (-1074) <= 1 # 4503599627370496.
Proof.
  split; [reflexivity|]. split; [apply pow2_pos|].
  change (1 # 4503599627370496) with (2 ^ (-52)). apply pow2_le. lia.
Qed.

Lemma Z2SF_233280 : Z2SF 233280 = S754_finite false 8015439766487040 (-35).
Proof. reflexivity. Qed.

Lemma value_nonneg p e : 0 <= inject_Z (Zpos p) * 2 ^ e.
Proof.
  apply Qmult_le_0_compat; [|apply Qlt_le_weak, pow2_pos].
  change 0 with (inject_Z 0). rewrite <- Zle_Qle. lia.
Qed.

(** The number [next()] returns is at most [1 - 2^-18]. *)
Lemma next_value_bounded a : (0 <= a < 233280)%Z ->
  SFbounded (b64_div (Z2SF a) (Z2SF 233280)) (262143 # 262144).
Proof.
  intros Ha. destruct (Z.eq_dec a 0%Z) as [->|Hne]; [reflexivity|].
  pose proof (Z2SF_bounded a ltac:(lia)) as HA.
  destruct eps_values as (Heps & Hd0 & Hd1).
  rewrite Z2SF_233280. unfold b64_div.
  destruct (Z2SF a) as [sa|sa| |sa m1 e1]; cbn [SFbounded] in HA.
  - subst sa. reflexivity.
  - destruct HA as [_ HA]. exfalso.
    assert (H19 : 2 ^ 19 <= 2 ^ 972) by (apply pow2_le; lia).
    change (2 ^ 19) with (524288 # 1) in H19.
    rewrite Heps in HA.
    assert (Ha' : inject_Z a <= 233279 # 1)
      by (change (233279 # 1) with (inject_Z 233279); rewrite <- Zle_Qle; lia).
    set (big := 2 ^ 972) in *. set (d := 2 ^ (-1074)) in *.
    set (qa := inject_Z a) in *. clearbody big d qa. lra.
  - contradiction.
  - destruct HA as [-> HA]. cbn [SF2Q cond_Zopp] in HA.
    cbn [SFdiv xorb]. unfold SFdiv_core_binary.
    change (Zdigits2 8015439766487040) with 53%Z.
    cbn [Zdigits2].
    set (d1 := Zpos (digits2_pos m1)).
    set (e' := Z.min (fexp 53 1024 (d1 + e1 - (53 + -35))) (e1 - -35)).
    set (sh := (e1 - -35 - e')%Z).
    set (m' := match sh with
               | 0%Z => Zpos m1 | Zpos _ => Z.shiftl (Zpos m1) sh | Zneg _ => 0%Z
               end).
    assert (Hsh : (0 <= sh)%Z) by (subst sh e'; lia).
    assert (Hm' : m' = (Zpos m1 * 2 ^ sh)%Z).
    { subst m'. destruct sh as [|ps|ps] eqn:Es; [simpl; lia| |lia].
      apply Z.shiftl_mul_pow2. lia. }
    pose proof (Z_div_mod m' 8015439766487040 ltac:(lia)) as Hdm.
    destruct (Z.div_eucl m' 8015439766487040) as [q r].
    destruct Hdm as [Hdm Hr].
    assert (Hq : (0 <= q)%Z) by nia.
    set (V := inject_Z (Zpos m1) * 2 ^ e1) in *.
    assert (HV : 0 <= V) by apply value_nonneg.
    (* the truncated quotient is below the exact one *)
    assert (HT : inject_Z q * 2 ^ e' * (233280 # 1) <= V).
    { assert (HD : (233280 # 1) == inject_Z 8015439766487040 * 2 ^ (-35))
        by reflexivity.
      rewrite HD.
      apply Qle_trans with (inject_Z m' * 2 ^ (e' + -35)).
      - rewrite pow2_add.
        assert (E : inject_Z q * 2 ^ e' * (inject_Z 8015439766487040 * 2 ^ (-35))
                    == inject_Z (8015439766487040 * q) * (2 ^ e' * 2 ^ (-35)))
          by (rewrite inject_Z_mult; ring).
        rewrite E.
        apply Qmult_le_compat_r.
        + rewrite <- Zle_Qle. lia.
        + rewrite <- pow2_add. apply Qlt_le_weak, pow2_pos.
      - rewrite Hm', inject_Z_mult, pow2_inject by lia.
        rewrite <- Qmult_assoc, <- pow2_add.
        subst V. replace (sh + (e' + -35))%Z with e1 by (subst sh; lia).
        apply Qle_refl. }
    (* the exponents *)
    assert (Ha' : inject_Z a <= 233279 # 1)
      by (change (233279 # 1) with (inject_Z 233279); rewrite <- Zle_Qle; lia).
    assert (Ha0 : 0 <= inject_Z a)
      by (change 0 with (inject_Z 0); rewrite <- Zle_Qle; lia).
    rewrite Heps in HA.
    assert (Hd1e : (d1 + e1 <= 19)%Z).
    { pose proof (digits2_value_ge m1 e1) as Hg. fold d1 V in Hg.
      assert (Hlt : 2 ^ (d1 - 1 + e1) < 2 ^ 19).
      { change (2 ^ 19) with (524288 # 1).
        set (d := 2 ^ (-1074)) in *. set (qa := inject_Z a) in *.
        set (g := 2 ^ (d1 - 1 + e1)) in *. clearbody d qa g V. lra. }
      apply pow2_lt_inv in Hlt. lia. }
    assert (He' : (e' <= -52)%Z).
    { subst e'. unfold fexp, emin. lia. }
    set (T := inject_Z q * 2 ^ e') in *.
    assert (HT0 : 0 <= T).
    { subst T. apply Qmult_le_0_compat; [|apply Qlt_le_weak, pow2_pos].
      change 0 with (inject_Z 0). rewrite <- Zle_Qle. lia. }
    assert (Hf : (fexp 53 1024 (Zdigits2 q + e') <= -52)%Z).
    { destruct q as [|pq|pq]; [| |lia].
      - unfold fexp, emin. cbn [Zdigits2]. lia.
      - cbn [Zdigits2].
        pose proof (digits2_value_ge pq e') as Hg. fold T in Hg.
        assert (Hlt : 2 ^ (Zpos (digits2_pos pq) - 1 + e') < 2 ^ 1).
        { change (2 ^ 1) with (2 # 1).
          set (d := 2 ^ (-1074)) in *. set (qa := inject_Z a) in *.
          set (g := 2 ^ (Zpos (digits2_pos pq) - 1 + e')) in *.
          clearbody d qa g V T. lra. }
        apply pow2_lt_inv in Hlt. unfold fexp, emin. lia. }
    eapply SFbounded_le; [|apply binary_round_aux_bounded; exact Hq].
    fold T.
    assert (Hu : 2 ^ (Z.max e' (fexp 53 1024 (Zdigits2 q + e'))) <= 2 ^ (-52))
      by (apply pow2_le; lia).
    rewrite Heps in Hu.
    set (u := 2 ^ (Z.max e' (fexp 53 1024 (Zdigits2 q + e')))) in *.
    set (d := 2 ^ (-1074)) in *. set (qa := inject_Z a) in *.
    clearbody d qa u V T. lra.
Qed.
Lemma next_seed_range s : (0 <= s)%Z -> (0 <= next_seed s < 233280)%Z.
Proof.
  intros Hs. unfold next_seed. rewrite Z.rem_mod_nonneg by lia.
  apply Z.mod_pos_bound. lia.
Qed.

(** The floor is below the value. *)
Lemma Math_floor_le p e :
  inject_Z (Z.shiftl (Zpos p) e) <= inject_Z (Zpos p) * 2 ^ e.
Proof.
  destruct (Z_le_gt_dec 0 e) as [He|He].
  - rewrite Z.shiftl_mul_pow2 by lia.
    rewrite inject_Z_mult, pow2_inject by lia. apply Qle_refl.
  - rewrite <- Z.shiftr_opp_r, Z.shiftr_div_pow2 by lia.
    pose proof (shift_value_le (Zpos p) e (- e) ltac:(lia)) as H.
    rewrite Z.add_opp_diag_r in H. change (2 ^ 0) with 1 in H.
    rewrite Qmult_1_r in H. exact H.
Qed.

Lemma Math_floor_bounded x B n :
  SFbounded x B -> B < inject_Z n -> (0 < n)%Z -> (0 <= Math_floor x < n)%Z.
Proof.
  intros Hx HB Hn. destruct x as [sx|sx| |sx m e]; cbn [Math_floor]; try lia.
  destruct Hx as [-> Hx]. cbn [SF2Q cond_Zopp] in *. split.
  - apply Z.shiftl_nonneg. lia.
  - rewrite Zlt_Qlt. eapply Qle_lt_trans; [apply Math_floor_le|].
    eapply Qle_lt_trans; eassumption.
Qed.

(** The product of a value of [next()] with the binary64 value of a
    positive integer [n], rounded, stays below [n]. *)
Lemma mul_value_bounded x nf n : (1 <= n)%Z ->
  SFbounded x (262143 # 262144) ->
  SFbounded nf (inject_Z n * (1 + 2 ^ (-52)) + 2 ^ (-1074)) ->
  SFfinite nf = true ->
  SFbounded (b64_mul x nf) (inject_Z n * (524287 # 524288)).
Proof.
  intros Hn Hx HN Hfin.
  destruct eps_values as (Heps & Hd0 & Hd1).
  assert (Hn' : 1 <= inject_Z n)
    by (change 1 with (inject_Z 1); rewrite <- Zle_Qle; lia).
  assert (Hbig : 2 ^ 0 <= 2 ^ 972) by (apply pow2_le; lia).
  change (2 ^ 0) with 1 in Hbig.
  unfold b64_mul.
  destruct x as [sx|sx| |sx m e]; cbn [SFbounded] in Hx.
  - subst sx.
    destruct nf as [sn|sn| |sn mn en]; cbn [SFbounded] in HN;
      try discriminate; cbn [SFmul xorb].
    + subst sn. reflexivity.
    + destruct HN as [-> _]. reflexivity.
  - destruct Hx as [_ Hx]. exfalso.
    set (big := 2 ^ 972) in *. clearbody big. lra.
  - contradiction.
  - destruct Hx as [-> Hx].
    destruct nf as [sn|sn| |sn mn en]; cbn [SFbounded] in HN;
      try discriminate; cbn [SFmul xorb].
    + subst sn. reflexivity.
    + destruct HN as [-> HN]. cbn [SF2Q cond_Zopp] in Hx, HN.
      eapply SFbounded_le; [|apply binary_round_aux_exact_rel].
      rewrite Pos2Z.inj_mul, inject_Z_mult, pow2_add.
      set (X := inject_Z (Zpos m) * 2 ^ e) in *.
      set (N := inject_Z (Zpos mn) * 2 ^ en) in *.
      assert (E : inject_Z (Zpos m) * inject_Z (Zpos mn) * (2 ^ e * 2 ^ en)
                  == X * N) by (subst X N; ring).
      rewrite E, Heps. rewrite Heps in HN.
      assert (HX0 : 0 <= X) by apply value_nonneg.
      assert (HN0 : 0 <= N) by apply value_nonneg.
      assert (HXN : X * N <= (262143 # 262144) * N)
        by (apply Qmult_le_compat_r; assumption).
      set (d := 2 ^ (-1074)) in *. set (qn := inject_Z n) in *.
      set (XN := X * N) in *. clearbody d qn XN X N. lra.
Qed.

(** Multiplying by an infinity (an integer too large for binary64) gives
    no finite number. *)
Lemma mul_nonfinite x nf : SFfinite nf = false -> Math_floor (b64_mul x nf) = 0%Z.
Proof.
  intros H. destruct nf as [sn|sn| |sn mn en]; try discriminate;
    destruct x as [sx|sx| |sx m e]; reflexivity.
Qed.

(** The index drawn for position [n - 1] is one of [0 .. n - 1]. *)
Lemma draw_range s n : (0 <= s)%Z -> (1 <= n)%Z ->
  (0 <= (draw s n).1 < n)%Z /\ (0 <= (draw s n).2 < 233280)%Z.
Proof.
  intros Hs Hn. unfold draw, next. cbn [fst snd].
  pose proof (next_seed_range s Hs) as Ha. split; [|exact Ha].
  pose proof (next_value_bounded _ Ha) as Hx.
  destruct (SFfinite (Z2SF n)) eqn:Hfin.
  - eapply Math_floor_bounded; [|  |lia].
    + apply (mul_value_bounded _ _ n Hn Hx); [|exact Hfin].
      apply Z2SF_bounded. lia.
    + assert (Hn' : 1 <= inject_Z n)
        by (change 1 with (inject_Z 1); rewrite <- Zle_Qle; lia).
      set (qn := inject_Z n) in *. clearbody qn. lra.
  - rewrite mul_nonfinite by exact Hfin. lia.
Qed.

Lemma SFbounded_finite x B : SFbounded x B -> B < 2 ^ 972 -> SFfinite x = true.
Proof.
  intros Hx HB. destruct x as [sx|sx| |sx m e]; cbn [SFbounded] in Hx;
    try reflexivity; [|contradiction].
  destruct Hx as [_ Hx]. exfalso. apply Qle_not_lt in Hx. contradiction.
Qed.

(** For an array of a length that JavaScript allows, the product is a
    finite number. *)
Lemma draw_finite s n : (0 <= s)%Z -> (1 <= n < 2 ^ 32)%Z ->
  SFfinite (b64_mul (next s).1 (Z2SF n)) = true.
Proof.
  intros Hs Hn. unfold next. cbn [fst].
  pose proof (next_seed_range s Hs) as Ha.
  pose proof (next_value_bounded _ Ha) as Hx.
  pose proof (Z2SF_bounded n ltac:(lia)) as HN.
  destruct eps_values as (Heps & Hd0 & Hd1).
  assert (Hn' : inject_Z n <= 2 ^ 32).
  { rewrite <- pow2_inject by lia. rewrite <- Zle_Qle. lia. }
  assert (Hbig : 2 ^ 34 <= 2 ^ 972) by (apply pow2_le; lia).
  assert (Hn0 : 1 <= inject_Z n)
    by (change 1 with (inject_Z 1); rewrite <- Zle_Qle; lia).
  change (2 ^ 34) with (17179869184 # 1) in Hbig.
  change (2 ^ 32) with (4294967296 # 1) in Hn'.
  assert (HNfin : SFfinite (Z2SF n) = true).
  { eapply SFbounded_finite; [exact HN|]. rewrite Heps.
    set (big := 2 ^ 972) in *. set (d := 2 ^ (-1074)) in *.
    set (qn := inject_Z n) in *. clearbody big d qn. lra. }
  eapply SFbounded_finite.
  - apply (mul_value_bounded _ _ n ltac:(lia) Hx HN HNfin).
  - set (big := 2 ^ 972) in *. set (qn := inject_Z n) in *.
    clearbody big qn. lra.
Qed.
End Binary64.

(** ** The generator *)

Lemma state_after_range n : forall s,
  0 <= s <= 2 ^ 31 -> 0 <= state_after n s <= 2 ^ 31.
Proof.
  induction n as [|n IH]; intros s Hs; simpl; [exact Hs|].
  apply IH. pose proof (next_seed_range s ltac:(lia)). lia.
Qed.

Lemma next_values_state n : forall s k, (k < n)%nat ->
  next_values n s !! k = Some (next (state_after k s)).1.
Proof.
  induction n as [|n IH]; intros s k Hk; [lia|].
  simpl. destruct k as [|k]; [reflexivity|].
  simpl. apply IH. lia.
Qed.

Lemma next_value_unit s : 0 <= s ->
  SFfinite (next s).1 = true /\ (0 <= SF2Q (next s).1 < 1)%Q.
Proof.
  intros Hs. unfold next. cbn [fst].
  pose proof (next_value_bounded _ (next_seed_range s Hs)) as Hx.
  split.
  - eapply SFbounded_finite; [exact Hx|].
    apply Qlt_le_trans with (2 ^ 0)%Q; [reflexivity|]. apply pow2_le. lia.
  - destruct (b64_div _ _) as [sx|sx| |sx m e]; cbn [SFbounded SF2Q] in *;
      try (split; [apply Qle_refl|reflexivity]).
    destruct Hx as [-> Hx]. cbn [cond_Zopp] in *. split.
    + apply value_nonneg.
    + eapply Qle_lt_trans; [exact Hx|reflexivity].
Qed.

(** C6: at every call of [next()], on a generator made from any seed
    string, the state becomes [(state*9301 + 49297) mod 233280], the value
    returned is the binary64 quotient of the new state by 233280, it is a
    finite number in [0,1), and the integer arithmetic involved stays
    below [2^53], where it is exact. *)
Theorem next_lcg_unit_interval (seed : jsstring) (n : nat) :
  let s := state_after n (SeededRandom seed) in
  (next s).2 = (s * 9301 + 49297) mod 233280
  /\ (next s).1 = b64_div (Z2SF (next s).2) (Z2SF 233280)
  /\ state_after (S n) (SeededRandom seed) = (next s).2
  /\ next_values (S n) (SeededRandom seed) !! n = Some (next s).1
  /\ 0 <= s * 9301 + 49297 < 2 ^ 53
  /\ 0 <= (next s).2 < 233280
  /\ SFfinite (next s).1 = true
  /\ (0 <= SF2Q (next s).1 < 1)%Q.
Proof.
  intros s.
  pose proof (state_after_range n _ (SeededRandom_range seed)) as Hs. fold s in Hs.
  pose proof (next_value_unit s ltac:(lia)) as [Hf Hu].
  repeat split; try assumption; try lia.
  - unfold next, next_seed. cbn [snd]. apply Z.rem_mod_nonneg; lia.
  - subst s. clear. generalize (SeededRandom seed). induction n as [|n IH]; intros s.
    + reflexivity.
    + change (state_after (S (S n)) s) with (state_after (S n) (next_seed s)).
      rewrite IH. reflexivity.
  - apply next_values_state. lia.
  - apply (next_seed_range s). lia.
  - apply (next_seed_range s). lia.
  - apply Hu.
  - apply Hu.
Qed.

(** ** The shuffle *)

Lemma insert_head_perm {T} (l : list T) j b x :
  l !! j = Some b -> b :: <[j:=x]> l ≡ₚ x :: l.
Proof.
  revert j. induction l as [|y l IH]; intros [|j] Hj; simplify_eq/=.
  - apply perm_swap.
  - rewrite perm_swap, (IH _ Hj). apply perm_swap.
Qed.

Lemma swap_perm {T} i j (l : list T) : swap i j l ≡ₚ l.
Proof.
  unfold swap. destruct (l !! i) as [a|] eqn:Ei; [|done].
  destruct (l !! j) as [b|] eqn:Ej; [|done].
  revert i j Ei Ej. induction l as [|x l IH]; intros [|i] [|j] Ei Ej;
    simplify_eq/=; try done.
  - by apply insert_head_perm.
  - by apply insert_head_perm.
  - f_equiv. by apply IH.
Qed.

Lemma swap_length {T} i j (l : list T) : length (swap i j l) = length l.
Proof.
  unfold swap. destruct (l !! i), (l !! j); try done.
  by rewrite !length_insert.
Qed.

(** Inside the array, [swap] exchanges the two elements and leaves the
    others. *)
Lemma swap_lookup {T} i j (l : list T) :
  (i < length l)%nat -> (j < length l)%nat ->
  swap i j l !! i = l !! j /\ swap i j l !! j = l !! i
  /\ forall k, k <> i -> k <> j -> swap i j l !! k = l !! k.
Proof.
  intros Hi Hj. unfold swap.
  destruct (lookup_lt_is_Some_2 l i Hi) as [a Ea].
  destruct (lookup_lt_is_Some_2 l j Hj) as [b Eb].
  rewrite Ea, Eb. repeat split.
  - destruct (decide (i = j)) as [->|Hne].
    + rewrite list_lookup_insert_eq by (rewrite length_insert; lia). congruence.
    + rewrite list_lookup_insert_ne by done.
      by rewrite list_lookup_insert_eq.
  - by rewrite list_lookup_insert_eq by (rewrite length_insert; lia).
  - intros k Hki Hkj. by rewrite !list_lookup_insert_ne.
Qed.

Lemma shuffle_loop_perm {T} i : forall s (l : list T),
  (shuffle_loop i s l).1 ≡ₚ l.
Proof.
  induction i as [|i IH]; intros s l; [done|].
  cbn [shuffle_loop]. destruct (draw s _) as [j s'].
  rewrite IH. apply swap_perm.
Qed.

Lemma shuffle_perm {T} s (l : list T) : shuffle s l ≡ₚ l.
Proof. apply shuffle_loop_perm. Qed.

Lemma shuffle_loop_state {T} i : forall s (l : list T),
  0 <= s -> 0 <= (shuffle_loop i s l).2.
Proof.
  induction i as [|i IH]; intros s l Hs; [done|].
  cbn [shuffle_loop].
  pose proof (draw_range s (Z.of_nat (S i) + 1) Hs ltac:(lia)) as [_ Hd].
  destruct (draw s _) as [j s']. apply IH. simpl in Hd. lia.
Qed.

(** [Math_floor] is the floor of the value of a finite number. *)
Lemma Math_floor_spec x :
  SFfinite x = true ->
  (inject_Z (Math_floor x) <= SF2Q x < inject_Z (Math_floor x) + 1)%Q.
Proof.
  destruct x as [s|s| |s m e]; try discriminate; intros _; cbn [Math_floor SF2Q].
  - split; [apply Qle_refl|reflexivity].
  - set (z := cond_Zopp s (Zpos m)).
    destruct (Z_le_gt_dec 0 e) as [He|He].
    + rewrite Z.shiftl_mul_pow2 by lia.
      assert (E : (inject_Z (z * 2 ^ e) == inject_Z z * 2 ^ e)%Q).
      { by rewrite inject_Z_mult, pow2_inject by lia. }
      rewrite E. split; [apply Qle_refl|].
      rewrite <- (Qplus_0_r (inject_Z z * 2 ^ e)) at 1.
      apply Qplus_lt_r. reflexivity.
    + rewrite <- Z.shiftr_opp_r, Z.shiftr_div_pow2 by lia.
      set (n := (- e)%Z). assert (Hn : (0 < n)%Z) by lia.
      assert (E1 : (2 ^ (e + n) == 1)%Q).
      { replace (e + n)%Z with 0%Z by lia. reflexivity. }
      split.
      * pose proof (shift_value_le z e n ltac:(lia)) as H.
        rewrite E1, Qmult_1_r in H. exact H.
      * apply (Qmult_lt_r _ _ (2 ^ n)%Q); [apply pow2_pos|].
        rewrite <- Qmult_assoc, <- pow2_add, E1, Qmult_1_r.
        rewrite <- pow2_inject by lia.
        change 1%Q with (inject_Z 1). rewrite <- inject_Z_plus, <- inject_Z_mult.
        rewrite <- Zlt_Qlt. subst z.
        pose proof (Z.mul_succ_div_gt (cond_Zopp s (Zpos m)) (2 ^ n)
                      ltac:(apply Z.pow_pos_nonneg; lia)). lia.
Qed.

(** C7: [shuffle] is the Fisher-Yates shuffle.  It runs its loop from the
    last index of the array.  One round, at index [i], calls [next()],
    multiplies the value by [i + 1] in binary64 and takes the floor, which
    gives an index [j] among [0..i]; it exchanges the elements at [i] and
    [j], and goes on at [i - 1] with the state that [next()] has left, down
    to index 1.  The result is a permutation of the input, of the same
    length. *)
Theorem shuffle_fisher_yates {T} (s : Z) (array : list T) :
  0 <= s ->
  shuffle s array = (shuffle_loop (length array - 1) s array).1
  /\ (forall (i : nat) (s1 : Z) (result : list T),
        0 <= s1 -> (S i < length result)%nat ->
        let x := (next s1).1 in
        let product := b64_mul x (Z2SF (Z.of_nat (S i) + 1)) in
        let j := Math_floor product in
        let result' := swap (S i) (Z.to_nat j) result in
        shuffle_loop (S i) s1 result = shuffle_loop i (next s1).2 result'
        /\ x = b64_div (Z2SF (next s1).2) (Z2SF 233280)
        /\ (next s1).2 = (s1 * 9301 + 49297) mod 233280
        /\ (Z.of_nat (length result) < 2 ^ 32 ->
            SFfinite product = true
            /\ (inject_Z j <= SF2Q product < inject_Z j + 1)%Q)
        /\ 0 <= j <= Z.of_nat (S i)
        /\ result' !! S i = result !! Z.to_nat j
        /\ result' !! Z.to_nat j = result !! S i
        /\ (forall k, k <> S i -> k <> Z.to_nat j -> result' !! k = result !! k)
        /\ 0 <= (next s1).2 < 233280)
  /\ (forall s1 (result : list T), shuffle_loop 0 s1 result = (result, s1))
  /\ shuffle s array ≡ₚ array
  /\ length (shuffle s array) = length array.
Proof.
  intros Hs. split; [reflexivity|]. split; [|split; [reflexivity|split]].
  - intros i s1 result Hs1 Hi x product j result'.
    pose proof (draw_range s1 (Z.of_nat (S i) + 1) Hs1 ltac:(lia)) as [Hj Hd].
    change (draw s1 (Z.of_nat (S i) + 1)).1 with j in Hj.
    change (draw s1 (Z.of_nat (S i) + 1)).2 with (next s1).2 in Hd.
    destruct (swap_lookup (S i) (Z.to_nat j) result Hi ltac:(lia)) as (H1 & H2 & H3).
    split; [reflexivity|]. split; [reflexivity|]. split.
    { unfold next, next_seed. cbn [snd]. apply Z.rem_mod_nonneg; lia. }
    split.
    { intros Hlen.
      assert (Hfin : SFfinite product = true).
      { apply draw_finite; [done|]. lia. }
      split; [done|]. by apply Math_floor_spec. }
    repeat split; try assumption; lia.
  - apply shuffle_perm.
  - apply Permutation_length, shuffle_perm.
Qed.

(** C8: two generators made from the same seed string give the same values
    of [next()] and the same shuffles, and two calls of [matchWishes] on the
    same participants, wishes and seed give the same result. *)
Theorem two_run_determinism (seed1 seed2 : jsstring) :
  seed1 = seed2 ->
  SeededRandom seed1 = SeededRandom seed2
  /\ (forall n, next_values n (SeededRandom seed1) = next_values n (SeededRandom seed2))
  /\ (forall T (array : list T),
        shuffle_state (SeededRandom seed1) array = shuffle_state (SeededRandom seed2) array)
  /\ (forall players wishes,
        matchWishes players wishes seed1 = matchWishes players wishes seed2).
Proof. intros <-. repeat split. Qed.

(** ** Maps *)

Lemma JsMap_get_set {V} (m : JsMap.t V) k v k' :
  JsMap.get (JsMap.set m k v) k' = if decide (k = k') then Some v else JsMap.get m k'.
Proof.
  induction m as [|[k0 v0] m IH]; simpl.
  - reflexivity.
  - destruct (decide (k0 = k)) as [->|Hne]; simpl.
    + destruct (decide (k = k')); reflexivity.
    + destruct (decide (k0 = k')) as [->|Hne'].
      * destruct (decide (k = k')); congruence.
      * exact IH.
Qed.

Lemma JsMap_get_Some_elem {V} (m : JsMap.t V) k v :
  JsMap.get m k = Some v -> (k, v) ∈ m.
Proof.
  induction m as [|[k0 v0] m IH]; simpl; [done|].
  destruct (decide (k0 = k)) as [->|Hne]; intros H.
  - simplify_eq. left.
  - right. auto.
Qed.

Lemma JsMap_get_None {V} (m : JsMap.t V) k :
  JsMap.get m k = None <-> k ∉ m.*1.
Proof.
  induction m as [|[k0 v0] m IH]; simpl.
  - split; [intros _; apply not_elem_of_nil|done].
  - rewrite not_elem_of_cons. destruct (decide (k0 = k)) as [->|Hne].
    + split; [done|]. intros [? _]. done.
    + rewrite IH. split; [intros ?; split; [congruence|done]|intros [_ ?]; done].
Qed.

Lemma JsMap_of_entries_get {V} (l : list (jsstring * V)) k :
  k ∈ l.*1 -> is_Some (JsMap.get (JsMap.of_entries l) k).
Proof.
  unfold JsMap.of_entries.
  assert (H : forall m, is_Some (JsMap.get m k) \/ k ∈ l.*1 ->
            is_Some (JsMap.get (fold_left (fun m kv => JsMap.set m kv.1 kv.2) l m) k)).
  { induction l as [|[k0 v0] l IH]; intros m [Hm|Hl]; simpl.
    - done.
    - by apply elem_of_nil in Hl.
    - apply IH. left. rewrite JsMap_get_set. destruct (decide (k0 = k)); eauto.
    - apply IH. simpl in Hl. apply elem_of_cons in Hl as [->|Hl]; [left|by right].
      rewrite JsMap_get_set. rewrite decide_True by done. eauto. }
  intros Hk. apply H. by right.
Qed.

(** [wishById.get(id)] is defined for the ids that [allWishIds] lists. *)
Lemma wishById_defined wishes id :
  id ∈ allWishIds wishes -> is_Some (JsMap.get (wishById wishes) id).
Proof.
  intros H. apply JsMap_of_entries_get.
  unfold allWishIds in H.
  assert (E : (List.map (fun w => (wish_id w, w)) wishes).*1 = List.map wish_id wishes).
  { clear. induction wishes as [|w ws IH]; [done|]. cbn. by f_equal. }
  by rewrite E.
Qed.

(** ** The attempt loop *)

Lemma attemptSeed_digit seed k : (k < 7)%nat ->
  attemptSeed seed k = seed ++ [124; 48 + Z.of_nat k].
Proof.
  intros Hk. unfold attemptSeed. f_equal.
  do 7 (destruct k as [|k]; [reflexivity|]). lia.
Qed.

Lemma attemptWith_not_Exhausted players wishes aseed :
  attemptWith players wishes aseed <> Throw Exhausted.
Proof.
  unfold attemptWith.
  assert (Hb : forall ps c, buildCandidates players wishes aseed ps c <> Throw Exhausted).
  { induction ps as [|p ps IH]; intros c; simpl; [done|].
    destruct (candidateList _ _ _); [done|apply IH]. }
  assert (Ht : forall c fuel pid st, tryMatch c fuel pid st <> Throw Exhausted).
  { intros c. induction fuel as [|fuel IH]; intros pid st; simpl; [done|].
    destruct (JsMap.get c pid) as [opts|]; [|done].
    revert st. induction opts as [|wid opts IHo]; intros st; simpl; [done|].
    case_bool_decide; [apply IHo|].
    destruct (holder _) as [cur|]; [|done].
    specialize (IH cur (add_seen wid st)).
    destruct (tryMatch c fuel cur (add_seen wid st)) as [[[] st']| |];
      solve [done|apply IHo]. }
  assert (Hm : forall c fuel order st, matchAll c fuel order st <> Throw Exhausted).
  { intros c fuel. induction order as [|pid order IH]; intros st; simpl; [done|].
    specialize (Ht c fuel pid (fresh_seen st)).
    destruct (tryMatch c fuel pid (fresh_seen st)) as [[[] st']| |];
      solve [done|apply IH]. }
  destruct (buildCandidates players wishes aseed players []) as [c| |] eqn:Eb;
    [|intros [= ->]; by apply (Hb players [])|done].
  destruct (matchAll _ _ _ _) as [[[] st']| |] eqn:Em; try done.
  intros [= ->]. by apply Hm in Em.
Qed.

Lemma attemptsFrom_skip players wishes seed n : forall k0,
  (forall i, (i < n)%nat ->
     attemptWith players wishes (attemptSeed seed (k0 + i)) = Return None) ->
  forall m, attemptsFrom players wishes seed (n + m) k0
            = attemptsFrom players wishes seed m (k0 + n).
Proof.
  induction n as [|n IH]; intros k0 H m.
  - by rewrite Nat.add_0_r.
  - simpl. specialize (H 0%nat ltac:(lia)) as H0. rewrite Nat.add_0_r in H0.
    rewrite H0. rewrite IH.
    + f_equal. lia.
    + intros i Hi. replace (S k0 + i)%nat with (k0 + S i)%nat by lia.
      apply H. lia.
Qed.

(** C4: [matchWishes] runs the attempts 0, 1, ..., 6 in this order, attempt
    [k] on the seed [seed + '|' + k]; the first attempt that does not fall
    through decides the result (its pairs, or the error it throws), the
    attempts after it are not looked at, and the exhaustion error is
    thrown exactly when all seven attempts fell through. *)
Theorem matchWishes_attempts players wishes seed :
  (forall k, (k < 7)%nat -> attemptSeed seed k = seed ++ [124; 48 + Z.of_nat k])
  /\ (forall k pairs, (k < 7)%nat ->
        (forall i, (i < k)%nat ->
           attemptWith players wishes (attemptSeed seed i) = Return None) ->
        attemptWith players wishes (attemptSeed seed k) = Return (Some pairs) ->
        matchWishes players wishes seed = Return pairs)
  /\ (forall k e, (k < 7)%nat ->
        (forall i, (i < k)%nat ->
           attemptWith players wishes (attemptSeed seed i) = Return None) ->
        attemptWith players wishes (attemptSeed seed k) = Throw e ->
        matchWishes players wishes seed = Throw e)
  /\ ((forall i, (i < 7)%nat ->
         attemptWith players wishes (attemptSeed seed i) = Return None)
      <-> matchWishes players wishes seed = Throw Exhausted).
Proof.
  split; [intros k; apply attemptSeed_digit|].
  assert (Hskip : forall k, (k <= 7)%nat ->
            (forall i, (i < k)%nat ->
               attemptWith players wishes (attemptSeed seed i) = Return None) ->
            matchWishes players wishes seed
            = attemptsFrom players wishes seed (7 - k) k).
  { intros k Hk H. unfold matchWishes.
    replace 7%nat with (k + (7 - k))%nat at 1 by lia.
    rewrite attemptsFrom_skip; [done|]. intros i Hi. by apply H. }
  split; [|split; [|split]].
  - intros k pairs Hk Hpre Hat. rewrite (Hskip k) by (lia || done).
    destruct (7 - k)%nat as [|n] eqn:E; [lia|]. simpl. by rewrite Hat.
  - intros k e Hk Hpre Hat. rewrite (Hskip k) by (lia || done).
    destruct (7 - k)%nat as [|n] eqn:E; [lia|]. simpl. by rewrite Hat.
  - intros H. by rewrite (Hskip 7%nat) by (lia || done).
  - intros Hex.
    assert (Hind : forall n k, (n + k = 7)%nat ->
              attemptsFrom players wishes seed n k = Throw Exhausted ->
              forall i, (k <= i < 7)%nat ->
                attemptWith players wishes (attemptSeed seed i) = Return None).
    { induction n as [|n IH]; intros k Hnk Hrun i Hi; [lia|].
      simpl in Hrun.
      pose proof (attemptWith_not_Exhausted players wishes (attemptSeed seed k)) as Hne.
      destruct (attemptWith players wishes (attemptSeed seed k)) as [[pairs|]|e|] eqn:Ek;
        try done; [|congruence].
      destruct (decide (i = k)) as [->|Hik]; [done|].
      apply (IH (S k)); [lia|done|lia]. }
    intros i Hi. apply (Hind 7%nat 0%nat); [done|done|lia].
Qed.

(** C10: without participants the first attempt returns the empty list of
    pairs, whatever the wishes and the seed. *)
Theorem matchWishes_no_players wishes seed :
  attemptWith [] wishes (attemptSeed seed 0) = Return (Some [])
  /\ matchWishes [] wishes seed = Return [].
Proof. split; reflexivity. Qed.

(** ** Structural infeasibility *)

Lemma candidateList_nil_iff players wishes pid :
  candidateList players wishes pid = []
  <-> forall w, w ∈ wishes ->
        exists w', JsMap.get (wishById wishes) (wish_id w) = Some w'
          /\ (wish_ownerId w' = pid
              \/ or_A (JsMap.get (groupOf players) (wish_ownerId w'))
                 = or_A (JsMap.get (groupOf players) pid)).
Proof.
  unfold candidateList. split.
  - intros Hnil w Hw.
    assert (Hid : wish_id w ∈ allWishIds wishes).
    { unfold allWishIds. apply list_elem_of_In, in_map, list_elem_of_In, Hw. }
    destruct (wishById_defined _ _ Hid) as [w' Hw']. exists w'. split; [done|].
    assert (He : eligible players wishes pid (wish_id w) = false).
    { destruct (eligible players wishes pid (wish_id w)) eqn:E; [|done].
      assert (Hin : In (wish_id w) (List.filter (eligible players wishes pid) (allWishIds wishes))).
      { apply filter_In. split; [by apply list_elem_of_In|done]. }
      rewrite Hnil in Hin. destruct Hin. }
    unfold eligible in He. rewrite Hw' in He.
    apply andb_false_iff in He as [He|He]; apply bool_decide_eq_false in He.
    + left. by destruct (decide (wish_ownerId w' = pid)).
    + right. by destruct (decide (or_A (JsMap.get (groupOf players) (wish_ownerId w'))
                                 = or_A (JsMap.get (groupOf players) pid))).
  - intros H.
    destruct (List.filter _ _) as [|id l] eqn:E; [done|].
    assert (Hin : In id (List.filter (eligible players wishes pid) (allWishIds wishes)))
      by (rewrite E; left; done).
    apply filter_In in Hin as [Hin He]. unfold allWishIds in Hin.
    apply in_map_iff in Hin as (w & <- & Hw).
    destruct (H w ltac:(by apply list_elem_of_In)) as (w' & Hw' & Hor).
    unfold eligible in He. rewrite Hw' in He.
    apply andb_true_iff in He as [He1 He2].
    apply bool_decide_eq_true in He1, He2. destruct Hor; done.
Qed.

Lemma buildCandidates_throw players wishes aseed ps : forall c,
  Exists (fun p => candidateList players wishes (player_id p) = []) ps ->
  exists ps1 p ps2, ps = ps1 ++ p :: ps2
    /\ Forall (fun q => candidateList players wishes (player_id q) <> []) ps1
    /\ candidateList players wishes (player_id p) = []
    /\ buildCandidates players wishes aseed ps c = Throw (NoCandidates (player_name p)).
Proof.
  induction ps as [|p ps IH]; intros c Hex; [by apply Exists_nil in Hex|].
  destruct (candidateList players wishes (player_id p)) as [|id l] eqn:E.
  - exists [], p, ps. simpl. rewrite E. auto.
  - apply Exists_cons in Hex as [Hex|Hex]; [congruence|].
    destruct (IH (JsMap.set c (player_id p)
                   (shuffle (SeededRandom (aseed ++ lit "#cand#" ++ player_id p)) (id :: l)))
                 Hex) as (ps1 & q & ps2 & -> & Hall & Hq & Hrun).
    exists (p :: ps1), q, ps2. simpl. rewrite E. repeat split; try done.
    constructor; [congruence|done].
Qed.

(** C3: when the candidate list of some participant is empty, the first
    attempt throws the error that names the first such participant, and so
    does [matchWishes]: no later attempt is run and the exhaustion error is
    not the result. *)
Theorem matchWishes_structural players wishes seed :
  Exists (fun p => candidateList players wishes (player_id p) = []) players ->
  exists ps1 p ps2, players = ps1 ++ p :: ps2
    /\ Forall (fun q => candidateList players wishes (player_id q) <> []) ps1
    /\ candidateList players wishes (player_id p) = []
    /\ attemptWith players wishes (attemptSeed seed 0)
       = Throw (NoCandidates (player_name p))
    /\ matchWishes players wishes seed = Throw (NoCandidates (player_name p))
    /\ matchWishes players wishes seed <> Throw Exhausted.
Proof.
  intros Hex.
  destruct (buildCandidates_throw players wishes (attemptSeed seed 0) players [] Hex)
    as (ps1 & p & ps2 & Hps & Hall & Hp & Hrun).
  exists ps1, p, ps2.
  assert (Hat : attemptWith players wishes (attemptSeed seed 0)
                = Throw (NoCandidates (player_name p))).
  { unfold attemptWith. by rewrite Hrun. }
  assert (Hm : matchWishes players wishes seed = Throw (NoCandidates (player_name p))).
  { unfold matchWishes. simpl. by rewrite Hat. }
  repeat split; try done. by rewrite Hm.
Qed.

(** ** Runs of the augmenting-path search *)

Section Search.
Variable candidates : JsMap.t (list jsstring).

Lemma tryLoop_run rec pid opts :
  (forall cur st b st', rec cur st = Return (b, st') ->
     exists copts, JsMap.get candidates cur = Some copts
                   /\ tryRun candidates cur copts st b st') ->
  forall st b st', tryLoop rec pid opts st = Return (b, st') ->
                   tryRun candidates pid opts st b st'.
Proof.
  intros Hrec. induction opts as [|wid opts IH]; intros st b st' H; simpl in H.
  - simplify_eq. constructor.
  - case_bool_decide as Hseen.
    + apply run_seen; auto.
    + destruct (holder (JsMap.get (wishAssignedTo st) wid)) as [cur|] eqn:Eh.
      * destruct (rec cur (add_seen wid st)) as [[[] st1]| |] eqn:Er; simplify_eq.
        -- destruct (Hrec _ _ _ _ Er) as (copts & Hc & Hrun).
           eapply run_move; eauto.
        -- destruct (Hrec _ _ _ _ Er) as (copts & Hc & Hrun).
           eapply run_back; eauto.
      * simplify_eq. by apply run_free.
Qed.

(** A call of [tryMatch] that returns is a run of the loop over the
    candidates of the picker. *)
Lemma tryMatch_run fuel : forall pid st b st',
  tryMatch candidates fuel pid st = Return (b, st') ->
  exists opts, JsMap.get candidates pid = Some opts
               /\ tryRun candidates pid opts st b st'.
Proof.
  induction fuel as [|fuel IH]; intros pid st b st' H; simpl in H; [done|].
  destruct (JsMap.get candidates pid) as [opts|] eqn:Ec; [|done].
  exists opts. split; [done|]. eapply tryLoop_run; eauto.
Qed.

(** The [seen] set only grows, by wishes that were not in it. *)
Lemma tryRun_seen pid opts st b st' :
  tryRun candidates pid opts st b st' ->
  exists new, seen st' = seen st ++ new
              /\ (NoDup (seen st) -> NoDup (seen st')).
Proof.
  induction 1 as [pid st|pid wid opts st b st' Hin _ IH|pid wid opts st Hnin Hh
                 |pid wid opts st cur copts st1 Hnin Hh Hc _ IH
                 |pid wid opts st cur copts st1 b st' Hnin Hh Hc _ IH1 _ IH2].
  - exists []. by rewrite app_nil_r.
  - exact IH.
  - exists [wid]. simpl. split; [done|]. intros Hnd.
    apply NoDup_app. repeat split; [done| |apply NoDup_singleton].
    intros x Hx Hx'. apply list_elem_of_singleton in Hx'. by subst.
  - destruct IH as (new & E & Hnd). simpl in E. exists (wid :: new).
    simpl. split; [by rewrite E, <- app_assoc|]. intros Hn.
    apply Hnd. simpl.
    apply NoDup_app. repeat split; [done| |apply NoDup_singleton].
    intros x Hx Hx'. apply list_elem_of_singleton in Hx'. by subst.
  - destruct IH1 as (new1 & E1 & Hnd1). destruct IH2 as (new2 & E2 & Hnd2).
    simpl in E1. exists (wid :: new1 ++ new2).
    split; [by rewrite E2, E1, <- !app_assoc|]. intros Hn.
    apply Hnd2, Hnd1. simpl.
    apply NoDup_app. repeat split; [done| |apply NoDup_singleton].
    intros x Hx Hx'. apply list_elem_of_singleton in Hx'. by subst.
Qed.

Lemma tryRun_seen_mono pid opts st b st' w :
  tryRun candidates pid opts st b st' -> w ∈ seen st -> w ∈ seen st'.
Proof.
  intros Hrun Hw. destruct (tryRun_seen _ _ _ _ _ Hrun) as (new & -> & _).
  apply elem_of_app. by left.
Qed.

(** Every wish that enters [seen] is a candidate of some picker. *)
Lemma tryRun_seen_within (U : list jsstring) pid opts st b st' :
  (forall k l, JsMap.get candidates k = Some l -> l ⊆ U) ->
  tryRun candidates pid opts st b st' ->
  opts ⊆ U -> seen st ⊆ U -> seen st' ⊆ U.
Proof.
  intros HU. induction 1 as [pid st|pid wid opts st b st' Hin _ IH|pid wid opts st Hnin Hh
                 |pid wid opts st cur copts st1 Hnin Hh Hc _ IH
                 |pid wid opts st cur copts st1 b st' Hnin Hh Hc _ IH1 _ IH2];
    intros Hopts Hseen.
  - done.
  - apply IH; [|done]. intros x Hx. apply Hopts. by right.
  - simpl. intros x Hx. apply elem_of_app in Hx as [Hx|Hx]; [by apply Hseen|].
    apply list_elem_of_singleton in Hx as ->. apply Hopts. left.
  - simpl. apply IH; [by eapply HU|].
    simpl. intros x Hx. apply elem_of_app in Hx as [Hx|Hx]; [by apply Hseen|].
    apply list_elem_of_singleton in Hx as ->. apply Hopts. left.
  - apply IH2; [intros x Hx; apply Hopts; by right|].
    apply IH1; [by eapply HU|].
    simpl. intros x Hx. apply elem_of_app in Hx as [Hx|Hx]; [by apply Hseen|].
    apply list_elem_of_singleton in Hx as ->. apply Hopts. left.
Qed.

(** A run that returns [false] leaves the two maps as they were, has seen
    every option, and every wish it has added to [seen] has a holder all
    of whose candidates are in [seen] too. *)
Lemma tryRun_fail pid opts st b st' :
  tryRun candidates pid opts st b st' -> b = false ->
  wishAssignedTo st' = wishAssignedTo st
  /\ pickerAssignedWish st' = pickerAssignedWish st
  /\ (forall w, w ∈ opts -> w ∈ seen st')
  /\ (forall w, w ∈ seen st' -> w ∈ seen st \/
        exists cur copts,
          holder (JsMap.get (wishAssignedTo st) w) = Some cur
          /\ JsMap.get candidates cur = Some copts
          /\ forall x, x ∈ copts -> x ∈ seen st').
Proof.
  induction 1 as [pid st|pid wid opts st b st' Hin Hrun IH|pid wid opts st Hnin Hh
                 |pid wid opts st cur copts st1 Hnin Hh Hc _ IH
                 |pid wid opts st cur copts st1 b st' Hnin Hh Hc Hrun1 IH1 Hrun2 IH2];
    intros Hb; try discriminate.
  - repeat split; try done.
    + intros w Hw. by apply elem_of_nil in Hw.
    + auto.
  - destruct (IH Hb) as (HM & HP & Ho & Hcl). repeat split; try done.
    intros w Hw. apply elem_of_cons in Hw as [->|Hw]; [|by apply Ho].
    by eapply tryRun_seen_mono.
  - destruct (IH1 eq_refl) as (HM1 & HP1 & Ho1 & Hcl1).
    destruct (IH2 Hb) as (HM2 & HP2 & Ho2 & Hcl2).
    simpl in HM1, HP1. repeat split.
    + congruence.
    + congruence.
    + intros w Hw. apply elem_of_cons in Hw as [->|Hw]; [|by apply Ho2].
      eapply tryRun_seen_mono; [exact Hrun2|].
      eapply tryRun_seen_mono; [exact Hrun1|].
      simpl. apply elem_of_app. right. left.
    + intros w Hw. destruct (Hcl2 w Hw) as [Hw1|Hw1].
      * destruct (Hcl1 w Hw1) as [Hw0|Hw0].
        -- simpl in Hw0. apply elem_of_app in Hw0 as [Hw0|Hw0]; [by left|].
           apply list_elem_of_singleton in Hw0 as ->. right.
           exists cur, copts. repeat split; try done.
           intros x Hx. eapply tryRun_seen_mono; [exact Hrun2|]. by apply Ho1.
        -- right. destruct Hw0 as (c & l & H1 & H2 & H3). simpl in H1.
           exists c, l. repeat split; try done.
           intros x Hx. eapply tryRun_seen_mono; [exact Hrun2|]. by apply H3.
      * right. destruct Hw1 as (c & l & H1 & H2 & H3). rewrite HM1 in H1.
        exists c, l. repeat split; done.
Qed.

Lemma held_cons q k v m :
  held q ((k, v) :: m) = ((if decide (v = q) then 1 else 0) + held q m)%nat.
Proof.
  unfold held, occurrences. csimpl. rewrite filter_cons.
  destruct (decide (v = q)); done.
Qed.

Lemma held_set q m k v :
  (held q (JsMap.set m k v)
   + (if decide (JsMap.get m k = Some q) then 1 else 0))%nat
  = (held q m + (if decide (v = q) then 1 else 0))%nat.
Proof.
  induction m as [|[k0 v0] m IH]; simpl.
  - rewrite held_cons. unfold held, occurrences. simpl.
    destruct (decide (None = Some q)); [done|]. lia.
  - destruct (decide (k0 = k)) as [->|Hne].
    + rewrite !held_cons.
      destruct (decide (Some v0 = Some q)), (decide (v0 = q)), (decide (v = q));
        simplify_eq; lia.
    + rewrite !held_cons. lia.
Qed.

Lemma holder_Some m w cur :
  holder (JsMap.get m w) = Some cur -> JsMap.get m w = Some cur /\ cur <> [].
Proof.
  unfold holder. destruct (JsMap.get m w) as [c|]; [|done].
  destruct c; simpl; [done|]. intros [= <-]. done.
Qed.

(** A run that returns [true] has changed [wishAssignedTo] only at wishes
    it has added to [seen]; the picker holds at most one wish more than
    before, everyone else at most as many as before, and every new
    holder is the picker. *)
Lemma tryRun_success pid opts st b st' :
  tryRun candidates pid opts st b st' -> b = true ->
  (forall w, w ∈ seen st ->
     JsMap.get (wishAssignedTo st') w = JsMap.get (wishAssignedTo st) w)
  /\ (forall q, (held q (wishAssignedTo st')
                <= held q (wishAssignedTo st) + (if decide (pid = q) then 1 else 0))%nat)
  /\ (forall w q, JsMap.get (wishAssignedTo st') w = Some q ->
        q = pid \/ exists w0, JsMap.get (wishAssignedTo st) w0 = Some q).
Proof.
  induction 1 as [pid st|pid wid opts st b st' Hin Hrun IH|pid wid opts st Hnin Hh
                 |pid wid opts st cur copts st1 Hnin Hh Hc Hrun IH
                 |pid wid opts st cur copts st1 b st' Hnin Hh Hc Hrun1 _ Hrun2 IH2];
    intros Hb; try discriminate.
  - by apply IH.
  - simpl. repeat split.
    + intros w Hw. rewrite JsMap_get_set.
      destruct (decide (wid = w)) as [->|]; done.
    + intros q. pose proof (held_set q (wishAssignedTo st) wid pid). lia.
    + intros w q. rewrite JsMap_get_set.
      destruct (decide (wid = w)); [intros [= <-]; by left|right; eauto].
  - destruct (IH eq_refl) as (Ha & Hb' & Hc'). simpl in Ha, Hb', Hc'.
    apply holder_Some in Hh as [Hget Hne].
    assert (Hw1 : JsMap.get (wishAssignedTo st1) wid = Some cur).
    { rewrite Ha; [done|]. apply elem_of_app. right. left. }
    simpl. repeat split.
    + intros w Hw. rewrite JsMap_get_set.
      destruct (decide (wid = w)) as [->|]; [done|].
      apply Ha. apply elem_of_app. by left.
    + intros q. pose proof (held_set q (wishAssignedTo st1) wid pid) as Hs.
      specialize (Hb' q). rewrite Hw1 in Hs.
      destruct (decide (Some cur = Some q)), (decide (cur = q)); simplify_eq; lia.
    + intros w q. rewrite JsMap_get_set.
      destruct (decide (wid = w)) as [->|]; [intros [= <-]; by left|].
      intros Hq. right. destruct (Hc' _ _ Hq) as [->|?]; eauto.
  - destruct (tryRun_fail _ _ _ _ _ Hrun1 eq_refl) as (HM & _).
    simpl in HM. destruct (IH2 Hb) as (Ha & Hb' & Hc'). rewrite HM in *.
    repeat split; try done.
    intros w Hw. apply Ha. eapply tryRun_seen_mono; [exact Hrun1|].
    simpl. apply elem_of_app. by left.
Qed.
End Search.

(** ** Termination of the search *)

Lemma remove_dups_length (l : list jsstring) :
  (length (remove_dups l) <= length l)%nat.
Proof.
  induction l as [|x l IH]; simpl; [done|].
  destruct (decide_rel elem_of x l); simpl; lia.
Qed.

Lemma NoDup_within_length (l U : list jsstring) :
  NoDup l -> l ⊆ U -> (length l <= length (remove_dups U))%nat.
Proof.
  intros Hnd Hsub. apply submseteq_length, NoDup_submseteq; [done|].
  intros x Hx. apply elem_of_remove_dups. by apply Hsub.
Qed.

Section Termination.
Variable candidates : JsMap.t (list jsstring).
Variable U : list jsstring.
Hypothesis candidates_within :
  forall k l, JsMap.get candidates k = Some l -> l ⊆ U.

(** With one unit of fuel for every wish id that is not yet in [seen],
    and one more, [tryMatch] returns. *)
Lemma tryMatch_returns fuel : forall pid st,
  holders_known candidates (wishAssignedTo st) ->
  is_Some (JsMap.get candidates pid) ->
  NoDup (seen st) -> seen st ⊆ U ->
  (length (remove_dups U) < fuel + length (seen st))%nat ->
  exists b st', tryMatch candidates fuel pid st = Return (b, st').
Proof using candidates_within.
  induction fuel as [|fuel IH]; intros pid st Hk [opts Hopts] Hnd Hsub Hfuel.
  - pose proof (NoDup_within_length _ _ Hnd Hsub). lia.
  - simpl. rewrite Hopts.
    assert (Ho : opts ⊆ U) by (by eapply candidates_within).
    clear Hopts. revert st Hk Hnd Hsub Hfuel.
    induction opts as [|wid opts IHo]; intros st Hk Hnd Hsub Hfuel; simpl; [eauto|].
    assert (Ho' : opts ⊆ U) by (intros x Hx; apply Ho; by right).
    case_bool_decide as Hseen; [by apply IHo|].
    destruct (holder (JsMap.get (wishAssignedTo st) wid)) as [cur|] eqn:Eh; [|eauto].
    apply holder_Some in Eh as [Hget _].
    destruct (IH cur (add_seen wid st)) as (b & st1 & Hrec).
    + done.
    + by eapply Hk.
    + simpl. apply NoDup_app. repeat split; [done| |apply NoDup_singleton].
      intros x Hx Hx'. apply list_elem_of_singleton in Hx'. by subst.
    + simpl. intros x Hx. apply elem_of_app in Hx as [Hx|Hx]; [by apply Hsub|].
      apply list_elem_of_singleton in Hx as ->. apply Ho. left.
    + simpl. rewrite length_app. simpl. lia.
    + rewrite Hrec. destruct b; [eauto|].
      destruct (tryMatch_run _ _ _ _ _ _ Hrec) as (copts & Hc & Hrun).
      destruct (tryRun_seen _ _ _ _ _ _ Hrun) as (new & Eseen & Hnd1).
      destruct (tryRun_fail _ _ _ _ _ _ Hrun eq_refl) as (HM & _).
      apply IHo; try done.
      * by rewrite HM.
      * apply Hnd1. simpl. apply NoDup_app. repeat split; [done| |apply NoDup_singleton].
        intros x Hx Hx'. apply list_elem_of_singleton in Hx'. by subst.
      * eapply tryRun_seen_within; [exact candidates_within|exact Hrun| |].
        -- by eapply candidates_within.
        -- simpl. intros x Hx. apply elem_of_app in Hx as [Hx|Hx]; [by apply Hsub|].
           apply list_elem_of_singleton in Hx as ->. apply Ho. left.
      * rewrite Eseen. simpl. rewrite !length_app. simpl. lia.
Qed.

(** More fuel does not change what [tryMatch] returns. *)
Lemma tryMatch_fuel_mono fuel : forall pid st r,
  tryMatch candidates fuel pid st = r -> r <> OutOfFuel ->
  tryMatch candidates (S fuel) pid st = r.
Proof.
  induction fuel as [|fuel IH]; intros pid st r Hr Hne; [simpl in Hr; congruence|].
  remember (S fuel) as f eqn:Ef. simpl. subst f. simpl in Hr.
  destruct (JsMap.get candidates pid) as [opts|]; [|done].
  revert st Hr. induction opts as [|wid opts IHo]; intros st Hr; simpl in *; [done|].
  case_bool_decide; [by apply IHo|].
  destruct (holder _) as [cur|]; [|done].
  destruct (tryMatch candidates fuel cur (add_seen wid st)) as [[[] st1]| |] eqn:Er.
  - rewrite (IH _ _ _ Er) by done. done.
  - rewrite (IH _ _ _ Er) by done. by apply IHo.
  - rewrite (IH _ _ _ Er) by done. done.
  - congruence.
Qed.

Lemma matchAll_returns order : forall st,
  holders_known candidates (wishAssignedTo st) ->
  Forall (fun pid => is_Some (JsMap.get candidates pid)) order ->
  exists b st', matchAll candidates (S (length U)) order st = Return (b, st').
Proof using candidates_within.
  induction order as [|pid order IH]; intros st Hk Hord; [simpl; eauto|].
  apply Forall_cons in Hord as [Hpid Hord]. cbn [matchAll].
  destruct (tryMatch_returns (S (length U)) pid (fresh_seen st)) as (b & st1 & Hrun);
    try done.
  - simpl. apply NoDup_nil_2.
  - simpl. intros x Hx. by apply elem_of_nil in Hx.
  - simpl. pose proof (remove_dups_length U). lia.
  - rewrite Hrun. destruct b; [|eauto]. apply IH; [|done].
    destruct (tryMatch_run _ _ _ _ _ _ Hrun) as (opts & Hc & Hr).
    destruct (tryRun_success _ _ _ _ _ _ Hr eq_refl) as (_ & _ & Hv).
    intros w q Hq. destruct (Hv _ _ Hq) as [->|[w0 Hw0]]; [done|].
    simpl in Hw0. by eapply Hk.
Qed.
End Termination.

(** ** The candidate lists of an attempt *)

Lemma candidateList_within players wishes pid :
  candidateList players wishes pid ⊆ allWishIds wishes.
Proof.
  intros x Hx. apply list_elem_of_In. apply list_elem_of_In in Hx.
  unfold candidateList in Hx. by apply filter_In in Hx as [? _].
Qed.

Lemma shuffledCandidates_perm players wishes aseed pid :
  shuffledCandidates players wishes aseed pid ≡ₚ candidateList players wishes pid.
Proof. apply shuffle_perm. Qed.

Lemma buildCandidates_get players wishes aseed ps : forall c0 c,
  buildCandidates players wishes aseed ps c0 = Return c ->
  forall k, JsMap.get c k
            = if decide (k ∈ List.map player_id ps)
              then Some (shuffledCandidates players wishes aseed k)
              else JsMap.get c0 k.
Proof.
  induction ps as [|p ps IH]; intros c0 c Hrun k; simpl in Hrun.
  - simplify_eq. by rewrite decide_False by apply not_elem_of_nil.
  - destruct (candidateList players wishes (player_id p)) as [|id l] eqn:E; [done|].
    rewrite (IH _ _ Hrun k), JsMap_get_set. simpl.
    destruct (decide (k ∈ List.map player_id ps)) as [Hin|Hnin].
    + rewrite decide_True by (by right). done.
    + destruct (decide (player_id p = k)) as [<- |Hne].
      * rewrite decide_True by left. unfold shuffledCandidates. by rewrite E.
      * rewrite decide_False; [done|].
        intros Hk. apply elem_of_cons in Hk as [->|Hk]; done.
Qed.

Lemma buildCandidates_ok players wishes aseed ps : forall c0,
  Forall (fun p => candidateList players wishes (player_id p) <> []) ps ->
  exists c, buildCandidates players wishes aseed ps c0 = Return c.
Proof.
  induction ps as [|p ps IH]; intros c0 Hall; simpl; [eauto|].
  apply Forall_cons in Hall as [Hp Hall].
  destruct (candidateList players wishes (player_id p)) as [|id l] eqn:E; [done|].
  by apply IH.
Qed.

(** The candidate lists of an attempt, when none is empty: the shuffled
    list of every player id, and nothing else. *)
Lemma buildCandidates_all players wishes aseed :
  Forall (fun p => candidateList players wishes (player_id p) <> []) players ->
  exists c, buildCandidates players wishes aseed players [] = Return c
    /\ (forall p, p ∈ players ->
          JsMap.get c (player_id p)
          = Some (shuffledCandidates players wishes aseed (player_id p)))
    /\ (forall k l, JsMap.get c k = Some l ->
          l = shuffledCandidates players wishes aseed k
          /\ k ∈ List.map player_id players
          /\ l ⊆ allWishIds wishes).
Proof.
  intros Hall. destruct (buildCandidates_ok players wishes aseed players [] Hall) as [c Hc].
  exists c. split; [done|]. pose proof (buildCandidates_get _ _ _ _ _ _ Hc) as Hget.
  split.
  - intros p Hp. rewrite Hget, decide_True; [done|].
    apply list_elem_of_In, in_map, list_elem_of_In, Hp.
  - intros k l Hk. rewrite Hget in Hk.
    destruct (decide (k ∈ List.map player_id players)); [|done].
    simplify_eq. repeat split; [done|].
    intros x Hx. rewrite shuffledCandidates_perm in Hx.
    by apply candidateList_within in Hx.
Qed.

Lemma holders_known_empty c : holders_known c [].
Proof. intros w q H. done. Qed.

Lemma search_fuel_length wishes : search_fuel wishes = S (length (allWishIds wishes)).
Proof. unfold search_fuel, allWishIds. by rewrite length_map. Qed.

(** An attempt returns, with pairs or to fall through, or throws the error
    of a participant without candidates. *)
Lemma attemptWith_returns players wishes aseed :
  (exists r, attemptWith players wishes aseed = Return r)
  \/ (exists p, p ∈ players
        /\ candidateList players wishes (player_id p) = []
        /\ attemptWith players wishes aseed = Throw (NoCandidates (player_name p))).
Proof.
  destruct (decide (Exists (fun p => candidateList players wishes (player_id p) = []) players))
    as [Hex|Hnex].
  - right. destruct (buildCandidates_throw players wishes aseed players [] Hex)
      as (ps1 & p & ps2 & Hps & _ & Hp & Hrun).
    exists p. repeat split; [|done|].
    + rewrite Hps. apply elem_of_app. right. left.
    + unfold attemptWith. by rewrite Hrun.
  - left. apply not_Exists_Forall in Hnex; [|intros p; apply _].
    destruct (buildCandidates_all players wishes aseed) as (c & Hc & Hp & Hk).
    { eapply Forall_impl; [exact Hnex|]. simpl. auto. }
    unfold attemptWith. rewrite Hc, search_fuel_length.
    destruct (matchAll_returns c (allWishIds wishes) (fun k l H => proj2 (proj2 (Hk k l H)))
                (shuffle (SeededRandom (aseed ++ lit "#order")) (List.map player_id players))
                empty_search (holders_known_empty c)) as (b & st' & Hrun).
    + apply Forall_forall. intros pid Hpid. rewrite shuffle_perm in Hpid.
      apply list_elem_of_In, in_map_iff in Hpid as (p & <- & Hin).
      rewrite (Hp p); [done|]. by apply list_elem_of_In.
    + rewrite Hrun. destruct b; eauto.
Qed.

(** [matchWishes] returns pairs or throws one of its two errors. *)
Lemma matchWishes_total players wishes seed :
  (exists pairs, matchWishes players wishes seed = Return pairs)
  \/ (exists p, p ∈ players
        /\ candidateList players wishes (player_id p) = []
        /\ matchWishes players wishes seed = Throw (NoCandidates (player_name p)))
  \/ matchWishes players wishes seed = Throw Exhausted.
Proof.
  unfold matchWishes.
  cut (forall n k,
    (exists pairs, attemptsFrom players wishes seed n k = Return pairs)
    \/ (exists p, p ∈ players
          /\ candidateList players wishes (player_id p) = []
          /\ attemptsFrom players wishes seed n k = Throw (NoCandidates (player_name p)))
    \/ attemptsFrom players wishes seed n k = Throw Exhausted); [by intros H|].
  induction n as [|n IH]; intros k; simpl; [auto|].
  destruct (attemptWith_returns players wishes (attemptSeed seed k))
    as [[[pairs|] ->]|(p & Hp & He & ->)]; eauto 6.
Qed.

(** A run that returns [true] has given the picker one of its options,
    which was not in [seen] before and is in it now. *)
Lemma tryRun_assigned candidates pid opts st b st' :
  tryRun candidates pid opts st b st' -> b = true ->
  exists w, w ∈ opts /\ (w ∉ seen st) /\ w ∈ seen st'
            /\ JsMap.get (pickerAssignedWish st') pid = Some w
            /\ JsMap.get (wishAssignedTo st') w = Some pid.
Proof.
  induction 1 as [pid st|pid wid opts st b st' Hin Hrun IH|pid wid opts st Hnin Hh
                 |pid wid opts st cur copts st1 Hnin Hh Hc Hrun IH
                 |pid wid opts st cur copts st1 b st' Hnin Hh Hc Hrun1 _ Hrun2 IH2];
    intros Hb; try discriminate.
  - destruct (IH Hb) as (w & Hw & H). exists w. split; [by right|done].
  - exists wid. simpl. rewrite !JsMap_get_set.
    destruct (decide (pid = pid)); [|done]. destruct (decide (wid = wid)); [|done].
    repeat split; try done; [left|]. apply elem_of_app. right. left.
  - exists wid. simpl. rewrite !JsMap_get_set.
    destruct (decide (pid = pid)); [|done]. destruct (decide (wid = wid)); [|done].
    repeat split; try done; [left|].
    eapply tryRun_seen_mono; [exact Hrun|]. simpl. apply elem_of_app. right. left.
  - destruct (IH2 Hb) as (w & Hw & Hn & H). exists w.
    split; [by right|]. split; [|done].
    intros Hs. apply Hn. eapply tryRun_seen_mono; [exact Hrun1|].
    simpl. apply elem_of_app. by left.
Qed.

(** Options that are all in [seen] are all skipped. *)
Lemma tryLoop_all_seen rec pid opts st :
  (forall w, w ∈ opts -> w ∈ seen st) ->
  tryLoop rec pid opts st = Return (false, st).
Proof.
  induction opts as [|wid opts IH]; intros Hall; simpl; [done|].
  rewrite bool_decide_eq_true_2 by (apply Hall; left).
  apply IH. intros w Hw. apply Hall. by right.
Qed.

(** C9: the search terminates.  A call of [tryMatch] returns as soon as it
    has one unit of fuel (one level of recursion) for every wish id that is
    not yet in [seen], and one more.  The [seen] set of the call only
    grows, without duplicates and inside the wish ids; the wishes that
    were in [seen] keep their holder.  A call that returns [true] has
    given the picker a candidate that was not in [seen] and now is; a call
    that returns [false] has left the two maps alone and every candidate
    of the picker is in [seen].  In the loop, a wish in [seen] is skipped,
    and a wish not in [seen] is added to it before the holder is looked
    at and before the recursive call; a picker whose candidates are all
    in [seen] gets [false] without any recursive call.  What a call
    returns does not change with more fuel; every top-level call starts
    from an empty [seen]; and [matchWishes] is total: it returns pairs or
    throws one of its two errors. *)
Theorem tryMatch_terminates :
  (forall candidates U fuel pid st,
     (forall k l, JsMap.get candidates k = Some l -> l ⊆ U) ->
     holders_known candidates (wishAssignedTo st) ->
     is_Some (JsMap.get candidates pid) ->
     NoDup (seen st) -> seen st ⊆ U ->
     (length (remove_dups U) < fuel + length (seen st))%nat ->
     exists b st' opts,
       JsMap.get candidates pid = Some opts
       /\ tryMatch candidates fuel pid st = Return (b, st')
       /\ (exists new, seen st' = seen st ++ new)
       /\ NoDup (seen st') /\ seen st' ⊆ U
       /\ (forall w, w ∈ seen st ->
             JsMap.get (wishAssignedTo st') w = JsMap.get (wishAssignedTo st) w)
       /\ (if b
           then exists w, w ∈ opts /\ (w ∉ seen st) /\ w ∈ seen st'
                  /\ JsMap.get (pickerAssignedWish st') pid = Some w
                  /\ JsMap.get (wishAssignedTo st') w = Some pid
           else wishAssignedTo st' = wishAssignedTo st
                /\ pickerAssignedWish st' = pickerAssignedWish st
                /\ forall w, w ∈ opts -> w ∈ seen st'))
  /\ (forall rec pid wid opts st,
        (wid ∈ seen st -> tryLoop rec pid (wid :: opts) st = tryLoop rec pid opts st)
        /\ (wid ∉ seen st ->
            seen (add_seen wid st) = seen st ++ [wid]
            /\ wishAssignedTo (add_seen wid st) = wishAssignedTo st
            /\ tryLoop rec pid (wid :: opts) st
               = match holder (JsMap.get (wishAssignedTo st) wid) with
                 | None => Return (true, assign wid pid (add_seen wid st))
                 | Some cur =>
                     match rec cur (add_seen wid st) with
                     | Return (true, st') => Return (true, assign wid pid st')
                     | Return (false, st') => tryLoop rec pid opts st'
                     | Throw e => Throw e
                     | OutOfFuel => OutOfFuel
                     end
                 end))
  /\ (forall candidates fuel pid opts st,
        JsMap.get candidates pid = Some opts ->
        (forall w, w ∈ opts -> w ∈ seen st) ->
        tryMatch candidates (S fuel) pid st = Return (false, st))
  /\ (forall candidates fuel pid st r,
        tryMatch candidates fuel pid st = r -> r <> OutOfFuel ->
        tryMatch candidates (S fuel) pid st = r)
  /\ (forall candidates fuel pid order st,
        matchAll candidates fuel (pid :: order) st
        = match tryMatch candidates fuel pid (fresh_seen st) with
          | Return (true, st') => matchAll candidates fuel order st'
          | Return (false, st') => Return (false, st')
          | Throw e => Throw e
          | OutOfFuel => OutOfFuel
          end
        /\ seen (fresh_seen st) = [])
  /\ (forall players wishes seed,
        (exists pairs, matchWishes players wishes seed = Return pairs)
        \/ (exists p, p ∈ players
              /\ candidateList players wishes (player_id p) = []
              /\ matchWishes players wishes seed = Throw (NoCandidates (player_name p)))
        \/ matchWishes players wishes seed = Throw Exhausted).
Proof.
  split; [|split; [|split; [|split; [|split]]]].
  - intros candidates U fuel pid st HU Hk Hpid Hnd Hsub Hfuel.
    destruct (tryMatch_returns candidates U HU fuel pid st) as (b & st' & Hrun); try done.
    destruct (tryMatch_run _ _ _ _ _ _ Hrun) as (opts & Hopts & Hr).
    exists b, st', opts. split; [done|]. split; [done|].
    destruct (tryRun_seen _ _ _ _ _ _ Hr) as (new & E & Hn).
    split; [eauto|]. split; [by apply Hn|].
    split; [eapply tryRun_seen_within; [exact HU|exact Hr|by eapply HU|done]|].
    destruct b.
    + split; [by apply (tryRun_success _ _ _ _ _ _ Hr eq_refl)|].
      by apply (tryRun_assigned _ _ _ _ _ _ Hr).
    + destruct (tryRun_fail _ _ _ _ _ _ Hr eq_refl) as (HM & HP & Ho & _).
      split; [intros w _; by rewrite HM|done].
  - intros rec pid wid opts st. split.
    + intros Hin. simpl. by rewrite bool_decide_eq_true_2.
    + intros Hnin. split; [done|]. split; [done|].
      simpl. by rewrite bool_decide_eq_false_2.
  - intros candidates fuel pid opts st Hopts Hall. simpl. rewrite Hopts.
    by apply tryLoop_all_seen.
  - intros candidates fuel pid st r. apply tryMatch_fuel_mono.
  - intros. split; reflexivity.
  - apply matchWishes_total.
Qed.

(** ** Completeness of the search *)

(** A matching follows a permutation of the pickers. *)
Lemma Forall2_perm_l {A B} (R : A -> B -> Prop) l l' :
  l ≡ₚ l' -> forall k, Forall2 R l k -> exists k', k ≡ₚ k' /\ Forall2 R l' k'.
Proof.
  induction 1 as [|x l l' _ IH|x y l|l l' l'' _ IH1 _ IH2]; intros k Hk.
  - eauto.
  - apply Forall2_cons_inv_l in Hk as (b & k1 & Hb & Hk1 & ->).
    destruct (IH _ Hk1) as (k1' & Hp & HF). exists (b :: k1'). split; [by f_equiv|].
    by constructor.
  - apply Forall2_cons_inv_l in Hk as (b & k1 & Hb & Hk1 & ->).
    apply Forall2_cons_inv_l in Hk1 as (b2 & k2 & Hb2 & Hk2 & ->).
    exists (b2 :: b :: k2). split; [apply perm_swap|]. by repeat constructor.
  - destruct (IH1 _ Hk) as (k1 & Hp1 & HF1). destruct (IH2 _ HF1) as (k2 & Hp2 & HF2).
    exists k2. split; [by etrans|done].
Qed.

(** Pickers of [T] that are all matched to different wishes, inside [S]:
    there are at most as many of them as wishes in [S]. *)
Lemma matched_inside (R : jsstring -> jsstring -> Prop) (T S : list jsstring) ord asg :
  Forall2 R ord asg -> NoDup asg ->
  (forall q w, q ∈ T -> R q w -> w ∈ S) ->
  (length (filter (fun q => q ∈ T) ord) <= length S)%nat.
Proof.
  intros HF Hnd HTS.
  assert (H : exists ws, NoDup ws /\ ws ⊆ asg /\ ws ⊆ S
                         /\ length ws = length (filter (fun q => q ∈ T) ord)).
  { induction HF as [|q w ord asg Hqw HF IH].
    - exists []. split; [apply NoDup_nil_2|].
      repeat split; try done; intros x Hx; by apply elem_of_nil in Hx.
    - apply NoDup_cons in Hnd as [Hw Hnd].
      destruct (IH Hnd) as (ws & Hws & Hsub & HS & Hlen).
      rewrite filter_cons. destruct (decide (q ∈ T)) as [HqT|HqT].
      + exists (w :: ws). repeat split.
        * apply NoDup_cons. split; [|done]. intros Hin. by apply Hw, Hsub.
        * intros x Hx. apply elem_of_cons in Hx as [->|Hx]; [left|right; by apply Hsub].
        * intros x Hx. apply elem_of_cons in Hx as [->|Hx]; [by eapply HTS|by apply HS].
        * simpl. by rewrite Hlen.
      + exists ws. repeat split; try done.
        intros x Hx. right. by apply Hsub. }
  destruct H as (ws & Hws & _ & HS & <-).
  apply submseteq_length, NoDup_submseteq; done.
Qed.

Lemma occurrences_perm q l l' : l ≡ₚ l' -> occurrences q l = occurrences q l'.
Proof. intros H. unfold occurrences. by rewrite H. Qed.

(** If nobody stands more often in [A] than in [B], a filter keeps at most
    as many elements of [A] as of [B]. *)
Lemma filter_length_occurrences (P : jsstring -> Prop) `{!forall x, Decision (P x)} A :
  forall B, (forall q, (occurrences q A <= occurrences q B)%nat) ->
  (length (filter P A) <= length (filter P B))%nat.
Proof.
  induction A as [|a A IH]; intros B Hocc; [simpl; lia|].
  assert (Ha : a ∈ B).
  { specialize (Hocc a). unfold occurrences in Hocc.
    rewrite filter_cons_True in Hocc by done. simpl in Hocc.
    destruct (filter (fun x => x = a) B) as [|b l] eqn:E; [simpl in Hocc; lia|].
    assert (Hb : b ∈ filter (fun x => x = a) B) by (rewrite E; left).
    apply list_elem_of_filter in Hb as [-> ?]. done. }
  apply elem_of_Permutation in Ha as [B' HB].
  rewrite HB. rewrite !filter_cons.
  assert (IH' : (length (filter P A) <= length (filter P B'))%nat).
  { apply IH. intros q. specialize (Hocc q).
    rewrite (occurrences_perm q _ _ HB) in Hocc. unfold occurrences in *.
    rewrite !filter_cons in Hocc. destruct (decide (a = q)); simpl in Hocc; lia. }
  destruct (decide (P a)); simpl; lia.
Qed.

Lemma occurrences_snoc q l p :
  occurrences q (l ++ [p]) = (occurrences q l + (if decide (p = q) then 1 else 0))%nat.
Proof.
  unfold occurrences. rewrite filter_app, length_app, filter_cons.
  destruct (decide (p = q)); simpl; lia.
Qed.

Lemma filter_snd_length (P : jsstring -> Prop) `{!forall x, Decision (P x)}
    (m : JsMap.t jsstring) :
  length (filter (fun kv => P kv.2) m) = length (filter P m.*2).
Proof.
  induction m as [|[k v] m IH]; [done|]. csimpl.
  destruct (decide (P v)) as [Hv|Hv].
  - rewrite (filter_cons_True P) by done.
    rewrite (filter_cons_True (fun kv : jsstring * jsstring => P kv.2)) by done.
    simpl. f_equal. exact IH.
  - rewrite (filter_cons_False P) by done.
    rewrite (filter_cons_False (fun kv : jsstring * jsstring => P kv.2)) by done.
    done.
Qed.

Section Completeness.
Variable candidates : JsMap.t (list jsstring).
Variable U : list jsstring.
Hypothesis candidates_within :
  forall k l, JsMap.get candidates k = Some l -> l ⊆ U.

(** The pigeonhole argument: while a matching of all the pickers of
    [order] exists and nobody holds more wishes than the times it has had
    its turn, a top-level call for the next picker cannot return [false]. *)
Lemma tryRun_cannot_fail done p rest asg opts st st' :
  Forall2 (candidate_of candidates) (done ++ p :: rest) asg -> NoDup asg ->
  (forall q, (held q (wishAssignedTo st) <= occurrences q done)%nat) ->
  JsMap.get candidates p = Some opts ->
  tryRun candidates p opts (fresh_seen st) false st' -> False.
Proof.
  intros HF Hnd Hheld Hopts Hrun.
  destruct (tryRun_fail _ _ _ _ _ _ Hrun eq_refl) as (_ & _ & Ho & Hcl).
  destruct (tryRun_seen _ _ _ _ _ _ Hrun) as (new & Eseen & HndS).
  simpl in Eseen, HndS, Hcl. specialize (HndS (NoDup_nil_2)).
  set (M := wishAssignedTo st) in *. set (S := seen st') in *.
  set (T := p :: ((fun w => default [] (JsMap.get M w)) <$> S)).
  assert (Hclosed : forall w, w ∈ S -> exists cur copts,
            JsMap.get M w = Some cur /\ JsMap.get candidates cur = Some copts
            /\ forall x, x ∈ copts -> x ∈ S).
  { intros w Hw. destruct (Hcl w Hw) as [Hnil|(cur & copts & Hh & Hc & Hsub)].
    - by apply elem_of_nil in Hnil.
    - apply holder_Some in Hh as [Hg _]. eauto. }
  (* the wishes matched to pickers of T are in S *)
  assert (HTS : forall q w, q ∈ T -> candidate_of candidates q w -> w ∈ S).
  { intros q w Hq (l & Hl & Hw). apply elem_of_cons in Hq as [->|Hq].
    - rewrite Hopts in Hl. simplify_eq. by apply Ho.
    - apply list_elem_of_fmap in Hq as (w0 & -> & Hw0).
      destruct (Hclosed w0 Hw0) as (cur & copts & Hg & Hc & Hsub).
      rewrite Hg in Hl. simpl in Hl. rewrite Hc in Hl. simplify_eq. by apply Hsub. }
  (* so there are at most |S| turns of pickers of T up to this one *)
  assert (H1 : (length (filter (fun q => q ∈ T) (done ++ [p])) <= length S)%nat).
  { replace (done ++ p :: rest) with ((done ++ [p]) ++ rest) in HF
      by (by rewrite <- app_assoc).
    apply Forall2_app_inv_l in HF as (asg1 & asg2 & HF1 & _ & ->).
    apply NoDup_app in Hnd as (Hnd1 & _ & _).
    by eapply matched_inside. }
  rewrite filter_app, length_app, filter_cons_True in H1 by left. simpl in H1.
  (* every wish of S is held by a picker of T *)
  assert (H2 : (length S <= length (filter (fun q => q ∈ T) M.*2))%nat).
  { rewrite <- filter_snd_length.
    rewrite <- (length_fmap (fun w => (w, default [] (JsMap.get M w))) S).
    apply submseteq_length, NoDup_submseteq.
    - apply NoDup_fmap_2_strong; [|done]. by intros x y _ _ [= ->].
    - intros kv Hkv. apply list_elem_of_fmap in Hkv as (w & -> & Hw).
      apply list_elem_of_filter. split.
      + simpl. right. apply list_elem_of_fmap. eauto.
      + destruct (Hclosed w Hw) as (cur & copts & Hg & _). rewrite Hg. simpl.
        by apply JsMap_get_Some_elem. }
  (* and they hold no more than their turns so far *)
  pose proof (filter_length_occurrences (fun q => q ∈ T) M.*2 done Hheld) as H3.
  lia.
Qed.

(** Under the same conditions the loop over the pickers gets through. *)
Lemma matchAll_complete rest : forall done asg st,
  Forall2 (candidate_of candidates) (done ++ rest) asg -> NoDup asg ->
  holders_known candidates (wishAssignedTo st) ->
  (forall q, (held q (wishAssignedTo st) <= occurrences q done)%nat) ->
  exists st', matchAll candidates (Datatypes.S (length U)) rest st = Return (true, st').
Proof using candidates_within.
  induction rest as [|p rest IH]; intros done asg st HF Hnd Hk Hheld; [simpl; eauto|].
  assert (Hp : is_Some (JsMap.get candidates p)).
  { apply Forall2_app_inv_l in HF as (asg1 & asg2 & _ & HF2 & _).
    apply Forall2_cons_inv_l in HF2 as (w & ? & (l & Hl & _) & _). eauto. }
  cbn [matchAll].
  destruct (tryMatch_returns candidates U candidates_within
              (Datatypes.S (length U)) p (fresh_seen st)) as (b & st1 & Hrun); try done.
  - simpl. apply NoDup_nil_2.
  - simpl. intros x Hx. by apply elem_of_nil in Hx.
  - simpl. pose proof (remove_dups_length U). lia.
  - rewrite Hrun.
    destruct (tryMatch_run _ _ _ _ _ _ Hrun) as (opts & Hopts & Hr).
    destruct b.
    + destruct (tryRun_success _ _ _ _ _ _ Hr eq_refl) as (_ & Hcount & Hv).
      simpl in Hcount, Hv.
      apply (IH (done ++ [p]) asg).
      * by rewrite <- app_assoc.
      * done.
      * intros w q Hq. destruct (Hv _ _ Hq) as [->|[w0 Hw0]]; [done|]. by eapply Hk.
      * intros q. rewrite occurrences_snoc. specialize (Hcount q).
        specialize (Hheld q). lia.
    + exfalso. eapply tryRun_cannot_fail; eauto.
Qed.
End Completeness.

Lemma perfect_matching_nonempty players wishes asg :
  perfect_matching players wishes asg ->
  Forall (fun p => candidateList players wishes (player_id p) <> []) players.
Proof.
  intros [HF _].
  eapply (Forall2_Forall_l (fun p w => w ∈ candidateList players wishes (player_id p)));
    [exact HF|].
  apply Forall_forall. intros w _ p Hw E. rewrite E in Hw. by apply elem_of_nil in Hw.
Qed.

(** With a perfect matching every attempt returns pairs. *)
Lemma attemptWith_complete players wishes aseed asg :
  perfect_matching players wishes asg ->
  exists pairs, attemptWith players wishes aseed = Return (Some pairs).
Proof.
  intros Hpm. pose proof (perfect_matching_nonempty _ _ _ Hpm) as Hne.
  destruct Hpm as [HF Hnd].
  destruct (buildCandidates_all players wishes aseed Hne) as (c & Hc & Hp & Hk).
  unfold attemptWith. rewrite Hc, search_fuel_length.
  set (order := shuffle (SeededRandom (aseed ++ lit "#order")) (List.map player_id players)).
  assert (HF' : Forall2 (candidate_of c) (List.map player_id players) asg).
  { clear -HF Hp.
    assert (H : forall ps, (forall p, p ∈ ps -> p ∈ players) -> forall a,
              Forall2 (fun p w => w ∈ candidateList players wishes (player_id p)) ps a ->
              Forall2 (candidate_of c) (List.map player_id ps) a).
    { induction ps as [|p ps IH]; intros Hin a Ha.
      - apply Forall2_nil_inv_l in Ha as ->. constructor.
      - apply Forall2_cons_inv_l in Ha as (w & a' & Hw & Ha' & ->). simpl.
        constructor.
        + exists (shuffledCandidates players wishes aseed (player_id p)).
          split; [apply Hp, Hin; left|]. by rewrite shuffledCandidates_perm.
        + apply IH; [|done]. intros q Hq. apply Hin. by right. }
    by apply H. }
  destruct (Forall2_perm_l _ _ order (symmetry (shuffle_perm _ _)) _ HF')
    as (asg' & Hperm & HFo).
  destruct (matchAll_complete c (allWishIds wishes) (fun k l H => proj2 (proj2 (Hk k l H)))
              order [] asg' empty_search) as (st' & Hrun).
  - done.
  - by rewrite <- Hperm.
  - apply holders_known_empty.
  - intros q. reflexivity.
  - rewrite Hrun. eauto.
Qed.

(** ** Soundness of the search for non-empty ids *)

Lemma JsMap_get_is_Some {V} (m : JsMap.t V) k :
  is_Some (JsMap.get m k) <-> k ∈ m.*1.
Proof.
  destruct (decide (k ∈ m.*1)) as [Hin|Hnin].
  - split; [done|]. intros _. destruct (JsMap.get m k) eqn:E; [eauto|].
    apply JsMap_get_None in E. done.
  - split; [|done]. intros [v Hv]. apply JsMap_get_None in Hnin. congruence.
Qed.

Lemma JsMap_set_keys {V} (m : JsMap.t V) k v :
  NoDup m.*1 -> NoDup (JsMap.set m k v).*1.
Proof.
  induction m as [|[k0 v0] m IH]; csimpl; intros Hnd.
  - apply NoDup_singleton.
  - apply NoDup_cons in Hnd as [Hk0 Hnd].
    destruct (decide (k0 = k)) as [->|Hne]; csimpl.
    + by apply NoDup_cons.
    + apply NoDup_cons. split; [|by apply IH].
      intros Hin. apply JsMap_get_is_Some in Hin. rewrite JsMap_get_set in Hin.
      destruct (decide (k = k0)); [done|]. by apply JsMap_get_is_Some in Hin.
Qed.

Lemma JsMap_elem_get {V} (m : JsMap.t V) k v :
  NoDup m.*1 -> (k, v) ∈ m -> JsMap.get m k = Some v.
Proof.
  induction m as [|[k0 v0] m IH]; csimpl; intros Hnd Hin.
  - by apply elem_of_nil in Hin.
  - apply NoDup_cons in Hnd as [Hk0 Hnd].
    apply elem_of_cons in Hin as [[= -> ->]|Hin].
    + by rewrite decide_True.
    + rewrite decide_False; [by apply IH|].
      intros ->. apply Hk0. apply list_elem_of_fmap. by exists (k, v).
Qed.

(** Different keys with different values: the values are all different. *)
Lemma JsMap_values_NoDup (m : JsMap.t jsstring) :
  NoDup m.*1 ->
  (forall k1 k2 v, JsMap.get m k1 = Some v -> JsMap.get m k2 = Some v -> k1 = k2) ->
  NoDup m.*2.
Proof.
  intros Hnd Hinj.
  assert (H : forall l, l ⊆ m -> NoDup l.*1 -> NoDup l.*2).
  { induction l as [|[k v] l IH]; csimpl; intros Hsub Hl; [apply NoDup_nil_2|].
    apply NoDup_cons in Hl as [Hk Hl]. apply NoDup_cons. split.
    - intros Hv. apply list_elem_of_fmap in Hv as ([k' v'] & Hv & Hin). simpl in Hv.
      subst v'. apply Hk.
      assert (k = k'); [|subst; apply list_elem_of_fmap; by exists (k', v)].
      apply (Hinj k k' v); apply JsMap_elem_get; try done; apply Hsub;
        [left|by right].
    - apply IH; [|done]. intros x Hx. apply Hsub. by right. }
  by apply H.
Qed.

Section Soundness.
Variable candidates : JsMap.t (list jsstring).

(** What a run of the loop for [pid] may rely on: the two maps agree, no
    holder is the empty string, the wishes [pid] holds are in [seen], and
    the options come from the candidates of [pid]. *)
Lemma tryRun_sound pid opts st b st' :
  tryRun candidates pid opts st b st' -> b = true ->
  maps_agree st ->
  (forall w q, JsMap.get (wishAssignedTo st) w = Some q -> q <> []) ->
  (forall w, JsMap.get (wishAssignedTo st) w = Some pid -> w ∈ seen st) ->
  (exists l, JsMap.get candidates pid = Some l /\ opts ⊆ l) ->
  pid <> [] ->
  (exists w, JsMap.get (pickerAssignedWish st') pid = Some w
             /\ (w ∉ seen st) /\ candidate_of candidates pid w)
  /\ (forall q w, JsMap.get (pickerAssignedWish st') q = Some w ->
        JsMap.get (wishAssignedTo st') w = Some q)
  /\ (forall w q, JsMap.get (wishAssignedTo st') w = Some q ->
        JsMap.get (pickerAssignedWish st') q = Some w
        \/ (q = pid /\ JsMap.get (pickerAssignedWish st) pid = Some w))
  /\ (forall q, q <> pid ->
        (forall w, JsMap.get (wishAssignedTo st) w = Some q -> w ∈ seen st) ->
        JsMap.get (pickerAssignedWish st') q = JsMap.get (pickerAssignedWish st) q)
  /\ (forall q, is_Some (JsMap.get (pickerAssignedWish st') q)
                <-> is_Some (JsMap.get (pickerAssignedWish st) q) \/ q = pid)
  /\ (forall q w, JsMap.get (pickerAssignedWish st') q = Some w ->
        JsMap.get (pickerAssignedWish st) q = Some w \/ candidate_of candidates q w)
  /\ (NoDup (pickerAssignedWish st).*1 -> NoDup (pickerAssignedWish st').*1).
Proof.
  induction 1 as [pid st|pid wid opts st b st' Hin Hrun IH|pid wid opts st Hnin Hh
                 |pid wid opts st cur copts st1 Hnin Hh Hc Hrun IH
                 |pid wid opts st cur copts st1 b st' Hnin Hh Hc Hrun1 _ Hrun2 IH2];
    intros Hb Hagree Htruthy Hmine (l & Hl & Hopts) Hpid; try discriminate.
  - apply IH; try done. exists l. split; [done|]. intros x Hx. apply Hopts. by right.
  - (* the wish is free *)
    assert (Hfree : JsMap.get (wishAssignedTo st) wid = None).
    { unfold holder in Hh. destruct (JsMap.get (wishAssignedTo st) wid) as [c|] eqn:E;
        [|done].
      destruct c; [by apply Htruthy in E|done]. }
    assert (Hcand : candidate_of candidates pid wid)
      by (exists l; split; [done|apply Hopts; left]).
    simpl. repeat split.
    + exists wid. rewrite JsMap_get_set, decide_True by done. done.
    + intros q w. rewrite !JsMap_get_set.
      destruct (decide (pid = q)) as [<- |Hq].
      * intros [= <-]. by rewrite decide_True.
      * intros Hw. apply Hagree in Hw. destruct (decide (wid = w)); congruence.
    + intros w q. rewrite !JsMap_get_set.
      destruct (decide (wid = w)) as [<- |Hw].
      * intros [= <-]. left. by rewrite decide_True.
      * intros Hq. apply Hagree in Hq. destruct (decide (pid = q)) as [<- |?]; auto.
    + intros q Hq _. rewrite JsMap_get_set. by rewrite decide_False.
    + intros [x Hx]. rewrite JsMap_get_set in Hx.
      destruct (decide (pid = q)); [by right|left; eauto].
    + intros [Hq| ->]; rewrite JsMap_get_set.
      * destruct (decide (pid = q)); eauto.
      * rewrite decide_True by done. eauto.
    + intros q w. rewrite JsMap_get_set.
      destruct (decide (pid = q)) as [<- |?]; [intros [= <-]; by right|by left].
    + apply JsMap_set_keys.
  - (* the holder of the wish moves to another wish *)
    apply holder_Some in Hh as [Hget Hcur].
    assert (Hpc : JsMap.get (pickerAssignedWish st) cur = Some wid) by (by apply Hagree).
    assert (Hne : cur <> pid).
    { intros ->. by apply Hnin, Hmine. }
    destruct (tryRun_success _ _ _ _ _ _ Hrun eq_refl) as (Hsame & _ & _).
    simpl in Hsame.
    assert (Hw1 : JsMap.get (wishAssignedTo st1) wid = Some cur).
    { rewrite Hsame; [done|]. apply elem_of_app. right. left. }
    destruct IH as ((w2 & Hw2 & Hw2n & Hw2c) & I2 & I3 & I4 & I5 & I6 & I7); try done.
    { simpl. intros w Hw. apply Hagree in Hw. rewrite Hpc in Hw. simplify_eq.
      apply elem_of_app. right. left. }
    { eauto. }
    simpl in Hw2n, I3, I4, I5, I6, I7.
    assert (Hcand : candidate_of candidates pid wid)
      by (exists l; split; [done|apply Hopts; left]).
    assert (Hw2wid : w2 <> wid).
    { intros ->. apply Hw2n. apply elem_of_app. right. left. }
    simpl. repeat split.
    + exists wid. rewrite JsMap_get_set, decide_True by done. done.
    + intros q w. rewrite !JsMap_get_set.
      destruct (decide (pid = q)) as [<- |Hq].
      * intros [= <-]. by rewrite decide_True.
      * intros Hw. destruct (decide (wid = w)) as [<- |?]; [|by apply I2].
        exfalso. pose proof (I2 _ _ Hw) as Hw'. rewrite Hw1 in Hw'.
        injection Hw' as ->. rewrite Hw2 in Hw. by injection Hw.
    + intros w q. rewrite !JsMap_get_set.
      destruct (decide (wid = w)) as [<- |Hw].
      * intros [= <-]. left. by rewrite decide_True.
      * intros Hq. destruct (I3 _ _ Hq) as [Hp|[-> Hp]].
        -- destruct (decide (pid = q)) as [<- |?]; [|by left].
           right. split; [done|]. rewrite <- Hp. symmetry. apply I4; [done|].
           intros w' Hw'. apply elem_of_app. left. by apply Hmine.
        -- congruence.
    + intros q Hq Hall. rewrite JsMap_get_set, decide_False by done.
      apply I4.
      * intros ->. by apply Hnin, Hall.
      * intros w Hw. apply elem_of_app. left. by apply Hall.
    + intros [x Hx]. rewrite JsMap_get_set in Hx.
      destruct (decide (pid = q)); [by right|].
      destruct (proj1 (I5 q) (ex_intro _ x Hx)) as [?| ->]; [by left|left; eauto].
    + intros [Hq| ->]; rewrite JsMap_get_set.
      * destruct (decide (pid = q)); [eauto|]. apply I5. by left.
      * rewrite decide_True by done. eauto.
    + intros q w. rewrite JsMap_get_set.
      destruct (decide (pid = q)) as [<- |?]; [intros [= <-]; by right|apply I6].
    + intros Hnd. by apply JsMap_set_keys, I7.
  - (* the holder cannot move: on to the next option *)
    destruct (tryRun_fail _ _ _ _ _ _ Hrun1 eq_refl) as (HM & HP & _ & _).
    simpl in HM, HP.
    assert (Hmono : forall w, w ∈ seen st -> w ∈ seen st1).
    { intros w Hw. eapply tryRun_seen_mono; [exact Hrun1|]. simpl.
      apply elem_of_app. by left. }
    destruct IH2 as ((w2 & Hw2 & Hw2n & Hw2c) & I2 & I3 & I4 & I5 & I6 & I7); try done.
    { unfold maps_agree. rewrite HM, HP. apply Hagree. }
    { rewrite HM. done. }
    { rewrite HM. auto. }
    { exists l. split; [done|]. intros x Hx. apply Hopts. by right. }
    rewrite HM, HP in *. repeat split; try done.
    + exists w2. repeat split; try done. intros Hw. by apply Hw2n, Hmono.
    + intros q Hq Hall. apply I4; [done|]. auto.
    + apply I5.
    + apply I5.
Qed.

(** The loop over the pickers keeps [matched_so_far]. *)
Lemma matchAll_sound fuel rest : forall done st st',
  NoDup (done ++ rest) -> Forall (fun q => q <> []) (done ++ rest) ->
  matched_so_far candidates done st ->
  matchAll candidates fuel rest st = Return (true, st') ->
  matched_so_far candidates (done ++ rest) st'.
Proof.
  induction rest as [|p rest IH]; intros done st st' Hnd Hne Hinv Hrun.
  - simpl in Hrun. simplify_eq. by rewrite app_nil_r.
  - cbn [matchAll] in Hrun.
    destruct (tryMatch candidates fuel p (fresh_seen st)) as [[[] st1]| |] eqn:Ep;
      try done.
    destruct (tryMatch_run _ _ _ _ _ _ Ep) as (opts & Hopts & Hr).
    destruct Hinv as (Hkeys & Hdom & Hagree & Hel).
    assert (Hp_done : p ∉ done).
    { apply NoDup_app in Hnd as (_ & Hd & _). intros Hp. apply (Hd p Hp). left. }
    assert (Hp_none : JsMap.get (pickerAssignedWish st) p = None).
    { apply JsMap_get_None. by rewrite Hdom. }
    destruct (tryRun_sound _ _ _ _ _ Hr eq_refl)
      as ((w & Hw & _ & Hwc) & I2 & I3 & I4 & I5 & I6 & I7); try done.
    + intros w q Hq. apply Hagree in Hq.
      assert (Hqd : q ∈ done) by (apply Hdom, JsMap_get_is_Some; eauto).
      rewrite Forall_forall in Hne. apply Hne. apply elem_of_app. by left.
    + simpl. intros w Hw. apply Hagree in Hw. congruence.
    + eauto.
    + rewrite Forall_forall in Hne. apply Hne. apply elem_of_app. right. left.
    + simpl in I3, I4, I5, I6, I7.
      replace (done ++ p :: rest) with ((done ++ [p]) ++ rest)
        by (by rewrite <- app_assoc).
      apply (IH (done ++ [p]) st1 st'); try (by rewrite <- app_assoc);
        [|exact Hrun].
      repeat split.
      * by apply I7.
      * intros Hq. apply JsMap_get_is_Some, I5 in Hq as [Hq| ->].
        -- apply elem_of_app. left. by apply Hdom, JsMap_get_is_Some.
        -- apply elem_of_app. right. left.
      * intros Hq. apply JsMap_get_is_Some, I5. apply elem_of_app in Hq as [Hq|Hq].
        -- left. by apply JsMap_get_is_Some, Hdom.
        -- right. by apply list_elem_of_singleton in Hq.
      * apply I2.
      * intros Hq. destruct (I3 _ _ Hq) as [?|[-> Hp']]; [done|congruence].
      * intros q w' Hq. destruct (I6 _ _ Hq) as [?|?]; [by eapply Hel|done].
Qed.
End Soundness.

Lemma attemptsFrom_Return players wishes seed n : forall k pairs,
  attemptsFrom players wishes seed n k = Return pairs ->
  exists i, attemptWith players wishes (attemptSeed seed i) = Return (Some pairs).
Proof.
  induction n as [|n IH]; intros k pairs H; simpl in H; [done|].
  destruct (attemptWith players wishes (attemptSeed seed k)) as [[ps|]| |] eqn:E;
    try done.
  - simplify_eq. eauto.
  - by eapply IH.
Qed.

Lemma matched_so_far_empty c : matched_so_far c [] empty_search.
Proof.
  repeat split; simpl; try done.
  apply NoDup_nil_2.
Qed.

Lemma pairs_of_pickers st : List.map pickerId (pairs_of st) = (pickerAssignedWish st).*1.
Proof.
  unfold pairs_of, JsMap.entries. induction (pickerAssignedWish st) as [|[k v] m IH];
    [done|]. csimpl. by f_equal.
Qed.

Lemma pairs_of_wishes st : List.map wishId (pairs_of st) = (pickerAssignedWish st).*2.
Proof.
  unfold pairs_of, JsMap.entries. induction (pickerAssignedWish st) as [|[k v] m IH];
    [done|]. csimpl. by f_equal.
Qed.

(** An attempt that returns pairs, for participants with different,
    non-empty ids: one pair for every participant, no wish twice, every
    wish from the candidate list of its picker. *)
Lemma attemptWith_sound players wishes aseed pairs :
  NoDup (List.map player_id players) ->
  Forall (fun p => player_id p <> []) players ->
  attemptWith players wishes aseed = Return (Some pairs) ->
  List.map pickerId pairs ≡ₚ List.map player_id players
  /\ NoDup (List.map wishId pairs)
  /\ Forall (fun pr => wishId pr ∈ candidateList players wishes (pickerId pr)) pairs.
Proof.
  intros Hnd Hne Hat. unfold attemptWith in Hat.
  destruct (buildCandidates players wishes aseed players []) as [c| |] eqn:Ec; try done.
  set (order := shuffle (SeededRandom (aseed ++ lit "#order")) (List.map player_id players))
    in *.
  destruct (matchAll c (search_fuel wishes) order empty_search) as [[[] st]| |] eqn:Em;
    try done.
  simplify_eq.
  assert (Hord : order ≡ₚ List.map player_id players) by apply shuffle_perm.
  destruct (matchAll_sound c (search_fuel wishes) order [] empty_search st)
    as (Hkeys & Hdom & Hagree & Hel); simpl; try done.
  - by rewrite Hord.
  - rewrite Hord. apply Forall_forall. intros q Hq.
    apply list_elem_of_In, in_map_iff in Hq as (p & <- & Hp).
    rewrite Forall_forall in Hne. by apply Hne, list_elem_of_In.
  - apply matched_so_far_empty.
  - simpl in Hdom. rewrite pairs_of_pickers, pairs_of_wishes. repeat split.
    + rewrite <- Hord. apply NoDup_Permutation; [done|by rewrite Hord|done].
    + apply JsMap_values_NoDup; [done|]. intros k1 k2 v H1 H2.
      apply Hagree in H1, H2. congruence.
    + apply Forall_forall. intros pr Hpr. unfold pairs_of, JsMap.entries in Hpr.
      apply list_elem_of_In, in_map_iff in Hpr as ([q w] & <- & Hin). simpl.
      apply list_elem_of_In, (JsMap_elem_get _ _ _ Hkeys) in Hin.
      destruct (Hel _ _ Hin) as (l & Hl & Hw).
      rewrite (buildCandidates_get _ _ _ _ _ _ Ec) in Hl.
      destruct (decide (q ∈ List.map player_id players)); [|done].
      simplify_eq. by rewrite shuffledCandidates_perm in Hw.
Qed.

Lemma JsMap_of_entries_unique {V} (l : list (jsstring * V)) k v :
  NoDup l.*1 -> (k, v) ∈ l -> JsMap.get (JsMap.of_entries l) k = Some v.
Proof.
  unfold JsMap.of_entries.
  assert (Hout : forall (l' : list (jsstring * V)) m, k ∉ l'.*1 ->
            JsMap.get (fold_left (fun m kv => JsMap.set m kv.1 kv.2) l' m) k
            = JsMap.get m k).
  { induction l' as [|[k0 v0] l' IH]; intros m Hk; [done|]. csimpl in *.
    apply not_elem_of_cons in Hk as [Hne Hk]. rewrite IH by done.
    rewrite JsMap_get_set. by rewrite decide_False. }
  generalize (@nil (jsstring * V)).
  induction l as [|[k0 v0] l IH]; intros m Hnd Hin; [by apply elem_of_nil in Hin|].
  csimpl in *. apply NoDup_cons in Hnd as [Hk0 Hnd].
  apply elem_of_cons in Hin as [[= -> ->]|Hin].
  - rewrite Hout by done. rewrite JsMap_get_set. by rewrite decide_True.
  - by apply IH.
Qed.

Lemma wishById_unique wishes w :
  NoDup (List.map wish_id wishes) -> w ∈ wishes ->
  JsMap.get (wishById wishes) (wish_id w) = Some w.
Proof.
  intros Hnd Hw. apply JsMap_of_entries_unique.
  - assert (E : (List.map (fun w => (wish_id w, w)) wishes).*1 = List.map wish_id wishes).
    { clear. induction wishes as [|x ws IH]; [done|]. cbn. by f_equal. }
    by rewrite E.
  - apply list_elem_of_In, in_map_iff. exists w. split; [done|]. by apply list_elem_of_In.
Qed.

(** For participants with different ids none of which is the empty string,
    and wishes with different ids, what [matchWishes] returns is a complete
    valid assignment. *)
Theorem matchWishes_sound_nonempty_ids players wishes seed pairs :
  NoDup (List.map player_id players) ->
  Forall (fun p => player_id p <> []) players ->
  NoDup (List.map wish_id wishes) ->
  matchWishes players wishes seed = Return pairs ->
  valid_assignment players wishes pairs.
Proof.
  intros Hnd Hne Hw Hm. apply attemptsFrom_Return in Hm as [i Hat].
  destruct (attemptWith_sound _ _ _ _ Hnd Hne Hat) as (H1 & H2 & H3).
  repeat split; try done.
  eapply Forall_impl; [exact H3|]. intros pr Hpr. simpl in Hpr.
  apply list_elem_of_In in Hpr. unfold candidateList in Hpr.
  apply filter_In in Hpr as [Hin Hel]. split; [by apply list_elem_of_In|].
  intros w Hww Hid. unfold eligible in Hel. rewrite <- Hid in Hel.
  rewrite (wishById_unique wishes w Hw Hww) in Hel.
  apply andb_true_iff in Hel as [He1 He2].
  apply bool_decide_eq_true in He1, He2. done.
Qed.

(** ** What [matchWishes] returns, for non-empty ids *)



Lemma or_A_truthy x : truthy (or_A x) = true.
Proof. destruct x as [[|c s]|]; done. Qed.








(** ** Runs on concrete data *)

Lemma selfTest_seed1 :
  matchWishes selfTest_players selfTest_wishes (lit "seed-1")
  = Return [mkPair "A" "wB1"; mkPair "B" "wA1"].
Proof. vm_compute. reflexivity. Qed.

Lemma selfTest_seed2 :
  matchWishes selfTest_players selfTest_wishes (lit "seed-2")
  = Return [mkPair "A" "wB1"; mkPair "B" "wA1"].
Proof. vm_compute. reflexivity. Qed.

(** The products of [shuffle] are binary64 products, not exact ones: for the
    state 67392 and 45 elements the index is 12, and the exact quotient
    [67392 * 45 / 233280] is 13. *)
Lemma draw_is_binary64 :
  Math_floor (b64_mul (b64_div (Z2SF 67392) (Z2SF 233280)) (Z2SF 45)) = 12
  /\ 67392 * 45 / 233280 = 13.
Proof. split; reflexivity. Qed.

(** Two players who can only take the same wish: every attempt falls
    through and the exhaustion error is thrown. *)
Lemma twoForOne_exhausted :
  Forall (fun p => candidateList twoForOne_players twoForOne_wishes (player_id p) <> [])
    twoForOne_players
  /\ matchWishes twoForOne_players twoForOne_wishes (lit "seed-1") = Throw Exhausted.
Proof.
  split; [|vm_compute; reflexivity].
  apply (bool_decide_unpack _). vm_compute. reflexivity.
Qed.

(** With the empty id and the seed [seed-3], the first attempt falls
    through (the picker [b] comes before the picker with the empty id) and
    the second one returns. *)
Lemma emptyId_seed3 :
  attemptWith emptyId_players emptyId_wishes (attemptSeed (lit "seed-3") 0) = Return None
  /\ attemptWith emptyId_players emptyId_wishes (attemptSeed (lit "seed-3") 1)
     = Return (Some [mkPair "c" "w2"; mkPair "" "w1"; mkPair "b" "w1"]).
Proof. split; vm_compute; reflexivity. Qed.


(** ** The theorems at concrete inputs *)



Lemma matchWishes_structural_witness :
  Exists (fun p => candidateList oneGroup_players selfTest_wishes (player_id p) = [])
    oneGroup_players
  /\ exists ps1 p ps2, oneGroup_players = ps1 ++ p :: ps2
    /\ Forall (fun q => candidateList oneGroup_players selfTest_wishes (player_id q) <> []) ps1
    /\ candidateList oneGroup_players selfTest_wishes (player_id p) = []
    /\ attemptWith oneGroup_players selfTest_wishes (attemptSeed (lit "seed-1") 0)
       = Throw (NoCandidates (player_name p))
    /\ matchWishes oneGroup_players selfTest_wishes (lit "seed-1")
       = Throw (NoCandidates (player_name p))
    /\ matchWishes oneGroup_players selfTest_wishes (lit "seed-1") <> Throw Exhausted.
Proof.
  assert (H : Exists (fun p => candidateList oneGroup_players selfTest_wishes (player_id p) = [])
                oneGroup_players).
  { apply Exists_cons_hd. vm_compute. reflexivity. }
  split; [exact H|].
  apply (matchWishes_structural oneGroup_players selfTest_wishes (lit "seed-1") H).
Defined.

Lemma matchWishes_attempts_witness :
  (1 < 7)%nat
  /\ attemptWith emptyId_players emptyId_wishes (attemptSeed (lit "seed-3") 0) = Return None
  /\ attemptWith emptyId_players emptyId_wishes (attemptSeed (lit "seed-3") 1)
     = Return (Some [mkPair "c" "w2"; mkPair "" "w1"; mkPair "b" "w1"])
  /\ matchWishes emptyId_players emptyId_wishes (lit "seed-3")
     = Return [mkPair "c" "w2"; mkPair "" "w1"; mkPair "b" "w1"].
Proof.
  assert (H0 : attemptWith emptyId_players emptyId_wishes (attemptSeed (lit "seed-3") 0)
               = Return None) by (vm_compute; reflexivity).
  assert (H1 : attemptWith emptyId_players emptyId_wishes (attemptSeed (lit "seed-3") 1)
               = Return (Some [mkPair "c" "w2"; mkPair "" "w1"; mkPair "b" "w1"]))
    by (vm_compute; reflexivity).
  split; [lia|]. split; [exact H0|]. split; [exact H1|].
  apply (proj1 (proj2 (matchWishes_attempts emptyId_players emptyId_wishes (lit "seed-3")))
           1%nat _ ltac:(lia)); [|exact H1].
  intros i Hi. assert (i = 0%nat) as -> by lia. exact H0.
Defined.

Lemma shuffle_fisher_yates_witness :
  0 <= SeededRandom (lit "seed-1|0#order")
  /\ shuffle (SeededRandom (lit "seed-1|0#order")) [1; 2; 3; 4; 5] = [1; 2; 4; 3; 5]
  /\ (let s1 := (next (SeededRandom (lit "seed-1|0#order"))).2 in
      s1 = 212973
      /\ Math_floor (b64_mul (next s1).1 (Z2SF 4)) = 2
      /\ (inject_Z 2 <= SF2Q (b64_mul (next s1).1 (Z2SF 4)) < inject_Z 2 + 1)%Q
      /\ shuffle_loop 3 s1 [1; 2; 3; 4; 5]
         = shuffle_loop 2 (next s1).2 (swap 3 2 [1; 2; 3; 4; 5])
      /\ (next s1).2 = 130690)
  /\ shuffle (SeededRandom (lit "seed-1|0#order")) [1; 2; 3; 4; 5] ≡ₚ [1; 2; 3; 4; 5].
Proof.
  assert (H : 0 <= SeededRandom (lit "seed-1|0#order")) by (vm_compute; discriminate).
  pose proof (shuffle_fisher_yates (SeededRandom (lit "seed-1|0#order")) [1; 2; 3; 4; 5] H)
    as (_ & Hstep & _ & Hperm & _).
  split; [exact H|]. split; [vm_compute; reflexivity|]. split; [|exact Hperm].
  assert (E : (next (SeededRandom (lit "seed-1|0#order"))).2 = 212973)
    by (vm_compute; reflexivity).
  cbv zeta. rewrite E.
  assert (Ej : Math_floor (b64_mul (next 212973).1 (Z2SF 4)) = 2)
    by (vm_compute; reflexivity).
  destruct (Hstep 2%nat 212973 [1; 2; 3; 4; 5] ltac:(lia) ltac:(simpl; lia))
    as (H1 & _ & H2 & H3 & _).
  cbv zeta in H1, H3. change (Z.of_nat 3 + 1) with 4 in H1, H3. rewrite Ej in H1, H3.
  destruct (H3 ltac:(simpl; lia)) as [_ H4].
  split; [reflexivity|]. split; [exact Ej|]. split; [exact H4|]. split; [exact H1|].
  rewrite H2. vm_compute. reflexivity.
Defined.

Lemma two_run_determinism_witness :
  lit "seed-1" = lit "seed-1"
  /\ matchWishes selfTest_players selfTest_wishes (lit "seed-1")
     = matchWishes selfTest_players selfTest_wishes (lit "seed-1").
Proof.
  split; [reflexivity|].
  apply (two_run_determinism (lit "seed-1") (lit "seed-1") eq_refl).
Defined.

Lemma tryMatch_terminates_witness :
  tryMatch relay_candidates 3 (lit "B") relay_search = Return (true, relay_result)
  /\ tryMatch relay_candidates 1 (lit "B") relay_search = OutOfFuel
  /\ tryMatch relay_candidates 1 (lit "A") (add_seen (lit "w1") relay_search)
     = Return (true, assign (lit "w2") (lit "A")
                       (add_seen (lit "w2") (add_seen (lit "w1") relay_search)))
  /\ exists b st' opts,
       JsMap.get relay_candidates (lit "B") = Some opts
       /\ tryMatch relay_candidates 3 (lit "B") relay_search = Return (b, st')
       /\ (exists new, seen st' = seen relay_search ++ new)
       /\ NoDup (seen st') /\ seen st' ⊆ [lit "w1"; lit "w2"]
       /\ (forall w, w ∈ seen relay_search ->
             JsMap.get (wishAssignedTo st') w = JsMap.get (wishAssignedTo relay_search) w)
       /\ (if b
           then exists w, w ∈ opts /\ (w ∉ seen relay_search) /\ w ∈ seen st'
                  /\ JsMap.get (pickerAssignedWish st') (lit "B") = Some w
                  /\ JsMap.get (wishAssignedTo st') w = Some (lit "B")
           else wishAssignedTo st' = wishAssignedTo relay_search
                /\ pickerAssignedWish st' = pickerAssignedWish relay_search
                /\ forall w, w ∈ opts -> w ∈ seen st').
Proof.
  split; [vm_compute; reflexivity|].
  split; [vm_compute; reflexivity|].
  split; [vm_compute; reflexivity|].
  apply (proj1 tryMatch_terminates relay_candidates [lit "w1"; lit "w2"] 3%nat (lit "B")
           relay_search).
  - intros k l. unfold relay_candidates. simpl.
    destruct (decide (lit "A" = k)); [intros [= <-]; done|].
    destruct (decide (lit "B" = k)); [|discriminate].
    intros [= <-]. intros x Hx. apply list_elem_of_singleton in Hx as ->. left.
  - intros w q. unfold relay_search. simpl.
    destruct (decide (lit "w1" = w)); [|discriminate].
    intros [= <-]. vm_compute. eauto.
  - vm_compute. eauto.
  - apply NoDup_nil_2.
  - intros x Hx. by apply elem_of_nil in Hx.
  - vm_compute. lia.
Defined.

Lemma matchWishes_sound_nonempty_ids_witness :
  valid_assignment selfTest_players selfTest_wishes [mkPair "A" "wB1"; mkPair "B" "wA1"].
Proof.
  apply (matchWishes_sound_nonempty_ids selfTest_players selfTest_wishes (lit "seed-1")).
  - apply (bool_decide_unpack _). vm_compute. reflexivity.
  - apply (bool_decide_unpack _). vm_compute. reflexivity.
  - apply (bool_decide_unpack _). vm_compute. reflexivity.
  - vm_compute. reflexivity.
Defined.

(* ================================================================== *)
(** * Properties of the rooms and of the component *)

From Stdlib Require Import ZifyNat.

(** ** sanitizeText *)

Lemma trimStart_split s :
  exists k, s = k ++ trimStart s /\ Forall (fun c => is_space c = true) k.
Proof.
  induction s as [|c s (k & E & Hk)]; simpl.
  - by exists [].
  - destruct (is_space c) eqn:Hc.
    + exists (c :: k). split; [by rewrite E at 1|by constructor].
    + by exists [].
Qed.

Lemma trimStart_head s c : head (trimStart s) = Some c -> is_space c = false.
Proof.
  induction s as [|d s IH]; simpl; [done|].
  destruct (is_space d) eqn:Hd; [done|]. simpl. by intros [= <-].
Qed.

Lemma trimStart_id s :
  (forall c, head s = Some c -> is_space c = false) -> trimStart s = s.
Proof.
  destruct s as [|c s]; simpl; [done|]. intros H. by rewrite (H c).
Qed.

Lemma trimEnd_split s :
  exists k, s = trimEnd s ++ k /\ Forall (fun c => is_space c = true) k.
Proof.
  destruct (trimStart_split (reverse s)) as (k & E & Hk).
  exists (reverse k). split.
  - unfold trimEnd. rewrite <- reverse_app, <- E. by rewrite reverse_involutive.
  - by apply Forall_reverse.
Qed.

Lemma trimEnd_last s c : last (trimEnd s) = Some c -> is_space c = false.
Proof.
  unfold trimEnd. rewrite last_reverse. apply trimStart_head.
Qed.

Lemma trimEnd_id s : ends_with_space s = false -> trimEnd s = s.
Proof.
  unfold ends_with_space, trimEnd. intros H.
  rewrite trimStart_id; [apply reverse_involutive|].
  intros c. rewrite head_reverse. intros E. by rewrite E in H.
Qed.

Lemma trimEnd_head s c : head (trimEnd s) = Some c -> head s = Some c.
Proof.
  destruct (trimEnd_split s) as (k & E & _). intros H. rewrite E.
  destruct (trimEnd s); [done|]. done.
Qed.

Lemma trim_head s c : head (trim s) = Some c -> is_space c = false.
Proof.
  unfold trim. intros H. apply trimEnd_head in H. by eapply trimStart_head.
Qed.

Lemma trim_ends s : ends_with_space (trim s) = false.
Proof.
  unfold ends_with_space. destruct (last (trim s)) as [c|] eqn:E; [|done].
  by apply trimEnd_last in E.
Qed.

Lemma length_replace_spaces b s : (length (replace_spaces b s) <= length s)%nat.
Proof.
  revert b. induction s as [|c s IH]; intros b; simpl; [done|].
  destruct (is_space c); [destruct b|]; simpl.
  - specialize (IH true). lia.
  - specialize (IH true). lia.
  - specialize (IH false). lia.
Qed.

Lemma replace_spaces_start s :
  (forall c, head s = Some c -> is_space c = false) ->
  replace_spaces false s = replace_spaces true s.
Proof.
  destruct s as [|c s]; simpl; [done|]. intros H. by rewrite (H c).
Qed.

Lemma single_spaced_replace b s : single_spaced b (replace_spaces b s) = true.
Proof.
  revert b. induction s as [|c s IH]; intros b; simpl; [done|].
  destruct (is_space c) eqn:Hc; [destruct b|]; simpl.
  - apply IH.
  - change (is_space 32) with true. simpl. apply IH.
  - rewrite Hc. apply IH.
Qed.

Lemma single_spaced_take b n s :
  single_spaced b s = true -> single_spaced b (take n s) = true.
Proof.
  revert b n. induction s as [|c s IH]; intros b [|n]; simpl; try done.
  destruct (is_space c); [|by apply IH].
  intros H. apply andb_true_iff in H as [H1 H2]. rewrite H1. simpl. by apply IH.
Qed.

Lemma single_spaced_fixed b s : single_spaced b s = true -> replace_spaces b s = s.
Proof.
  revert b. induction s as [|c s IH]; intros b; simpl; [done|].
  destruct (is_space c) eqn:Hc.
  - intros H. apply andb_true_iff in H as [H1 H2].
    apply andb_true_iff in H1 as [H0 H1]. apply Z.eqb_eq in H0 as ->.
    destruct b; [done|]. f_equal. by apply IH.
  - intros H. f_equal. by apply IH.
Qed.

Lemma single_spaced_head s c :
  single_spaced true s = true -> head s = Some c -> is_space c = false.
Proof.
  destruct s as [|d s]; simpl; [done|]. intros H [= <-].
  destruct (is_space d); [|done]. by rewrite andb_false_r in H.
Qed.

Lemma length_sanitizeText text : (length (sanitizeText text) <= 120)%nat.
Proof. unfold sanitizeText. rewrite length_take. lia. Qed.

Lemma single_spaced_sanitizeText text : single_spaced true (sanitizeText text) = true.
Proof.
  unfold sanitizeText. apply single_spaced_take.
  rewrite replace_spaces_start by apply trim_head.
  apply single_spaced_replace.
Qed.

(** X1: what [sanitizeText] returns has at most 120 code units, does not
    start with whitespace, and holds no whitespace but the plain space,
    never two in a row. *)
Theorem sanitizeText_shape text :
  (length (sanitizeText text) <= 120)%nat
  /\ single_spaced true (sanitizeText text) = true
  /\ (forall c, head (sanitizeText text) = Some c -> is_space c = false)
  /\ (forall i c d, sanitizeText text !! i = Some c ->
        sanitizeText text !! S i = Some d ->
        is_space c = true -> is_space d = false)
  /\ (forall c, c ∈ sanitizeText text -> is_space c = true -> c = 32).
Proof.
  pose proof (single_spaced_sanitizeText text) as Hs.
  split; [apply length_sanitizeText|]. split; [exact Hs|].
  split; [intros c; by apply single_spaced_head|].
  revert Hs. generalize (sanitizeText text). intros s.
  cut (forall b, single_spaced b s = true ->
         (forall i c d, s !! i = Some c -> s !! S i = Some d ->
            is_space c = true -> is_space d = false)
         /\ (forall c, c ∈ s -> is_space c = true -> c = 32)); [by intros H; apply H|].
  induction s as [|x s IH]; intros b Hs.
  - split; [done|]. intros c Hc. by apply elem_of_nil in Hc.
  - simpl in Hs. destruct (is_space x) eqn:Hx.
    + apply andb_true_iff in Hs as [Hs1 Hs2]. apply andb_true_iff in Hs1 as [Hs0 _].
      apply Z.eqb_eq in Hs0. destruct (IH true Hs2) as [IH1 IH2]. split.
      * intros [|i] c d Hc Hd Hsp; [|exact (IH1 i c d Hc Hd Hsp)].
        simpl in Hc, Hd. destruct s as [|y s]; [done|]. injection Hd as <-.
        simpl in Hs2. destruct (is_space y); [|done]. by rewrite andb_false_r in Hs2.
      * intros c Hc Hsp. apply elem_of_cons in Hc as [->|Hc]; [done|]. by apply IH2.
    + destruct (IH false Hs) as [IH1 IH2]. split.
      * intros [|i] c d Hc Hd Hsp; [|exact (IH1 i c d Hc Hd Hsp)].
        simpl in Hc. injection Hc as <-. congruence.
      * intros c Hc Hsp. apply elem_of_cons in Hc as [->|Hc]; [congruence|].
        by apply IH2.
Qed.

Lemma letters_trimStart s :
  filter (fun c => ¬ is_space c) (trimStart s) = filter (fun c => ¬ is_space c) s.
Proof.
  induction s as [|c s IH]; simpl; [done|].
  destruct (is_space c) eqn:Hc; [|done].
  rewrite filter_cons_False; [done|]. rewrite Hc. intros H. by apply H.
Qed.

Lemma letters_trim s :
  filter (fun c => ¬ is_space c) (trim s) = filter (fun c => ¬ is_space c) s.
Proof.
  unfold trim, trimEnd.
  by rewrite filter_reverse, letters_trimStart, filter_reverse, reverse_involutive,
    letters_trimStart.
Qed.

Lemma letters_replace b s :
  filter (fun c => ¬ is_space c) (replace_spaces b s) = filter (fun c => ¬ is_space c) s.
Proof.
  revert b. induction s as [|c s IH]; intros b; simpl; [done|].
  destruct (is_space c) eqn:Hc.
  - rewrite (filter_cons_False _ c); [|rewrite Hc; intros H; by apply H].
    destruct b; [apply IH|]. rewrite filter_cons_False; [apply IH|].
    intros H. by apply H.
  - rewrite !filter_cons_True by (rewrite Hc; intros []). f_equal. apply IH.
Qed.

(** X2: [sanitizeText] changes nothing but whitespace, and cuts: the code
    units of the result that are not whitespace are, in their order, the
    first ones of the text that are not whitespace. *)
Theorem sanitizeText_keeps_letters text :
  filter (fun c => ¬ is_space c) (sanitizeText text)
    `prefix_of` filter (fun c => ¬ is_space c) text.
Proof.
  unfold sanitizeText.
  rewrite <- (letters_trim text), <- (letters_replace false (trim text)).
  set (s := replace_spaces false (trim text)).
  rewrite <- (take_drop 120 s) at 2. rewrite filter_app. by apply prefix_app_r.
Qed.

Lemma length_trimStart s : (length (trimStart s) <= length s)%nat.
Proof.
  destruct (trimStart_split s) as (k & E & _). rewrite E at 2.
  rewrite length_app. lia.
Qed.

Lemma length_trimEnd s : (length (trimEnd s) <= length s)%nat.
Proof.
  destruct (trimEnd_split s) as (k & E & _). rewrite E at 2.
  rewrite length_app. lia.
Qed.

Lemma trimStart_spaces k s :
  Forall (fun c => is_space c = true) k -> trimStart (k ++ s) = trimStart s.
Proof.
  induction 1 as [|c k Hc _ IH]; simpl; [done|]. by rewrite Hc.
Qed.

Lemma trimEnd_spaces s k :
  Forall (fun c => is_space c = true) k -> trimEnd (s ++ k) = trimEnd s.
Proof.
  intros Hk. unfold trimEnd. rewrite reverse_app, trimStart_spaces; [done|].
  by apply Forall_reverse.
Qed.

Lemma trim_spaces_r s k :
  Forall (fun c => is_space c = true) k -> trim (s ++ k) = trim s.
Proof.
  intros Hk. unfold trim. induction s as [|c s IH]; simpl.
  - rewrite <- (app_nil_r k), trimStart_spaces by done. done.
  - destruct (is_space c); [exact IH|].
    exact (trimEnd_spaces (c :: s) k Hk).
Qed.

Lemma trimEnd_shorter s :
  ends_with_space s = true -> (length (trimEnd s) < length s)%nat.
Proof.
  unfold ends_with_space. destruct (last s) as [c|] eqn:E; [|done]. intros Hc.
  apply last_Some in E as [s' ->]. rewrite (trimEnd_spaces s' [c]).
  - pose proof (length_trimEnd s'). rewrite length_app. simpl. lia.
  - by repeat constructor.
Qed.

Lemma trim_shorter s :
  ends_with_space s = true -> (length (trim s) < length s)%nat.
Proof.
  intros H. destruct (trimStart_split s) as (k & E & Hk). unfold trim.
  destruct (trimStart s) as [|c r] eqn:Er.
  - unfold ends_with_space in H. destruct s; [done|]. simpl. lia.
  - assert (Hend : ends_with_space (c :: r) = true).
    { unfold ends_with_space in *. rewrite E in H.
      rewrite last_app in H. destruct (last (c :: r)) eqn:El; [done|].
      by apply last_None in El. }
    apply trimEnd_shorter in Hend. pose proof (length_trimStart s).
    rewrite Er in *. lia.
Qed.

Lemma trim_id s :
  (forall c, head s = Some c -> is_space c = false) ->
  ends_with_space s = false -> trim s = s.
Proof.
  intros H1 H2. unfold trim. rewrite (trimStart_id s H1). by apply trimEnd_id.
Qed.

Lemma sanitizeText_id s :
  (length s <= 120)%nat -> single_spaced true s = true ->
  ends_with_space s = false -> sanitizeText s = s.
Proof.
  intros Hl Hs He. unfold sanitizeText.
  assert (Hh : forall c, head s = Some c -> is_space c = false).
  { intros c. by apply single_spaced_head. }
  rewrite (trim_id s Hh He), (replace_spaces_start s Hh), (single_spaced_fixed _ _ Hs).
  by apply take_ge.
Qed.

(** X3: the texts that [sanitizeText] leaves as they are, are those of
    at most 120 code units that neither start nor end with whitespace and
    hold no whitespace but single plain spaces. *)
Theorem sanitizeText_fixed_points text :
  sanitizeText text = text
  <-> (length text <= 120)%nat
      /\ single_spaced true text = true
      /\ ends_with_space text = false.
Proof.
  split.
  - intros E. pose proof (length_sanitizeText text) as H1.
    pose proof (single_spaced_sanitizeText text) as H2. rewrite E in H1, H2.
    repeat split; try done.
    destruct (ends_with_space text) eqn:He; [|done]. exfalso.
    apply trim_shorter in He.
    assert (length (sanitizeText text) <= length (trim text))%nat.
    { unfold sanitizeText. rewrite length_take.
      pose proof (length_replace_spaces false (trim text)). lia. }
    rewrite E in *. lia.
  - intros (H1 & H2 & H3). by apply sanitizeText_id.
Qed.

Lemma single_spaced_trimEnd s :
  single_spaced true s = true -> single_spaced true (trimEnd s) = true.
Proof.
  intros H. destruct (trimEnd_split s) as (k & E & _).
  rewrite <- (take_app_length (trimEnd s) k), <- E. by apply single_spaced_take.
Qed.

Lemma ends_with_space_trimEnd s : ends_with_space (trimEnd s) = false.
Proof.
  unfold ends_with_space. destruct (last (trimEnd s)) as [c|] eqn:E; [|done].
  by apply trimEnd_last in E.
Qed.

(** X4: a second pass of [sanitizeText] strips the whitespace that the
    cut may have left at the end, and nothing else; from then on the text
    does not change any more. *)
Theorem sanitizeText_twice text :
  sanitizeText (sanitizeText text) = trimEnd (sanitizeText text)
  /\ sanitizeText (sanitizeText (sanitizeText text)) = sanitizeText (sanitizeText text).
Proof.
  pose proof (length_sanitizeText text) as Hl.
  pose proof (single_spaced_sanitizeText text) as Hs.
  set (r := sanitizeText text) in *.
  assert (Hh : forall c, head r = Some c -> is_space c = false).
  { intros c. by apply single_spaced_head. }
  assert (Hfix : sanitizeText (trimEnd r) = trimEnd r).
  { apply sanitizeText_id.
    - pose proof (length_trimEnd r). lia.
    - by apply single_spaced_trimEnd.
    - apply ends_with_space_trimEnd. }
  assert (E : sanitizeText r = trimEnd r).
  { rewrite <- Hfix. unfold sanitizeText. do 2 f_equal.
    unfold trim. rewrite (trimStart_id r Hh).
    rewrite (trimStart_id (trimEnd r)).
    - symmetry. apply trimEnd_id, ends_with_space_trimEnd.
    - intros c Hc. apply Hh. by apply trimEnd_head. }
  split; [exact E|]. by rewrite E.
Qed.

(** X5: whitespace before and after a text makes no difference to
    [sanitizeText]. *)
Theorem sanitizeText_outer_spaces before text after :
  Forall (fun c => is_space c = true) before ->
  Forall (fun c => is_space c = true) after ->
  sanitizeText (before ++ text ++ after) = sanitizeText text.
Proof.
  intros Hb Ha. unfold sanitizeText. do 2 f_equal.
  rewrite app_assoc, (trim_spaces_r _ after Ha).
  unfold trim. by rewrite trimStart_spaces.
Qed.

(** ** MockRoomAPI *)

Lemma find_id_None (players : list RoomPlayer) id :
  List.find (fun p => bool_decide (rp_id p = id)) players = None
  <-> id ∉ List.map rp_id players.
Proof.
  induction players as [|p ps IH]; simpl.
  - split; [intros _; apply not_elem_of_nil|done].
  - rewrite not_elem_of_cons. case_bool_decide as E.
    + split; [done|]. intros [? _]. congruence.
    + rewrite IH. split; [intros ?; split; [congruence|done]|by intros [_ ?]].
Qed.

Lemma find_name_None (players : list RoomPlayer) name :
  List.find (fun p => bool_decide (rp_name p = name)) players = None
  <-> name ∉ List.map rp_name players.
Proof.
  induction players as [|p ps IH]; simpl.
  - split; [intros _; apply not_elem_of_nil|done].
  - rewrite not_elem_of_cons. case_bool_decide as E.
    + split; [done|]. intros [? _]. congruence.
    + rewrite IH. split; [intros ?; split; [congruence|done]|by intros [_ ?]].
Qed.

Lemma find_Some_elem {A} (f : A -> bool) l x :
  List.find f l = Some x -> x ∈ l /\ f x = true.
Proof.
  intros H. apply find_some in H as [H1 H2]. split; [by apply list_elem_of_In|done].
Qed.

Lemma joinRoom_cases rooms roomId password playerId playerName :
  (MockRoomAPI.joinRoom rooms roomId password playerId playerName).1 = rooms
  \/ exists room,
       JsMap.get rooms roomId = Some room
       /\ room_password room = password
       /\ (playerId ∉ List.map rp_id (room_players room))
       /\ (playerName ∉ List.map rp_name (room_players room))
       /\ Z.of_nat (length (room_players room)) < room_maxPlayers room
       /\ (MockRoomAPI.joinRoom rooms roomId password playerId playerName).1
          = JsMap.set rooms roomId
              (with_players room
                 (room_players room
                  ++ [newPlayer playerId playerName false
                        (MockRoomAPI.leastGroup (room_players room))])).
Proof.
  unfold MockRoomAPI.joinRoom.
  destruct (JsMap.get rooms roomId) as [room|] eqn:Hr; [|by left].
  destruct (decide (room_password room <> password)) as [|Hpw]; [by left|].
  destruct (List.find _ _) eqn:Hid; [by left|].
  destruct (List.find _ (room_players room)) eqn:Hname in |- *; [by left|].
  destruct (decide _) as [|Hfull]; [by left|]. simpl.
  right. exists room. repeat split; try done.
  - by destruct (decide (room_password room = password)).
  - by apply find_id_None.
  - by apply find_name_None.
  - lia.
Qed.

(** X6: [joinRoom] leaves every room as it is, but for one case: to the
    room asked for it adds, at the end, one player with the id and the name
    given and two empty wishes, when no player of the room has that id or
    that name and the room holds fewer players than [maxPlayers]. *)
Theorem joinRoom_store rooms roomId password playerId playerName k :
  let rooms' := (MockRoomAPI.joinRoom rooms roomId password playerId playerName).1 in
  MockRoomAPI.getRoom rooms' k = MockRoomAPI.getRoom rooms k
  \/ (k = roomId
      /\ exists room p,
           MockRoomAPI.getRoom rooms k = Some room
           /\ MockRoomAPI.getRoom rooms' k
              = Some (with_players room (room_players room ++ [p]))
           /\ rp_id p = playerId /\ rp_name p = playerName
           /\ rp_wishes p = [[]; []]
           /\ room_password room = password
           /\ (playerId ∉ List.map rp_id (room_players room))
           /\ (playerName ∉ List.map rp_name (room_players room))
           /\ Z.of_nat (length (room_players room)) < room_maxPlayers room).
Proof.
  simpl. unfold MockRoomAPI.getRoom.
  destruct (joinRoom_cases rooms roomId password playerId playerName)
    as [->|(room & Hr & Hpw & Hid & Hname & Hfull & ->)]; [by left|].
  rewrite JsMap_get_set. destruct (decide (roomId = k)) as [<-|]; [|by left].
  right. split; [done|]. eexists room, _. split; [done|]. split; [done|].
  simpl. repeat split; done.
Qed.

(** X7: [joinRoom] refuses exactly when there is no room of that id with
    that password.  When it does not refuse, it returns the room as the
    map holds it after the call, and either admits the caller as a viewer,
    with no player id, when the room is full and knows neither the id nor
    the name, or resolves to the id of a player of that room who has the
    id or the name asked for. *)
Theorem joinRoom_result rooms roomId password playerId playerName :
  let r := MockRoomAPI.joinRoom rooms roomId password playerId playerName in
  (MockRoomAPI.success r.2 = false
   <-> forall room, MockRoomAPI.getRoom rooms roomId = Some room ->
         room_password room <> password)
  /\ (MockRoomAPI.success r.2 = false ->
      r.1 = rooms /\ MockRoomAPI.join_room r.2 = None
      /\ MockRoomAPI.resolvedPlayerId r.2 = None)
  /\ (MockRoomAPI.success r.2 = true ->
      exists room',
        MockRoomAPI.join_room r.2 = Some room'
        /\ MockRoomAPI.getRoom r.1 roomId = Some room'
        /\ ((MockRoomAPI.asViewer r.2 = Some true
             /\ MockRoomAPI.resolvedPlayerId r.2 = None
             /\ r.1 = rooms
             /\ room_maxPlayers room' <= Z.of_nat (length (room_players room'))
             /\ (playerId ∉ List.map rp_id (room_players room'))
             /\ (playerName ∉ List.map rp_name (room_players room')))
            \/ (MockRoomAPI.asViewer r.2 = Some false
                /\ exists p, p ∈ room_players room'
                     /\ MockRoomAPI.resolvedPlayerId r.2 = Some (rp_id p)
                     /\ (rp_id p = playerId \/ rp_name p = playerName)))).
Proof.
  unfold MockRoomAPI.joinRoom, MockRoomAPI.getRoom. simpl.
  destruct (JsMap.get rooms roomId) as [room|] eqn:Hr.
  2:{ simpl. repeat split; try done. }
  destruct (decide (room_password room <> password)) as [Hpw|Hpw].
  { simpl. repeat split; try done. by intros _ ? [= <-]. }
  assert (Hno : ~ forall room0, Some room = Some room0 -> room_password room0 <> password).
  { intros H. by apply Hpw, H. }
  destruct (List.find _ _) as [p|] eqn:Hid.
  { simpl. split; [|split]; [done..|]. intros _. exists room. repeat split; try done.
    right. split; [done|]. apply find_Some_elem in Hid as [Hin Hp].
    apply bool_decide_eq_true in Hp. exists p. eauto. }
  destruct (List.find _ (room_players room)) as [p|] eqn:Hname in |- *.
  { simpl. split; [|split]; [done..|]. intros _. exists room. repeat split; try done.
    right. split; [done|]. apply find_Some_elem in Hname as [Hin Hp].
    apply bool_decide_eq_true in Hp. exists p. eauto. }
  apply find_id_None in Hid. apply find_name_None in Hname.
  destruct (decide _) as [Hfull|Hfull]; simpl.
  { split; [|split]; [done..|]. intros _. exists room. repeat split; try done.
    left. done. }
  split; [|split]; [done..|]. intros _. eexists. split; [done|].
  rewrite JsMap_get_set, decide_True by done. split; [done|].
  right. split; [done|].
  exists (newPlayer playerId playerName false (MockRoomAPI.leastGroup (room_players room))).
  split; [|split; [done|by left]].
  simpl. apply elem_of_app. right. by apply list_elem_of_singleton.
Qed.

Lemma find_app_None {A} (f : A -> bool) l x :
  List.find f l = None -> List.find f (l ++ [x]) = if f x then Some x else None.
Proof.
  induction l as [|y l IH]; simpl; [done|]. destruct (f y); [done|]. exact IH.
Qed.

(** X8: joining again with the same arguments changes nothing and gives
    the same answer: a player who has been admitted is found again by id,
    a viewer stays a viewer, a refusal stays a refusal. *)
Theorem joinRoom_again rooms roomId password playerId playerName :
  let r := MockRoomAPI.joinRoom rooms roomId password playerId playerName in
  MockRoomAPI.joinRoom r.1 roomId password playerId playerName = r.
Proof.
  simpl. destruct (MockRoomAPI.joinRoom rooms roomId password playerId playerName)
    as [rooms' res] eqn:E.
  simpl. unfold MockRoomAPI.joinRoom in E |- *.
  destruct (JsMap.get rooms roomId) as [room|] eqn:Hr.
  2:{ simplify_eq. by rewrite Hr. }
  destruct (decide (room_password room <> password)) as [Hpw|Hpw].
  { simplify_eq. rewrite Hr. by rewrite decide_True. }
  destruct (List.find _ _) as [p|] eqn:Hid.
  { simplify_eq. rewrite Hr, decide_False by done. by rewrite Hid. }
  destruct (List.find _ (room_players room)) as [p|] eqn:Hname in E.
  { simplify_eq. rewrite Hr, decide_False by done. by rewrite Hid, Hname. }
  destruct (decide _) as [Hfull|Hfull].
  { simplify_eq. rewrite Hr, decide_False by done.
    rewrite Hid, Hname. by rewrite decide_True. }
  simplify_eq. rewrite JsMap_get_set, decide_True by done.
  simpl. rewrite decide_False by done.
  rewrite (find_app_None _ _ _ Hid). simpl. by rewrite bool_decide_true.
Qed.

Lemma fold_min_spec l : forall x,
  (fold_left Nat.min l x ∈ x :: l)
  /\ forall y, y ∈ x :: l -> (fold_left Nat.min l x <= y)%nat.
Proof.
  induction l as [|z l IH]; intros x; simpl.
  - split; [left|]. intros y Hy. apply list_elem_of_singleton in Hy. lia.
  - destruct (IH (Nat.min x z)) as [H1 H2]. split.
    + apply elem_of_cons in H1 as [H1|H1]; [|by do 2 right].
      rewrite H1. destruct (Nat.min_spec x z) as [[_ ->]|[_ ->]]; [left|right; left].
    + intros y Hy. apply elem_of_cons in Hy as [->|Hy].
      * pose proof (H2 (Nat.min x z) ltac:(left)). lia.
      * apply elem_of_cons in Hy as [->|Hy].
        -- pose proof (H2 (Nat.min x z) ltac:(left)). lia.
        -- apply H2. by right.
Qed.

Lemma indexOf_spec l m :
  m ∈ l ->
  exists i, MockRoomAPI.indexOf l m = Some i /\ l !! i = Some m
            /\ forall j y, (j < i)%nat -> l !! j = Some y -> y <> m.
Proof.
  induction l as [|y l IH]; intros Hm; [by apply elem_of_nil in Hm|]. simpl.
  destruct (decide (y = m)) as [->|Hne].
  - exists 0%nat. repeat split; try done. intros; lia.
  - apply elem_of_cons in Hm as [->|Hm]; [done|].
    destruct (IH Hm) as (i & Hi & Hl & Hlt). exists (S i). rewrite Hi.
    repeat split; try done. intros [|j] z Hj; simpl.
    + by intros [= <-].
    + apply Hlt. lia.
Qed.

(** The group that [joinRoom] picks: one of the four, with the fewest
    players, and the first such. *)
Lemma leastGroup_spec players :
  exists i g,
    MockRoomAPI.leastGroup players = Some g
    /\ MockRoomAPI.groups !! i = Some g
    /\ forall j g', MockRoomAPI.groups !! j = Some g' ->
         let n := fun x => length (filter (fun q => rp_group q = Some x) players) in
         (n g <= n g')%nat /\ ((j < i)%nat -> (n g < n g')%nat).
Proof.
  unfold MockRoomAPI.leastGroup.
  set (f := fun x => length (filter (fun q => rp_group q = Some x) players)).
  assert (Ec : MockRoomAPI.counts players = List.map f MockRoomAPI.groups) by done.
  rewrite Ec.
  destruct (fold_min_spec (List.map f (tail MockRoomAPI.groups)) (f (lit "A")))
    as [Hin Hle].
  set (m := fold_left Nat.min (List.map f (tail MockRoomAPI.groups)) (f (lit "A"))) in *.
  change (f (lit "A") :: List.map f (tail MockRoomAPI.groups))
    with (List.map f MockRoomAPI.groups) in Hin, Hle.
  change (MockRoomAPI.Math_min (List.map f MockRoomAPI.groups)) with (Some m).
  destruct (indexOf_spec _ _ Hin) as (i & Hi & Hl & Hlt).
  cbv [mbind option_bind]. rewrite Hi.
  rewrite list_lookup_fmap in Hl.
  destruct (MockRoomAPI.groups !! i) as [g|] eqn:Hg; [|done]. simpl in Hl.
  exists i, g. split; [done|]. split; [done|]. intros j g' Hj. simpl.
  fold (f g) (f g'). injection Hl as Hl. rewrite Hl.
  assert (Hj' : List.map f MockRoomAPI.groups !! j = Some (f g')).
  { by rewrite list_lookup_fmap, Hj. }
  split.
  - apply Hle. by eapply list_elem_of_lookup_2.
  - intros Hlt'. specialize (Hlt j (f g') Hlt' Hj').
    assert (m <= f g')%nat by (apply Hle; by eapply list_elem_of_lookup_2). lia.
Qed.

(** X9: the player that [joinRoom] adds is put in one of the groups A, B,
    C and D, one that has the fewest players of the room, and the first
    such in that order. *)
Theorem joinRoom_least_group rooms roomId password playerId playerName room p :
  MockRoomAPI.getRoom rooms roomId = Some room ->
  MockRoomAPI.getRoom
    (MockRoomAPI.joinRoom rooms roomId password playerId playerName).1 roomId
  = Some (with_players room (room_players room ++ [p])) ->
  exists i g,
    rp_group p = Some g
    /\ MockRoomAPI.groups !! i = Some g
    /\ forall j g', MockRoomAPI.groups !! j = Some g' ->
         let n := fun x =>
           length (filter (fun q => rp_group q = Some x) (room_players room)) in
         (n g <= n g')%nat /\ ((j < i)%nat -> (n g < n g')%nat).
Proof.
  unfold MockRoomAPI.getRoom. intros Hr Hafter.
  destruct (joinRoom_cases rooms roomId password playerId playerName)
    as [E|(room0 & Hr0 & _ & _ & _ & _ & E)]; rewrite E in Hafter.
  - rewrite Hr in Hafter. injection Hafter as Hafter.
    apply (f_equal (fun r => length (room_players r))) in Hafter. simpl in Hafter.
    rewrite length_app in Hafter. simpl in Hafter. lia.
  - rewrite Hr in Hr0. injection Hr0 as <-.
    rewrite JsMap_get_set, decide_True in Hafter by done. injection Hafter as Hafter.
    apply app_inj_1 in Hafter as [_ [= <-]]; [|done].
    destruct (leastGroup_spec (room_players room)) as (i & g & H1 & H2 & H3).
    exists i, g. done.
Qed.

Lemma groups_lookup_inj i j g :
  MockRoomAPI.groups !! i = Some g -> MockRoomAPI.groups !! j = Some g -> i = j.
Proof.
  intros Hi Hj. eapply NoDup_lookup; [|exact Hi|exact Hj].
  apply (bool_decide_unpack _). vm_compute. reflexivity.
Qed.

(** When the players stand in the groups A, B, C, D in turn, the number of
    players of a group is known from the number of players. *)
Lemma dealt_count players :
  (forall i p, players !! i = Some p -> rp_group p = MockRoomAPI.groups !! (i mod 4)%nat) ->
  forall j g, MockRoomAPI.groups !! j = Some g ->
    length (filter (fun q => rp_group q = Some g) players)
    = ((length players + 3 - j) / 4)%nat.
Proof.
  induction players as [|p ps IH] using rev_ind; intros Hd j g Hj.
  - pose proof (lookup_lt_Some _ _ _ Hj) as Hlt. simpl in Hlt.
    rewrite filter_nil. cbn [length]. symmetry. apply Nat.div_small. lia.
  - rewrite filter_app, !length_app. cbn [length].
    rewrite (IH ltac:(intros i q Hq; apply Hd; by apply lookup_app_l_Some) j g Hj).
    pose proof (Hd (length ps) p ltac:(by apply list_lookup_middle)) as Hp.
    pose proof (lookup_lt_Some _ _ _ Hj) as Hlt. simpl in Hlt.
    assert (Hr : (length ps mod 4 < 4)%nat) by (apply Nat.mod_upper_bound; lia).
    destruct (decide (length ps mod 4 = j)%nat) as [E|E].
    + rewrite filter_cons_True by (by rewrite Hp, E). rewrite filter_nil. cbn [length].
      clear -E Hlt. zify. Z.div_mod_to_equations. lia.
    + rewrite filter_cons_False.
      2:{ rewrite Hp. intros Hc. apply E. by eapply groups_lookup_inj. }
      rewrite filter_nil. cbn [length]. clear -E Hlt Hr.
      zify. Z.div_mod_to_equations. lia.
Qed.

Lemma dealt_leastGroup players :
  (forall i p, players !! i = Some p -> rp_group p = MockRoomAPI.groups !! (i mod 4)%nat) ->
  MockRoomAPI.leastGroup players = MockRoomAPI.groups !! (length players mod 4)%nat.
Proof.
  intros Hd. destruct (leastGroup_spec players) as (i & g & -> & Hg & Hmin).
  rewrite <- Hg. f_equal. symmetry.
  pose proof (lookup_lt_Some _ _ _ Hg) as Hi. simpl in Hi.
  set (r := (length players mod 4)%nat).
  assert (Hr : (r < 4)%nat) by (apply Nat.mod_upper_bound; lia).
  destruct (lookup_lt_is_Some_2 MockRoomAPI.groups r Hr) as [gr Hgr].
  destruct (Hmin r gr Hgr) as [H1 H2]. simpl in H1, H2.
  rewrite (dealt_count players Hd i g Hg), (dealt_count players Hd r gr Hgr) in H1, H2.
  destruct (decide (r = i)) as [|Hne]; [done|]. exfalso.
  subst r. clear -H1 H2 Hi Hr Hne.
  destruct (decide (length players mod 4 < i)%nat) as [Hlt|Hge].
  - specialize (H2 Hlt). zify. Z.div_mod_to_equations. lia.
  - zify. Z.div_mod_to_equations. lia.
Qed.

(** X10: as long as the players of a room stand in the groups A, B, C, D
    in turn (the first in A, the second in B, the fifth in A again),
    [joinRoom] keeps it so: the player it adds gets the next group. *)
Theorem joinRoom_deals_in_turn rooms roomId password playerId playerName room room' :
  MockRoomAPI.getRoom rooms roomId = Some room ->
  MockRoomAPI.getRoom
    (MockRoomAPI.joinRoom rooms roomId password playerId playerName).1 roomId
  = Some room' ->
  (forall i p, room_players room !! i = Some p ->
     rp_group p = MockRoomAPI.groups !! (i mod 4)%nat) ->
  forall i p, room_players room' !! i = Some p ->
    rp_group p = MockRoomAPI.groups !! (i mod 4)%nat.
Proof.
  unfold MockRoomAPI.getRoom. intros Hr Hafter Hd.
  destruct (joinRoom_cases rooms roomId password playerId playerName)
    as [E|(room0 & Hr0 & _ & _ & _ & _ & E)]; rewrite E in Hafter.
  - rewrite Hr in Hafter. by injection Hafter as <-.
  - rewrite Hr in Hr0. injection Hr0 as <-.
    rewrite JsMap_get_set, decide_True in Hafter by done. injection Hafter as <-.
    cbn [room_players with_players]. intros i p Hp.
    apply lookup_app_Some in Hp as [Hp|[Hle Hp]]; [by apply Hd|].
    apply list_lookup_singleton_Some in Hp as [Hi <-]. cbn [rp_group newPlayer].
    rewrite (dealt_leastGroup _ Hd).
    by replace i with (length (room_players room)) by lia.
Qed.

Lemma JsMap_set_keys_known {V} (m : JsMap.t V) k v :
  is_Some (JsMap.get m k) -> (JsMap.set m k v).*1 = m.*1.
Proof.
  induction m as [|[k0 v0] m IH]; simpl; [by intros [? ?]|].
  destruct (decide (k0 = k)) as [->|Hne]; csimpl; [done|].
  intros H. f_equal. by apply IH.
Qed.

(** X11: [updateRoom] puts the updated room in the place of the room and
    returns it; it touches no other room, and adds none: for an id that
    the map does not hold it returns [null] and leaves the map as it
    is. *)
Theorem updateRoom_getRoom rooms roomId updater k :
  let r := MockRoomAPI.updateRoom rooms roomId updater in
  r.2 = updater <$> MockRoomAPI.getRoom rooms roomId
  /\ MockRoomAPI.getRoom r.1 k
     = (if decide (roomId = k) then updater <$> MockRoomAPI.getRoom rooms k
        else MockRoomAPI.getRoom rooms k)
  /\ (r.1).*1 = rooms.*1
  /\ (MockRoomAPI.getRoom rooms roomId = None -> r.1 = rooms).
Proof.
  unfold MockRoomAPI.updateRoom, MockRoomAPI.getRoom. simpl.
  destruct (JsMap.get rooms roomId) as [room|] eqn:Hr; simpl.
  - split; [done|]. split; [|split; [|done]].
    + rewrite JsMap_get_set. destruct (decide (roomId = k)) as [<-|]; [|done].
      by rewrite Hr.
    + apply JsMap_set_keys_known. by rewrite Hr.
  - repeat split; try done. destruct (decide (roomId = k)) as [<-|]; [|done].
    by rewrite Hr.
Qed.

(** X12: [createRoom] stores the room under the id it was given, in the
    place of a room that had this id, and touches no other room.  The room
    holds one player whatever [maxPlayers] is; who then joins with the
    password and another id and name is the second player, in group B, when
    [maxPlayers] is at least 2, and a viewer otherwise. *)
Theorem createRoom_then_joinRoom rooms newId newSeed now password maxPlayers
    ownerId ownerName playerId playerName :
  let c := MockRoomAPI.createRoom rooms newId newSeed now password maxPlayers
             ownerId ownerName in
  let owner := newPlayer ownerId
                 (if truthy ownerName then ownerName else MockRoomAPI.ownerDefault)
                 true (Some (lit "A")) in
  let j := MockRoomAPI.joinRoom c.1 newId password playerId playerName in
  MockRoomAPI.getRoom c.1 newId = Some c.2
  /\ (forall k, k <> newId -> MockRoomAPI.getRoom c.1 k = MockRoomAPI.getRoom rooms k)
  /\ room_players c.2 = [owner]
  /\ (playerId <> ownerId -> playerName <> rp_name owner ->
      if decide (2 <= maxPlayers)
      then MockRoomAPI.asViewer j.2 = Some false
           /\ MockRoomAPI.resolvedPlayerId j.2 = Some playerId
           /\ (room_players <$> MockRoomAPI.getRoom j.1 newId)
              = Some [owner; newPlayer playerId playerName false (Some (lit "B"))]
      else MockRoomAPI.asViewer j.2 = Some true /\ j.1 = c.1).
Proof.
  simpl. unfold MockRoomAPI.getRoom.
  split; [by rewrite JsMap_get_set, decide_True|].
  split; [by intros k Hk; rewrite JsMap_get_set, decide_False|].
  split; [done|]. intros Hid Hname.
  assert (E : forall room, JsMap.get (JsMap.set rooms newId room) newId = Some room).
  { intros room. by rewrite JsMap_get_set, decide_True. }
  destruct (decide (2 <= maxPlayers)) as [Hm|Hm];
    unfold MockRoomAPI.joinRoom; rewrite E; simpl;
    (destruct (decide (password <> password)) as [Hpw|_]; [done|]);
    rewrite !bool_decide_false by done.
  - rewrite decide_False by lia. simpl. split; [done|]. split; [done|].
    by rewrite JsMap_get_set, decide_True.
  - rewrite decide_True by lia. done.
Qed.

(** ** The rooms that the program can hold *)

Lemma updateAndShow_roomAPI roomId u app :
  roomAPI (updateAndShow roomId u app) = (MockRoomAPI.updateRoom (roomAPI app) roomId u).1.
Proof.
  unfold updateAndShow, updateGameState, with_roomAPI.
  destruct ((MockRoomAPI.updateRoom (roomAPI app) roomId u).2); simpl; [|done].
  by destruct (mountedRef app).
Qed.

Lemma setErrorSafe_roomAPI msg app : roomAPI (setErrorSafe msg app) = roomAPI app.
Proof. unfold setErrorSafe. by destruct (mountedRef app). Qed.

(** A handler leaves the map of rooms as it is, or calls [updateRoom] once,
    with one of the updaters. *)
Lemma handles_store app app' :
  handles app app' ->
  roomAPI app' = roomAPI app
  \/ exists roomId u, updater u
       /\ roomAPI app' = (MockRoomAPI.updateRoom (roomAPI app) roomId u).1.
Proof.
  destruct 1.
  - unfold updatePlayerWish. destruct (currentRoom _) as [cur|]; [|by left].
    destruct (notOwnWishes _ _); [by left|]. right.
    eexists _, _. split; [|apply updateAndShow_roomAPI]. constructor.
  - unfold addWishToPlayer. destruct (currentRoom _) as [cur|]; [|by left].
    destruct (notOwnWishes _ _); [by left|]. right.
    eexists _, _. split; [|apply updateAndShow_roomAPI]. constructor.
  - unfold removeWishFromPlayer. destruct (currentRoom _) as [cur|]; [|by left].
    destruct (notOwnWishes _ _); [by left|]. right.
    eexists _, _. split; [|apply updateAndShow_roomAPI]. constructor.
  - right. eexists _, _. split; [|apply updateAndShow_roomAPI]. constructor.
  - right. eexists _, _. split; [|apply updateAndShow_roomAPI]. constructor.
  - unfold startGame. destruct (currentRoom _) as [cur|]; [|by left].
    destruct (startGame_refusal _); [left; apply setErrorSafe_roomAPI|]. right.
    eexists _, _. split; [|apply updateAndShow_roomAPI]. constructor.
  - unfold confirmAndMatch. destruct (currentRoom _) as [cur|]; [|by left]. right.
    eexists _, _. split; [|apply updateAndShow_roomAPI]. constructor.
  - unfold reveal. destruct (mountedRef app) eqn:Hm; [|by left]. simpl.
    destruct (currentRoom _) as [cur|]; [|by left].
    destruct (matchWishes _ _ _); [|left; apply setErrorSafe_roomAPI|by left]. right.
    eexists _, _. split; [|apply updateAndShow_roomAPI]. constructor.
Qed.

Section StoreInvariant.
Variable P : jsstring -> Room -> Prop.
Hypothesis P_create :
  forall rooms newId newSeed now password maxPlayers ownerId ownerName,
    P newId (MockRoomAPI.createRoom rooms newId newSeed now password maxPlayers
               ownerId ownerName).2.
Hypothesis P_join :
  forall k room playerId playerName,
    P k room ->
    playerId ∉ List.map rp_id (room_players room) ->
    playerName ∉ List.map rp_name (room_players room) ->
    Z.of_nat (length (room_players room)) < room_maxPlayers room ->
    P k (with_players room
           (room_players room
            ++ [newPlayer playerId playerName false
                  (MockRoomAPI.leastGroup (room_players room))])).
Hypothesis P_update : forall k room u, updater u -> P k room -> P k (u room).

(** What [createRoom] makes true of a room, and [joinRoom] and the updaters
    keep true, is true of all rooms that the program can hold. *)
Lemma reachable_invariant rooms :
  reachable rooms ->
  forall k room, MockRoomAPI.getRoom rooms k = Some room -> P k room.
Proof using P_create P_join P_update.
  unfold MockRoomAPI.getRoom.
  induction 1 as [|rooms newId newSeed now password maxPlayers ownerId ownerName _ IH
                  |rooms roomId password playerId playerName _ IH
                  |app app' _ IH Hh]; intros k room.
  - done.
  - simpl. rewrite JsMap_get_set. destruct (decide (newId = k)) as [<-|]; [|apply IH].
    intros [= <-].
    apply (P_create rooms newId newSeed now password maxPlayers ownerId ownerName).
  - destruct (joinRoom_cases rooms roomId password playerId playerName)
      as [->|(room0 & Hr & _ & Hid & Hname & Hfull & ->)]; [apply IH|].
    rewrite JsMap_get_set. destruct (decide (roomId = k)) as [<-|]; [|apply IH].
    intros [= <-]. apply P_join; try done. by apply IH.
  - destruct (handles_store _ _ Hh) as [->|(roomId & u & Hu & ->)]; [apply IH|].
    unfold MockRoomAPI.updateRoom.
    destruct (JsMap.get (roomAPI app) roomId) as [room0|] eqn:Hr; simpl; [|apply IH].
    rewrite JsMap_get_set. destruct (decide (roomId = k)) as [<-|]; [|apply IH].
    intros [= <-]. apply P_update; [done|]. by apply IH.
Qed.
End StoreInvariant.

(** What an updater does to the players of a room: it maps a function over
    them, that keeps the id, the name and the owner flag of a player, and
    keeps the wish slots in order; the id, the owner and the size of the
    room stay. *)
Lemma filter_index_Forall {A} (Q : A -> Prop) keep (l : list A) : forall k,
  Forall Q l -> Forall Q (filter_index keep k l).
Proof.
  induction l as [|x l IH]; intros k Hl; simpl; [done|].
  apply Forall_cons in Hl as [Hx Hl]. destruct (keep k); [constructor|]; auto.
Qed.

Lemma filter_index_length {A} j (l : list A) : forall k,
  (length l <= S (length (filter_index (fun i => bool_decide (i <> j)) k l)))%nat
  /\ (length (filter_index (fun i => bool_decide (i <> j)) k l) <= length l)%nat.
Proof.
  induction l as [|x l IH]; intros k; simpl; [lia|].
  case_bool_decide as E; simpl.
  - destruct (IH (S k)). lia.
  - assert (Hid : forall k', (j < k')%nat ->
              filter_index (fun i => bool_decide (i <> j)) k' l = l).
    { clear. induction l as [|y l IH]; intros k' Hk'; simpl; [done|].
      rewrite bool_decide_true by lia. f_equal. apply IH. lia. }
    rewrite Hid by lia. lia.
Qed.

Lemma updater_players u :
  updater u ->
  exists f,
    (forall p, rp_id (f p) = rp_id p /\ rp_name (f p) = rp_name p
               /\ rp_isOwner (f p) = rp_isOwner p
               /\ (slots_ok p -> slots_ok (f p)))
    /\ forall room,
         room_players (u room) = List.map f (room_players room)
         /\ room_id (u room) = room_id room
         /\ room_ownerId (u room) = room_ownerId room
         /\ room_maxPlayers (u room) = room_maxPlayers room.
Proof.
  destruct 1.
  - exists (setWish playerId wishIndex (sanitizeText text)). split; [|done].
    intros p. unfold setWish. destruct (decide _); [|done]. repeat split; try done.
    + simpl. rewrite length_imap. apply H.
    + simpl. rewrite length_imap. apply H.
    + simpl. destruct H as [_ H]. apply Forall_forall. intros w Hw.
      apply elem_of_lookup_imap_1 in Hw as (i & w0 & -> & Hi).
      destruct (decide _);
        [split; [apply length_sanitizeText|apply single_spaced_sanitizeText]|].
      rewrite Forall_forall in H. apply H. by eapply list_elem_of_lookup_2.
  - exists (addWish playerId). split; [|done].
    intros p. unfold addWish. destruct (decide _) as [[_ Hl]|]; [|done].
    repeat split; try done; simpl.
    + rewrite length_app. destruct H. lia.
    + rewrite length_app. simpl. lia.
    + apply Forall_app. split; [apply H|]. by repeat constructor.
  - exists (removeWish playerId wishIndex). split; [|done].
    intros p. unfold removeWish. destruct (decide _) as [[_ Hl]|]; [|done].
    repeat split; try done; simpl.
    + destruct (filter_index_length wishIndex (rp_wishes p) 0). lia.
    + destruct (filter_index_length wishIndex (rp_wishes p) 0). destruct H. lia.
    + apply filter_index_Forall, H.
  - exists (setGroup playerId newGroup). split; [|done].
    intros p. unfold setGroup. by destruct (decide _).
  - exists (toggleLock playerId). split; [|done].
    intros p. unfold toggleLock. by destruct (decide _).
  - exists (fun p => p). split; [done|]. intros room. simpl. by rewrite map_id.
  - exists (fun p => p). split; [done|]. intros room. simpl. by rewrite map_id.
  - exists (fun p => p). split; [done|]. intros room. simpl. by rewrite map_id.
Qed.

Lemma unique_players_create rooms newId newSeed now password maxPlayers ownerId ownerName :
  let room := (MockRoomAPI.createRoom rooms newId newSeed now password maxPlayers
                 ownerId ownerName).2 in
  NoDup (List.map rp_id (room_players room))
  /\ NoDup (List.map rp_name (room_players room)).
Proof. simpl. split; apply NoDup_singleton. Qed.

Lemma unique_players_join room playerId playerName :
  NoDup (List.map rp_id (room_players room))
  /\ NoDup (List.map rp_name (room_players room)) ->
  playerId ∉ List.map rp_id (room_players room) ->
  playerName ∉ List.map rp_name (room_players room) ->
  Z.of_nat (length (room_players room)) < room_maxPlayers room ->
  let room' := with_players room
                 (room_players room
                  ++ [newPlayer playerId playerName false
                        (MockRoomAPI.leastGroup (room_players room))]) in
  NoDup (List.map rp_id (room_players room'))
  /\ NoDup (List.map rp_name (room_players room')).
Proof.
  intros [H1 H2] Hid Hname _. simpl.
  rewrite !map_app. simpl. split; apply NoDup_app.
  - split; [done|]. split; [|apply NoDup_singleton].
    intros x Hx Hx'. apply list_elem_of_singleton in Hx'. by subst.
  - split; [done|]. split; [|apply NoDup_singleton].
    intros x Hx Hx'. apply list_elem_of_singleton in Hx'. by subst.
Qed.

Lemma unique_players_update room u :
  updater u ->
  NoDup (List.map rp_id (room_players room))
  /\ NoDup (List.map rp_name (room_players room)) ->
  NoDup (List.map rp_id (room_players (u room)))
  /\ NoDup (List.map rp_name (room_players (u room))).
Proof.
  intros Hu [H1 H2]. destruct (updater_players u Hu) as (f & Hf & Hroom).
  destruct (Hroom room) as (-> & _). rewrite !map_map.
  rewrite (map_ext (fun p => rp_id (f p)) rp_id) by (intros p; apply Hf).
  rewrite (map_ext (fun p => rp_name (f p)) rp_name) by (intros p; apply Hf).
  done.
Qed.

(** X13: in every room that the program can hold, no two players have the
    same id and no two the same name, whatever the ids and names that
    [createRoom] and [joinRoom] are called with. *)
Theorem reachable_unique_players rooms k room :
  reachable rooms ->
  MockRoomAPI.getRoom rooms k = Some room ->
  NoDup (List.map rp_id (room_players room))
  /\ NoDup (List.map rp_name (room_players room)).
Proof.
  intros Hreach. revert k room.
  apply (reachable_invariant
           (fun _ room => NoDup (List.map rp_id (room_players room))
                          /\ NoDup (List.map rp_name (room_players room)))); [| | |done].
  - intros. apply unique_players_create.
  - intros _ room playerId playerName. apply unique_players_join.
  - intros _ room u. apply unique_players_update.
Qed.

(** X14: in every room that the program can hold, every player has two,
    three or four wish slots, and every slot holds a text of at most 120
    code units that does not start with whitespace and has no whitespace
    but single plain spaces. *)
Theorem reachable_wish_slots rooms k room :
  reachable rooms ->
  MockRoomAPI.getRoom rooms k = Some room ->
  Forall slots_ok (room_players room).
Proof.
  intros Hreach. revert k room.
  apply (reachable_invariant (fun _ room => Forall slots_ok (room_players room)));
    [| | |done].
  - intros. simpl. repeat constructor; simpl; lia.
  - intros _ room playerId playerName H _ _ _. simpl.
    apply Forall_app. split; [done|]. repeat constructor; simpl; lia.
  - intros _ room u Hu H. destruct (updater_players u Hu) as (f & Hf & Hroom).
    destruct (Hroom room) as (-> & _). apply Forall_fmap.
    eapply Forall_impl; [exact H|]. intros p Hp. simpl. by apply Hf.
Qed.

(** X15: every room that the program can hold is stored under its own id;
    its first player is its owner, the only player with the owner flag;
    and it has no more players than [maxPlayers] says, the owner always
    being let in. *)
Theorem reachable_owner_and_size rooms k room :
  reachable rooms ->
  MockRoomAPI.getRoom rooms k = Some room ->
  room_id room = k
  /\ (exists owner others,
        room_players room = owner :: others
        /\ rp_id owner = room_ownerId room
        /\ rp_isOwner owner = Some true
        /\ Forall (fun p => rp_isOwner p = Some false) others)
  /\ Z.of_nat (length (room_players room)) <= Z.max 1 (room_maxPlayers room).
Proof.
  intros Hreach. revert k room.
  apply (reachable_invariant
           (fun k room =>
              room_id room = k
              /\ (exists owner others,
                    room_players room = owner :: others
                    /\ rp_id owner = room_ownerId room
                    /\ rp_isOwner owner = Some true
                    /\ Forall (fun p => rp_isOwner p = Some false) others)
              /\ Z.of_nat (length (room_players room))
                 <= Z.max 1 (room_maxPlayers room))); [| | |done].
  - intros. simpl. split; [done|]. split; [|lia].
    eexists _, []. repeat split; done.
  - intros k room playerId playerName (H1 & (o & rest & E & H2 & H3 & H4) & H5) _ _ Hfull.
    simpl. split; [done|]. split.
    + rewrite E. exists o, (rest ++ [newPlayer playerId playerName false
                                      (MockRoomAPI.leastGroup (o :: rest))]).
      repeat split; try done. apply Forall_app. split; [done|]. by repeat constructor.
    + rewrite length_app. simpl. lia.
  - intros k room u Hu (H1 & (o & rest & E & H2 & H3 & H4) & H5).
    destruct (updater_players u Hu) as (f & Hf & Hroom).
    destruct (Hroom room) as (Ep & -> & -> & ->). rewrite Ep.
    split; [done|]. split.
    + rewrite E. simpl. exists (f o), (List.map f rest).
      destruct (Hf o) as (-> & _ & -> & _). repeat split; try done.
      apply Forall_fmap. eapply Forall_impl; [exact H4|]. intros p Hp. simpl.
      by destruct (Hf p) as (_ & _ & -> & _).
    + by rewrite length_map.
Qed.

(** ** The wish handlers *)

Lemma notOwnWishes_false gs playerId :
  notOwnWishes gs playerId = false ->
  currentPlayerId gs = Some playerId /\ isViewer gs <> Some true.
Proof.
  unfold notOwnWishes. intros H. apply orb_false_iff in H as [H1 H2].
  apply bool_decide_eq_false in H1, H2. split; [|done].
  destruct (decide (currentPlayerId gs = Some playerId)); [done|].
  exfalso. apply H2. congruence.
Qed.

Lemma imap_insert {A} (x : A) j (l : list A) :
  imap (fun i w => if decide (i = j) then x else w) l = <[j:=x]> l.
Proof.
  revert j. induction l as [|y l IH]; intros j; [done|]. rewrite imap_cons.
  destruct j as [|j]; simpl.
  - f_equal. clear. induction l as [|z l IH] using rev_ind; [done|].
    rewrite imap_app. simpl. rewrite IH. done.
  - f_equal. rewrite <- IH. apply imap_ext. intros i z _. simpl.
    destruct (decide (i = j)), (decide (S i = S j)); congruence || lia.
Qed.

Lemma same_but_wishes_refl playerId allowed room :
  same_but_wishes playerId allowed room room.
Proof.
  split; [by destruct room|]. apply Forall_Forall2_diag.
  apply Forall_forall. intros; by left.
Qed.

(** What the three wish handlers do to a room: nothing, or they map over
    its players a function that changes the wishes of the players with the
    given id and nothing else. *)
Lemma own_wishes_step f playerId roomId app k :
  (forall p, f p = p \/ (rp_id p = playerId /\ f p = with_wishes p (rp_wishes (f p)))) ->
  option_Forall2 (same_but_wishes playerId (roomId = k))
    (MockRoomAPI.getRoom (roomAPI app) k)
    (MockRoomAPI.getRoom (roomAPI (updateAndShow roomId (mapPlayers f) app)) k).
Proof.
  intros Hf. rewrite updateAndShow_roomAPI.
  unfold MockRoomAPI.updateRoom, MockRoomAPI.getRoom.
  assert (Hsame : option_Forall2 (same_but_wishes playerId (roomId = k))
                    (JsMap.get (roomAPI app) k) (JsMap.get (roomAPI app) k)).
  { destruct (JsMap.get (roomAPI app) k); constructor. apply same_but_wishes_refl. }
  destruct (JsMap.get (roomAPI app) roomId) as [room0|] eqn:Hr; simpl; [|done].
  rewrite JsMap_get_set. destruct (decide (roomId = k)) as [<-|]; [|done].
  rewrite Hr. constructor. split; [done|]. simpl.
  apply Forall2_fmap_r, Forall_Forall2_diag, Forall_forall. intros p _.
  destruct (Hf p) as [E|[Hp E]]; [by left|by right].
Qed.

(** X16: the three wish handlers change nothing in the map of rooms but
    wishes, and only wishes of players with the id given, in the current
    room, when that id is the id of the current player, who is not a
    viewer; they add and remove no room and no player. *)
Theorem wish_handlers_own_only app app' playerId k :
  ((exists wishIndex text, app' = updatePlayerWish playerId wishIndex text app)
   \/ app' = addWishToPlayer playerId app
   \/ (exists wishIndex, app' = removeWishFromPlayer playerId wishIndex app)) ->
  option_Forall2
    (same_but_wishes playerId
       (currentPlayerId (gameState app) = Some playerId
        /\ isViewer (gameState app) <> Some true
        /\ exists cur, currentRoom (gameState app) = Some cur /\ room_id cur = k))
    (MockRoomAPI.getRoom (roomAPI app) k)
    (MockRoomAPI.getRoom (roomAPI app') k).
Proof.
  intros Hh.
  set (allowed := currentPlayerId (gameState app) = Some playerId
                  /\ isViewer (gameState app) <> Some true
                  /\ exists cur, currentRoom (gameState app) = Some cur /\ room_id cur = k).
  assert (Hsame : option_Forall2 (same_but_wishes playerId allowed)
                    (MockRoomAPI.getRoom (roomAPI app) k)
                    (MockRoomAPI.getRoom (roomAPI app) k)).
  { destruct (MockRoomAPI.getRoom (roomAPI app) k); constructor.
    apply same_but_wishes_refl. }
  assert (Hstep : forall f cur,
            currentRoom (gameState app) = Some cur ->
            notOwnWishes (gameState app) playerId = false ->
            (forall p, f p = p
                       \/ (rp_id p = playerId /\ f p = with_wishes p (rp_wishes (f p)))) ->
            app' = updateAndShow (room_id cur) (mapPlayers f) app ->
            option_Forall2 (same_but_wishes playerId allowed)
              (MockRoomAPI.getRoom (roomAPI app) k)
              (MockRoomAPI.getRoom (roomAPI app') k)).
  { intros f cur Hcur Hg Hf ->. apply notOwnWishes_false in Hg as [Hg1 Hg2].
    destruct (own_wishes_step f playerId (room_id cur) app k Hf)
      as [room room' [H1 H2]|]; constructor.
    split; [done|].
    eapply Forall2_impl; [exact H2|]. intros p p' [->|(Hk & Hp & Hp')]; [by left|].
    right. repeat split; try done. by exists cur. }
  destruct Hh as [(wishIndex & text & E)|[E|(wishIndex & E)]].
  - unfold updatePlayerWish in E.
    destruct (currentRoom (gameState app)) as [cur|] eqn:Hcur; [|by subst].
    destruct (notOwnWishes _ _) eqn:Hg; [by subst|].
    eapply (Hstep _ cur eq_refl eq_refl); [|exact E].
    intros p. unfold setWish. destruct (decide _); [by right|by left].
  - unfold addWishToPlayer in E.
    destruct (currentRoom (gameState app)) as [cur|] eqn:Hcur; [|by subst].
    destruct (notOwnWishes _ _) eqn:Hg; [by subst|].
    eapply (Hstep _ cur eq_refl eq_refl); [|exact E].
    intros p. unfold addWish. destruct (decide _) as [[? ?]|]; [by right|by left].
  - unfold removeWishFromPlayer in E.
    destruct (currentRoom (gameState app)) as [cur|] eqn:Hcur; [|by subst].
    destruct (notOwnWishes _ _) eqn:Hg; [by subst|].
    eapply (Hstep _ cur eq_refl eq_refl); [|exact E].
    intros p. unfold removeWish. destruct (decide _) as [[? ?]|]; [by right|by left].
Qed.

(** X17: when the current player, not a viewer, sets a wish of theirs in
    a room that the map holds, then the room that the map holds afterwards,
    which is also the room the component shows if it is mounted, has
    [sanitizeText text] in that slot of every player with that id, for a
    slot that exists (for another index it has the wishes as they were),
    and all other players as they were. *)
Theorem updatePlayerWish_stores app playerId wishIndex text cur room :
  currentRoom (gameState app) = Some cur ->
  currentPlayerId (gameState app) = Some playerId ->
  isViewer (gameState app) <> Some true ->
  MockRoomAPI.getRoom (roomAPI app) (room_id cur) = Some room ->
  let app' := updatePlayerWish playerId wishIndex text app in
  exists room',
    MockRoomAPI.getRoom (roomAPI app') (room_id cur) = Some room'
    /\ (mountedRef app = true ->
        currentRoom (gameState app') = Some room' /\ error_text app' = None)
    /\ Forall2 (fun p p' =>
         if decide (rp_id p = playerId)
         then p' = with_wishes p (<[wishIndex := sanitizeText text]> (rp_wishes p))
         else p' = p)
         (room_players room) (room_players room').
Proof.
  intros Hcur Hid Hv Hr. simpl. unfold updatePlayerWish. rewrite Hcur.
  assert (Hg : notOwnWishes (gameState app) playerId = false).
  { unfold notOwnWishes. rewrite bool_decide_false by done.
    rewrite bool_decide_false; [done|]. intros H. apply H. by rewrite Hid. }
  rewrite Hg. unfold MockRoomAPI.getRoom in *.
  set (u := mapPlayers (setWish playerId wishIndex (sanitizeText text))).
  exists (u room). split; [|split].
  - rewrite updateAndShow_roomAPI. unfold MockRoomAPI.updateRoom. rewrite Hr. simpl.
    by rewrite JsMap_get_set, decide_True.
  - intros Hm. unfold updateAndShow, MockRoomAPI.updateRoom. rewrite Hr. simpl.
    unfold updateGameState. simpl. by rewrite Hm.
  - simpl. apply Forall2_fmap_r, Forall_Forall2_diag, Forall_forall. intros p _.
    unfold compose, setWish. destruct (decide _); [|done]. by rewrite imap_insert.
Qed.

(** ** From the waiting room to the draw *)

Lemma elem_of_filledWishes p t :
  t ∈ filledWishes p <-> t ∈ rp_wishes p /\ trim t <> [].
Proof.
  unfold filledWishes. rewrite list_elem_of_filter. split.
  - intros [H1 H2]. split; [done|]. intros E. by rewrite E in H1.
  - intros [H1 H2]. split; [|done]. by destruct (trim t).
Qed.

Lemma elem_of_wishTexts players o t :
  (o, t) ∈ wishTexts players
  <-> exists p s, p ∈ players /\ s ∈ filledWishes p /\ o = rp_id p /\ t = trim s.
Proof.
  unfold wishTexts. rewrite list_elem_of_bind. split.
  - intros (p & Hin & Hp). apply list_elem_of_In, in_map_iff in Hin as (s & [= <- <-] & Hs).
    apply list_elem_of_In in Hs. by exists p, s.
  - intros (p & s & Hp & Hs & -> & ->). exists p. split; [|done].
    apply list_elem_of_In, in_map_iff. exists s. split; [done|].
    by apply list_elem_of_In.
Qed.

Lemma length_wishTexts players :
  length (wishTexts players)
  = sum_list (List.map (fun p => length (filledWishes p)) players).
Proof.
  unfold wishTexts. induction players as [|p ps IH]; [done|].
  csimpl. rewrite length_app, length_map. by f_equal.
Qed.

(** X18: the wishes that [confirmAndMatch] builds are, player after
    player and slot after slot, the slots that hold more than whitespace:
    each such slot gives one wish, owned by the player of the slot, with
    the trimmed text of the slot, which is not empty, and the id number
    [k] for the wish pushed as number [k]; other slots give none. *)
Theorem collectWishes_spec stamps players :
  let wishes := collectWishes stamps players in
  (forall w, w ∈ wishes ->
     exists p t, p ∈ players /\ t ∈ rp_wishes p
       /\ wish_ownerId w = rp_id p /\ wish_text w = trim t /\ wish_text w <> [])
  /\ (forall p t, p ∈ players -> t ∈ rp_wishes p -> trim t <> [] ->
        exists w, w ∈ wishes /\ wish_ownerId w = rp_id p /\ wish_text w = trim t)
  /\ length wishes = sum_list (List.map (fun p => length (filledWishes p)) players)
  /\ (forall k w, wishes !! k = Some w -> wish_id w = lit "wish-" ++ stamps k).
Proof.
  simpl. unfold collectWishes. repeat split.
  - intros w Hw. apply elem_of_lookup_imap_1 in Hw as (k & [o t] & -> & Hk).
    apply list_elem_of_lookup_2, elem_of_wishTexts in Hk as (p & s & Hp & Hs & -> & ->).
    apply elem_of_filledWishes in Hs as [Hs Hne]. by exists p, s.
  - intros p t Hp Ht Hne.
    assert (Hin : (rp_id p, trim t) ∈ wishTexts players).
    { apply elem_of_wishTexts. exists p, t. by rewrite elem_of_filledWishes. }
    apply list_elem_of_lookup_1 in Hin as [k Hk].
    eexists. split; [by eapply elem_of_lookup_imap_2|done].
  - rewrite length_imap. apply length_wishTexts.
  - intros k w. rewrite list_lookup_imap. destruct (wishTexts players !! k); [|done].
    by intros [= <-].
Qed.

Lemma or_A_or_A x : or_A (Some (or_A x)) = or_A x.
Proof. simpl. by rewrite or_A_truthy. Qed.

(** The group label that [matchWishes] works with, for the players of a
    room with different ids. *)
Lemma groupOf_room players p :
  NoDup (List.map rp_id players) -> p ∈ players ->
  or_A (JsMap.get (groupOf (List.map as_player players)) (rp_id p)) = or_A (rp_group p).
Proof.
  intros Hnd Hp. unfold groupOf. rewrite map_map. simpl.
  rewrite (JsMap_of_entries_unique _ (rp_id p) (or_A (rp_group p))).
  - apply or_A_or_A.
  - assert (E : (List.map (fun x => (rp_id x, or_A (rp_group x))) players).*1
                = List.map rp_id players).
    { clear. induction players as [|x l IH]; [done|]. cbn. by f_equal. }
    by rewrite E.
  - apply list_elem_of_In, in_map_iff. exists p. split; [done|].
    by apply list_elem_of_In.
Qed.

Lemma two_labels_other (l : list jsstring) x :
  (2 <= length (remove_dups l))%nat -> exists y, y ∈ l /\ y <> x.
Proof.
  intros Hl. pose proof (NoDup_remove_dups l) as Hnd.
  destruct (remove_dups l) as [|a [|b r]] eqn:E; simpl in Hl; try lia.
  assert (Ha : a ∈ l) by (apply elem_of_remove_dups; rewrite E; left).
  assert (Hb : b ∈ l) by (apply elem_of_remove_dups; rewrite E; right; left).
  apply NoDup_cons in Hnd as [Hab _]. rewrite not_elem_of_cons in Hab.
  destruct (decide (a = x)) as [->|]; [exists b|exists a]; split; try done.
  intros ->. by destruct Hab.
Qed.

Lemma startGame_accepts players :
  startGame_refusal players = None ->
  (2 <= length players)%nat
  /\ (2 <= length (groupLabels players))%nat
  /\ Forall (fun p => (2 <= length (filledWishes p))%nat /\ rp_locked p = Some true) players.
Proof.
  unfold startGame_refusal.
  destruct (length players <? 2)%nat eqn:E1; [done|].
  destruct (length (groupLabels players) <? 2)%nat eqn:E2; [done|].
  destruct (everyoneOk players) eqn:E3; [|done]. intros _.
  apply Nat.ltb_ge in E1, E2. repeat split; try done.
  unfold everyoneOk in E3. rewrite forallb_forall in E3.
  apply Forall_forall. intros p Hp. apply list_elem_of_In, E3 in Hp.
  apply andb_true_iff in Hp as [H1 H2]. apply Nat.leb_le in H1.
  by apply bool_decide_eq_true in H2.
Qed.

(** When [startGame] lets a room through, every player finds a wish of
    another group among the wishes that [confirmAndMatch] builds. *)
Lemma ready_room_candidates stamps players p :
  startGame_refusal players = None ->
  NoDup (List.map rp_id players) ->
  NoDup (List.map wish_id (collectWishes stamps players)) ->
  p ∈ players ->
  candidateList (List.map as_player players) (collectWishes stamps players) (rp_id p)
  <> [].
Proof.
  intros Hok Hnd Hw Hp Hnil.
  apply startGame_accepts in Hok as (_ & Hlab & Hall).
  destruct (two_labels_other _ (or_A (rp_group p)) Hlab) as (y & Hy & Hne).
  apply list_elem_of_In, in_map_iff in Hy as (q & <- & Hq). apply list_elem_of_In in Hq.
  rewrite Forall_forall in Hall. destruct (Hall q Hq) as [Hfill _].
  destruct (filledWishes q) as [|t ts] eqn:Et; [simpl in Hfill; lia|].
  assert (Ht : t ∈ filledWishes q) by (rewrite Et; left).
  assert (Hin : (rp_id q, trim t) ∈ wishTexts players).
  { apply elem_of_wishTexts. by exists q, t. }
  apply list_elem_of_lookup_1 in Hin as [k Hk].
  set (w := {| wish_id := lit "wish-" ++ stamps k; wish_ownerId := rp_id q;
               wish_text := trim t |}).
  assert (Hwin : w ∈ collectWishes stamps players).
  { unfold collectWishes.
    apply (elem_of_lookup_imap_2
             (fun k ot => {| wish_id := lit "wish-" ++ stamps k;
                             wish_ownerId := ot.1; wish_text := ot.2 |})
             _ (rp_id q, trim t) k Hk). }
  rewrite candidateList_nil_iff in Hnil.
  destruct (Hnil w Hwin) as (w' & Hget & Hcase).
  rewrite (wishById_unique _ w Hw Hwin) in Hget. injection Hget as <-.
  simpl in Hcase. rewrite !groupOf_room in Hcase by done.
  destruct Hcase as [Hid|Hgr]; [|done].
  assert (q = p); [|by subst].
  apply list_elem_of_lookup_1 in Hp as [i Hi], Hq as [j Hj].
  assert (i = j); [|congruence].
  eapply NoDup_lookup; [exact Hnd| |].
  - rewrite list_lookup_fmap, Hi. done.
  - rewrite list_lookup_fmap, Hj. simpl. by rewrite Hid.
Qed.

(** X19: when [startGame] lets a room through (two players or more, two
    group labels or more, everybody locked with two filled wishes or more),
    the players have different ids and the ids made for the wishes are
    different, then [matchWishes], run on the players and on the wishes
    that [confirmAndMatch] builds from them, does not fail for want of
    candidates: every player has a candidate, and the call returns pairs
    or ends in the error of exhaustion. *)
Theorem ready_room_not_structural stamps players seed :
  startGame_refusal players = None ->
  NoDup (List.map rp_id players) ->
  NoDup (List.map wish_id (collectWishes stamps players)) ->
  let wishes := collectWishes stamps players in
  Forall (fun p => candidateList (List.map as_player players) wishes (rp_id p) <> [])
    players
  /\ ((exists pairs,
         matchWishes (List.map as_player players) wishes seed = Return pairs)
      \/ matchWishes (List.map as_player players) wishes seed = Throw Exhausted).
Proof.
  intros Hok Hnd Hw. simpl.
  assert (Hall : Forall (fun p => candidateList (List.map as_player players)
                                   (collectWishes stamps players) (rp_id p) <> [])
                   players).
  { apply Forall_forall. intros p Hp. by apply ready_room_candidates. }
  split; [done|].
  destruct (matchWishes_total (List.map as_player players)
              (collectWishes stamps players) seed)
    as [H|[(p' & Hp' & Hnil & _)|H]]; [by left| |by right].
  exfalso. apply list_elem_of_In, in_map_iff in Hp' as (p & <- & Hp).
  apply list_elem_of_In in Hp. rewrite Forall_forall in Hall. by apply (Hall p Hp).
Qed.

(** ** The draw as a decision of feasibility *)

(** X20: for participants with different ids, none of them empty,
    [matchWishes] returns pairs exactly when the candidate-eligibility
    graph has a perfect matching; so whether it returns or throws does not
    depend on the seed. *)
Theorem matchWishes_decides players wishes seed :
  NoDup (List.map player_id players) ->
  Forall (fun p => player_id p <> []) players ->
  ((exists pairs, matchWishes players wishes seed = Return pairs)
   <-> exists asg, perfect_matching players wishes asg)
  /\ forall seed',
       (exists pairs, matchWishes players wishes seed = Return pairs)
       <-> (exists pairs, matchWishes players wishes seed' = Return pairs).
Proof.
  intros Hnd Hne.
  assert (Hdec : forall s,
            (exists pairs, matchWishes players wishes s = Return pairs)
            <-> exists asg, perfect_matching players wishes asg).
  { intros s. split.
    - intros [pairs Hm]. apply attemptsFrom_Return in Hm as [i Hat].
      destruct (attemptWith_sound _ _ _ _ Hnd Hne Hat) as (H1 & H2 & H3).
      assert (HF : Forall2 (fun pid w => w ∈ candidateList players wishes pid)
                     (List.map pickerId pairs) (List.map wishId pairs)).
      { apply Forall2_fmap, Forall_Forall2_diag. exact H3. }
      destruct (Forall2_perm_l _ _ _ H1 _ HF) as (asg & Hperm & Hasg).
      exists asg. split.
      + by apply Forall2_fmap_l in Hasg.
      + by rewrite <- Hperm.
    - intros [asg Hpm].
      destruct (attemptWith_complete players wishes (attemptSeed s 0) asg Hpm)
        as [pairs Hat].
      exists pairs. unfold matchWishes. simpl. by rewrite Hat. }
  split; [apply Hdec|]. intros seed'. by rewrite !Hdec.
Qed.

(** X21: when the component is mounted and shows a room whose players
    have different, non-empty ids and whose wishes have different ids, the
    callback of the timer either stores pairs that are a complete valid
    assignment, with one call of [updateRoom] that sets the stage
    [REVEALED], or leaves the rooms and the game state as they are and shows
    the error of [matchWishes]. *)
Theorem reveal_outcome app cur :
  mountedRef app = true ->
  currentRoom (gameState app) = Some cur ->
  NoDup (List.map rp_id (room_players cur)) ->
  Forall (fun p => rp_id p <> []) (room_players cur) ->
  NoDup (List.map wish_id (room_wishes cur)) ->
  (exists pairs,
     valid_assignment (List.map as_player (room_players cur)) (room_wishes cur) pairs
     /\ roomAPI (reveal app)
        = (MockRoomAPI.updateRoom (roomAPI app) (room_id cur) (toRevealed pairs)).1)
  \/ (roomAPI (reveal app) = roomAPI app
      /\ gameState (reveal app) = gameState app
      /\ exists e, error_text (reveal app) = Some (MatchError e) /\ e <> TypeError).
Proof.
  intros Hm Hcur Hnd Hne Hw. unfold reveal. rewrite Hm, Hcur. simpl.
  assert (Hnd' : NoDup (List.map player_id (List.map as_player (room_players cur)))).
  { by rewrite map_map. }
  assert (Hne' : Forall (fun p => player_id p <> []) (List.map as_player (room_players cur))).
  { by apply Forall_fmap. }
  destruct (matchWishes_total (List.map as_player (room_players cur))
              (room_wishes cur) (room_seed cur))
    as [[pairs E]|[(p & _ & _ & E)|E]]; rewrite E.
  - left. exists pairs. split; [|apply updateAndShow_roomAPI].
    by eapply matchWishes_sound_nonempty_ids.
  - right. unfold setErrorSafe. rewrite Hm. simpl. repeat split. by eexists.
  - right. unfold setErrorSafe. rewrite Hm. simpl. repeat split. by eexists.
Qed.

(** ** What the draw does not read *)

Lemma JsMap_set_related {V} (R : V -> V -> Prop) (m m' : JsMap.t V) k v v' :
  Forall2 (fun e e' => e.1 = e'.1 /\ R e.2 e'.2) m m' -> R v v' ->
  Forall2 (fun e e' => e.1 = e'.1 /\ R e.2 e'.2) (JsMap.set m k v) (JsMap.set m' k v').
Proof.
  intros Hm Hv. induction Hm as [|[k0 v0] [k0' v0'] m m' [Hk H0] Hm IH]; simpl.
  - by repeat constructor.
  - simpl in Hk. subst k0'. destruct (decide (k0 = k)); constructor; try done.
Qed.

Lemma JsMap_get_related {V} (R : V -> V -> Prop) (m m' : JsMap.t V) k :
  Forall2 (fun e e' => e.1 = e'.1 /\ R e.2 e'.2) m m' ->
  option_Forall2 R (JsMap.get m k) (JsMap.get m' k).
Proof.
  induction 1 as [|[k0 v0] [k0' v0'] m m' [Hk H0] Hm IH]; simpl; [constructor|].
  simpl in Hk. subst k0'. destruct (decide (k0 = k)); [by constructor|done].
Qed.

Lemma wishById_related wishes wishes' id :
  Forall2 (fun w w' => wish_id w' = wish_id w /\ wish_ownerId w' = wish_ownerId w)
    wishes wishes' ->
  option_Forall2 (fun w w' => wish_ownerId w' = wish_ownerId w)
    (JsMap.get (wishById wishes) id) (JsMap.get (wishById wishes') id).
Proof.
  intros HF. apply JsMap_get_related. unfold wishById, JsMap.of_entries.
  assert (H : forall m m' : JsMap.t Wish,
            Forall2 (fun e e' => e.1 = e'.1 /\ wish_ownerId e'.2 = wish_ownerId e.2) m m' ->
            Forall2 (fun e e' => e.1 = e'.1 /\ wish_ownerId e'.2 = wish_ownerId e.2)
              (fold_left (fun m kv => JsMap.set m kv.1 kv.2)
                 (List.map (fun w => (wish_id w, w)) wishes) m)
              (fold_left (fun m kv => JsMap.set m kv.1 kv.2)
                 (List.map (fun w => (wish_id w, w)) wishes') m')).
  { induction HF as [|w w' ws ws' [Hid Ho] _ IH]; intros m m' Hm; simpl; [done|].
    apply IH. rewrite Hid.
    by apply (JsMap_set_related (fun w w' => wish_ownerId w' = wish_ownerId w)). }
  apply H. constructor.
Qed.

(** X22: [matchWishes] reads of a wish its id and the id of its owner
    only: with other texts, the same is returned or thrown. *)
Theorem matchWishes_ignores_text players wishes wishes' seed :
  Forall2 (fun w w' => wish_id w' = wish_id w /\ wish_ownerId w' = wish_ownerId w)
    wishes wishes' ->
  matchWishes players wishes' seed = matchWishes players wishes seed.
Proof.
  intros HF.
  assert (Hids : allWishIds wishes' = allWishIds wishes).
  { unfold allWishIds. induction HF as [|w w' ws ws' [Hid _] _ IH]; [done|].
    simpl. by rewrite Hid, IH. }
  assert (Hcand : forall pid,
            candidateList players wishes' pid = candidateList players wishes pid).
  { intros pid. unfold candidateList. rewrite Hids.
    apply List.filter_ext. intros id. unfold eligible.
    by destruct (wishById_related wishes wishes' id HF) as [w w' ->|]. }
  assert (Hbuild : forall aseed ps c,
            buildCandidates players wishes' aseed ps c
            = buildCandidates players wishes aseed ps c).
  { intros aseed ps. induction ps as [|p ps IH]; intros c; simpl; [done|].
    rewrite Hcand. destruct (candidateList players wishes (player_id p)); [done|].
    apply IH. }
  assert (Hfuel : search_fuel wishes' = search_fuel wishes).
  { unfold search_fuel. f_equal. by rewrite <- (Forall2_length _ _ _ HF). }
  assert (Hat : forall aseed,
            attemptWith players wishes' aseed = attemptWith players wishes aseed).
  { intros aseed. unfold attemptWith. by rewrite Hbuild, Hfuel. }
  unfold matchWishes.
  cut (forall n k, attemptsFrom players wishes' seed n k
                   = attemptsFrom players wishes seed n k); [by intros ->|].
  intros n. induction n as [|n IH]; intros k; simpl; [done|].
  rewrite Hat. destruct (attemptWith players wishes (attemptSeed seed k)) as [[?|]| |];
    try done.
Qed.

(** ** The rooms that the handlers of the component make *)

Lemma updateGameState_roomAPI f app : roomAPI (updateGameState f app) = roomAPI app.
Proof. unfold updateGameState. by destruct (mountedRef app). Qed.

(** [createRoom] leaves the map of rooms as it is or calls the method
    [createRoom] of the API, with an id of [generatePlayerId] and a name
    that [sanitizeText] returns or the name for owners without name. *)
Lemma createRoom_roomAPI roomPassword newPlayerName maxPlayers stamp newId newSeed now app :
  roomAPI (createRoom roomPassword newPlayerName maxPlayers stamp newId newSeed now app)
  = roomAPI app
  \/ roomAPI (createRoom roomPassword newPlayerName maxPlayers stamp newId newSeed now app)
     = (MockRoomAPI.createRoom (roomAPI app) newId newSeed now roomPassword maxPlayers
          (generatePlayerId stamp)
          (if truthy newPlayerName then sanitizeText newPlayerName
           else MockRoomAPI.ownerDefault)).1.
Proof.
  unfold createRoom. destruct (_ || _).
  - left. apply setErrorSafe_roomAPI.
  - right. by rewrite updateGameState_roomAPI.
Qed.

(** [joinRoom] leaves the map of rooms as it is or calls the method
    [joinRoom] of the API, with an id that is not empty and a name that
    [sanitizeText] returns. *)
Lemma joinRoom_roomAPI joinRoomId joinPassword newPlayerName toUpperCase stored stamp app :
  roomAPI (joinRoom joinRoomId joinPassword newPlayerName toUpperCase stored stamp app)
  = roomAPI app
  \/ exists playerId,
       playerId <> []
       /\ roomAPI (joinRoom joinRoomId joinPassword newPlayerName toUpperCase stored
                     stamp app)
          = (MockRoomAPI.joinRoom (roomAPI app) (toUpperCase joinRoomId) joinPassword
               playerId (sanitizeText newPlayerName)).1.
Proof.
  unfold joinRoom. destruct (_ || _).
  - left. apply setErrorSafe_roomAPI.
  - right. simpl.
    set (playerId := if truthy (default [] stored) then default [] stored
                     else generatePlayerId stamp).
    exists playerId. split.
    + subst playerId. destruct (default [] stored); done.
    + destruct (MockRoomAPI.success _); [destruct (MockRoomAPI.join_room _)|].
      * by rewrite updateGameState_roomAPI.
      * by rewrite setErrorSafe_roomAPI.
      * by rewrite setErrorSafe_roomAPI.
Qed.

(** The handlers call the API as anybody may. *)
Lemma reachable_ui_reachable rooms : reachable_ui rooms -> reachable rooms.
Proof.
  induction 1 as [|app app' _ IH Hh]; [constructor|].
  destruct Hh as [roomPassword newPlayerName maxPlayers stamp newId newSeed now app
                 |joinRoomId joinPassword newPlayerName toUpperCase stored stamp app
                 |app app' Hh].
  - destruct (createRoom_roomAPI roomPassword newPlayerName maxPlayers stamp newId
                newSeed now app) as [->| ->]; [done|]. by constructor.
  - destruct (joinRoom_roomAPI joinRoomId joinPassword newPlayerName toUpperCase stored
                stamp app) as [->|(playerId & _ & ->)]; [done|]. by constructor.
  - by eapply reachable_handler.
Qed.

Section HandlerInvariant.
Variable P : jsstring -> Room -> Prop.
Hypothesis P_create :
  forall rooms newId newSeed now password maxPlayers stamp newPlayerName,
    P newId (MockRoomAPI.createRoom rooms newId newSeed now password maxPlayers
               (generatePlayerId stamp)
               (if truthy newPlayerName then sanitizeText newPlayerName
                else MockRoomAPI.ownerDefault)).2.
Hypothesis P_join :
  forall k room playerId newPlayerName,
    P k room ->
    playerId <> [] ->
    P k (with_players room
           (room_players room
            ++ [newPlayer playerId (sanitizeText newPlayerName) false
                  (MockRoomAPI.leastGroup (room_players room))])).
Hypothesis P_update : forall k room u, updater u -> P k room -> P k (u room).

Lemma reachable_ui_invariant rooms :
  reachable_ui rooms ->
  forall k room, MockRoomAPI.getRoom rooms k = Some room -> P k room.
Proof using P_create P_join P_update.
  unfold MockRoomAPI.getRoom.
  induction 1 as [|app app' _ IH Hh]; intros k room; [done|].
  destruct Hh as [roomPassword newPlayerName maxPlayers stamp newId newSeed now app
                 |joinRoomId joinPassword newPlayerName toUpperCase stored stamp app
                 |app app' Hh].
  - destruct (createRoom_roomAPI roomPassword newPlayerName maxPlayers stamp newId
                newSeed now app) as [->| ->]; [apply IH|].
    simpl. rewrite JsMap_get_set. destruct (decide (newId = k)) as [<-|]; [|apply IH].
    intros [= <-].
    apply (P_create (roomAPI app) newId newSeed now roomPassword maxPlayers stamp
             newPlayerName).
  - destruct (joinRoom_roomAPI joinRoomId joinPassword newPlayerName toUpperCase stored
                stamp app) as [->|(playerId & Hne & ->)]; [apply IH|].
    destruct (joinRoom_cases (roomAPI app) (toUpperCase joinRoomId) joinPassword playerId
                (sanitizeText newPlayerName))
      as [->|(room0 & Hr & _ & _ & _ & _ & ->)]; [apply IH|].
    rewrite JsMap_get_set.
    destruct (decide (toUpperCase joinRoomId = k)) as [<-|]; [|apply IH].
    intros [= <-]. apply P_join; [|done]. by apply IH.
  - destruct (handles_store _ _ Hh) as [->|(roomId & u & Hu & ->)]; [apply IH|].
    unfold MockRoomAPI.updateRoom.
    destruct (JsMap.get (roomAPI app) roomId) as [room0|] eqn:Hr; simpl; [|apply IH].
    rewrite JsMap_get_set. destruct (decide (roomId = k)) as [<-|]; [|apply IH].
    intros [= <-]. apply P_update; [done|]. by apply IH.
Qed.
End HandlerInvariant.

Lemma owner_name_shape newPlayerName :
  let ownerName := if truthy newPlayerName then sanitizeText newPlayerName
                   else MockRoomAPI.ownerDefault in
  let name := if truthy ownerName then ownerName else MockRoomAPI.ownerDefault in
  (length name <= 120)%nat /\ single_spaced true name = true.
Proof.
  simpl. assert (Hd : (length MockRoomAPI.ownerDefault <= 120)%nat
                      /\ single_spaced true MockRoomAPI.ownerDefault = true).
  { split; [simpl; lia|reflexivity]. }
  destruct (truthy newPlayerName); [|by destruct (truthy MockRoomAPI.ownerDefault)].
  destruct (truthy (sanitizeText newPlayerName)); [|done].
  split; [apply length_sanitizeText|apply single_spaced_sanitizeText].
Qed.

Lemma reachable_ui_ids rooms k room :
  reachable_ui rooms ->
  MockRoomAPI.getRoom rooms k = Some room ->
  Forall (fun p => rp_id p <> []) (room_players room).
Proof.
  intros Hreach. revert k room.
  apply (reachable_ui_invariant
           (fun _ room => Forall (fun p => rp_id p <> []) (room_players room)));
    [| | |done].
  - intros. simpl. by apply Forall_singleton.
  - intros _ room playerId newPlayerName H Hne. simpl.
    apply Forall_app. split; [done|]. by apply Forall_singleton.
  - intros _ room u Hu H. destruct (updater_players u Hu) as (f & Hf & Hroom).
    destruct (Hroom room) as (-> & _). apply Forall_fmap.
    eapply Forall_impl; [exact H|]. intros p Hp. simpl.
    by destruct (Hf p) as (-> & _).
Qed.

(** X23: in every room that the handlers of the component make, no
    player has the empty id, and the name of every player has at most 120
    code units, does not start with whitespace and has no whitespace but
    single plain spaces (it may be empty). *)
Theorem app_player_ids_and_names rooms k room :
  reachable_ui rooms ->
  MockRoomAPI.getRoom rooms k = Some room ->
  Forall (fun p => rp_id p <> []
                   /\ (length (rp_name p) <= 120)%nat
                   /\ single_spaced true (rp_name p) = true) (room_players room).
Proof.
  intros Hreach Hr. pose proof (reachable_ui_ids rooms k room Hreach Hr) as Hids.
  apply Forall_and. split; [done|]. clear Hids. revert k room Hr.
  apply (reachable_ui_invariant
           (fun _ room => Forall (fun p => (length (rp_name p) <= 120)%nat
                                           /\ single_spaced true (rp_name p) = true)
                            (room_players room)));
    [| | |done].
  - intros. simpl. apply Forall_singleton. simpl. apply owner_name_shape.
  - intros _ room playerId newPlayerName H Hne. simpl.
    apply Forall_app. split; [done|]. apply Forall_singleton. simpl.
    split; [apply length_sanitizeText|apply single_spaced_sanitizeText].
  - intros _ room u Hu H. destruct (updater_players u Hu) as (f & Hf & Hroom).
    destruct (Hroom room) as (-> & _). apply Forall_fmap.
    eapply Forall_impl; [exact H|]. intros p Hp. simpl.
    by destruct (Hf p) as (_ & -> & _).
Qed.

(** X24: for a room that the handlers of the component have made and
    that [startGame] lets through, the draw on the wishes that
    [confirmAndMatch] builds, if the ids made for them are different,
    either returns a complete valid assignment or ends in the error of
    exhaustion; it never fails for want of candidates. *)
Theorem app_draw rooms k room stamps seed :
  reachable_ui rooms ->
  MockRoomAPI.getRoom rooms k = Some room ->
  startGame_refusal (room_players room) = None ->
  NoDup (List.map wish_id (collectWishes stamps (room_players room))) ->
  let players := List.map as_player (room_players room) in
  let wishes := collectWishes stamps (room_players room) in
  (exists pairs, matchWishes players wishes seed = Return pairs
                 /\ valid_assignment players wishes pairs)
  \/ matchWishes players wishes seed = Throw Exhausted.
Proof.
  intros Hreach Hr Hok Hw. simpl.
  pose proof (reachable_ui_ids rooms k room Hreach Hr) as Hne.
  assert (Hnd : NoDup (List.map rp_id (room_players room))).
  { apply reachable_ui_reachable in Hreach. revert k room Hr Hok Hw Hne.
    cut (forall k room, MockRoomAPI.getRoom rooms k = Some room ->
           NoDup (List.map rp_id (room_players room))
           /\ NoDup (List.map rp_name (room_players room))).
    { intros H k room Hr _ _ _. by destruct (H k room Hr). }
    apply (reachable_invariant
             (fun _ room => NoDup (List.map rp_id (room_players room))
                            /\ NoDup (List.map rp_name (room_players room))));
      [| | |done].
    - intros. apply unique_players_create.
    - intros _ room0 playerId playerName. apply unique_players_join.
    - intros _ room0 u. apply unique_players_update. }
  destruct (matchWishes_total (List.map as_player (room_players room))
              (collectWishes stamps (room_players room)) seed)
    as [[pairs E]|[(p' & Hp' & Hnil & _)|E]]; [left|exfalso|by right].
  - exists pairs. split; [done|].
    eapply matchWishes_sound_nonempty_ids; [| |exact Hw|exact E].
    + by rewrite map_map.
    + by apply Forall_fmap.
  - apply list_elem_of_In, in_map_iff in Hp' as (p & <- & Hp).
    apply list_elem_of_In in Hp.
    by apply (ready_room_candidates stamps (room_players room) p).
Qed.

(** ** How many shuffles there are *)

Lemma next_seed_mod s : 0 <= s -> next_seed s = next_seed (s mod 233280).
Proof.
  intros Hs. unfold next_seed.
  pose proof (Z.mod_pos_bound s 233280 ltac:(lia)) as Hm.
  rewrite !Z.rem_mod_nonneg by lia.
  rewrite (Z.add_mod (s * 9301)), (Z.add_mod (s mod 233280 * 9301)) by lia.
  by rewrite Z.mul_mod_idemp_l by lia.
Qed.

Lemma shuffle_mod {T} s (array : list T) :
  0 <= s -> shuffle s array = shuffle (s mod 233280) array.
Proof.
  intros Hs. unfold shuffle, shuffle_state.
  destruct (length array - 1)%nat as [|i]; [done|].
  cbn [shuffle_loop]. unfold draw, next. by rewrite <- next_seed_mod.
Qed.

(** X25: the order that [shuffle] gives depends on the state of the
    generator (a hash of at most [2^31]) only modulo 233280; so, whatever
    the seed, a list comes out in one of 233280 orders at most. *)
Theorem shuffle_outcomes {T} (array : list T) :
  (forall s s', 0 <= s <= 2 ^ 31 -> 0 <= s' <= 2 ^ 31 ->
     s mod 233280 = s' mod 233280 ->
     shuffle s array = shuffle s' array)
  /\ exists outcomes : list (list T),
       length outcomes = Z.to_nat 233280
       /\ forall seed, shuffle (SeededRandom seed) array ∈ outcomes.
Proof.
  split.
  - intros s s' [Hs _] [Hs' _] E. by rewrite (shuffle_mod s), (shuffle_mod s'), E.
  - exists (List.map (fun r => shuffle (Z.of_nat r) array) (seq 0 (Z.to_nat 233280))).
    split; [by rewrite length_map, length_seq|].
    intros seed. rewrite shuffle_mod by apply Z.abs_nonneg.
    pose proof (Z.mod_pos_bound (SeededRandom seed) 233280 ltac:(lia)) as Hm.
    apply list_elem_of_In, in_map_iff.
    exists (Z.to_nat (SeededRandom seed mod 233280)). split.
    + by rewrite Z2Nat.id by lia.
    + apply in_seq. lia.
Qed.

(** ** The theorems on rooms at concrete inputs *)

Lemma sanitizeText_outer_spaces_witness :
  sanitizeText (lit "  " ++ lit "a  wish" ++ [9; 32]) = sanitizeText (lit "a  wish").
Proof.
  apply (sanitizeText_outer_spaces (lit "  ") (lit "a  wish") [9; 32]).
  - repeat constructor.
  - repeat constructor.
Defined.

Lemma joinRoom_least_group_witness :
  exists i g,
    rp_group (newPlayer (lit "p2") (lit "Bob") false (Some (lit "B"))) = Some g
    /\ MockRoomAPI.groups !! i = Some g
    /\ forall j g', MockRoomAPI.groups !! j = Some g' ->
         let n := fun x =>
           length (filter (fun q => rp_group q = Some x) (room_players created_rooms.2)) in
         (n g <= n g')%nat /\ ((j < i)%nat -> (n g < n g')%nat).
Proof.
  apply (joinRoom_least_group created_rooms.1 (lit "ROOM01") (lit "1234") (lit "p2")
           (lit "Bob") created_rooms.2).
  - vm_compute. reflexivity.
  - vm_compute. reflexivity.
Defined.

Lemma joinRoom_deals_in_turn_witness :
  rp_group (newPlayer (lit "p2") (lit "Bob") false (Some (lit "B")))
  = MockRoomAPI.groups !! (1 mod 4)%nat.
Proof.
  apply (joinRoom_deals_in_turn created_rooms.1 (lit "ROOM01") (lit "1234") (lit "p2")
           (lit "Bob") created_rooms.2 example_room).
  - vm_compute. reflexivity.
  - vm_compute. reflexivity.
  - intros [|i] p; simpl; [|done]. intros [= <-]. reflexivity.
  - reflexivity.
Defined.

Lemma createRoom_then_joinRoom_witness :
  MockRoomAPI.asViewer
    (MockRoomAPI.joinRoom created_rooms.1 (lit "ROOM01") (lit "1234") (lit "p2")
       (lit "Bob")).2 = Some false
  /\ MockRoomAPI.resolvedPlayerId
       (MockRoomAPI.joinRoom created_rooms.1 (lit "ROOM01") (lit "1234") (lit "p2")
          (lit "Bob")).2 = Some (lit "p2")
  /\ (room_players <$> MockRoomAPI.getRoom example_rooms (lit "ROOM01"))
     = Some (room_players example_room).
Proof.
  destruct (createRoom_then_joinRoom [] (lit "ROOM01") (lit "1-abc") 1 (lit "1234") 3
              (lit "p1") (lit "Ann") (lit "p2") (lit "Bob")) as (_ & _ & _ & H).
  specialize (H ltac:(discriminate) ltac:(discriminate)).
  rewrite decide_True in H by lia. exact H.
Defined.

Lemma example_rooms_reachable : reachable example_rooms.
Proof. apply reachable_joinRoom, reachable_createRoom, reachable_new. Qed.

Lemma reachable_unique_players_witness :
  NoDup (List.map rp_id (room_players example_room))
  /\ NoDup (List.map rp_name (room_players example_room)).
Proof.
  apply (reachable_unique_players example_rooms (lit "ROOM01") example_room).
  - exact example_rooms_reachable.
  - vm_compute. reflexivity.
Defined.

Lemma reachable_wish_slots_witness : Forall slots_ok (room_players example_room).
Proof.
  apply (reachable_wish_slots example_rooms (lit "ROOM01") example_room).
  - exact example_rooms_reachable.
  - vm_compute. reflexivity.
Defined.

Lemma reachable_owner_and_size_witness :
  room_id example_room = lit "ROOM01"
  /\ (exists owner others,
        room_players example_room = owner :: others
        /\ rp_id owner = room_ownerId example_room
        /\ rp_isOwner owner = Some true
        /\ Forall (fun p => rp_isOwner p = Some false) others)
  /\ Z.of_nat (length (room_players example_room))
     <= Z.max 1 (room_maxPlayers example_room).
Proof.
  apply (reachable_owner_and_size example_rooms (lit "ROOM01") example_room).
  - exact example_rooms_reachable.
  - vm_compute. reflexivity.
Defined.

Lemma wish_handlers_own_only_witness :
  option_Forall2
    (same_but_wishes (lit "p2")
       (currentPlayerId (gameState example_app) = Some (lit "p2")
        /\ isViewer (gameState example_app) <> Some true
        /\ exists cur, currentRoom (gameState example_app) = Some cur
                       /\ room_id cur = lit "ROOM01"))
    (MockRoomAPI.getRoom (roomAPI example_app) (lit "ROOM01"))
    (MockRoomAPI.getRoom (roomAPI (addWishToPlayer (lit "p2") example_app)) (lit "ROOM01")).
Proof.
  apply (wish_handlers_own_only example_app (addWishToPlayer (lit "p2") example_app)
           (lit "p2") (lit "ROOM01")).
  right. left. reflexivity.
Defined.

Lemma updatePlayerWish_stores_witness :
  exists room',
    MockRoomAPI.getRoom
      (roomAPI (updatePlayerWish (lit "p2") 0 (lit " a   kite ") example_app))
      (lit "ROOM01") = Some room'
    /\ (mountedRef example_app = true ->
        currentRoom
          (gameState (updatePlayerWish (lit "p2") 0 (lit " a   kite ") example_app))
        = Some room'
        /\ error_text (updatePlayerWish (lit "p2") 0 (lit " a   kite ") example_app)
           = None)
    /\ Forall2 (fun p p' =>
         if decide (rp_id p = lit "p2")
         then p' = with_wishes p (<[0%nat := sanitizeText (lit " a   kite ")]> (rp_wishes p))
         else p' = p)
         (room_players example_room) (room_players room').
Proof.
  apply (updatePlayerWish_stores example_app (lit "p2") 0 (lit " a   kite ")
           example_room example_room).
  - reflexivity.
  - reflexivity.
  - discriminate.
  - vm_compute. reflexivity.
Defined.

Lemma ready_room_not_structural_witness :
  Forall (fun p => candidateList (List.map as_player ready_players)
                     (collectWishes example_stamps ready_players) (rp_id p) <> [])
    ready_players
  /\ ((exists pairs,
         matchWishes (List.map as_player ready_players)
           (collectWishes example_stamps ready_players) (lit "1-abc|2|xyz")
         = Return pairs)
      \/ matchWishes (List.map as_player ready_players)
           (collectWishes example_stamps ready_players) (lit "1-abc|2|xyz")
         = Throw Exhausted).
Proof.
  apply (ready_room_not_structural example_stamps ready_players (lit "1-abc|2|xyz")).
  - vm_compute. reflexivity.
  - apply (bool_decide_unpack _). vm_compute. reflexivity.
  - apply (bool_decide_unpack _). vm_compute. reflexivity.
Defined.

Lemma matchWishes_decides_witness :
  ((exists pairs, matchWishes selfTest_players selfTest_wishes (lit "seed-1") = Return pairs)
   <-> exists asg, perfect_matching selfTest_players selfTest_wishes asg)
  /\ forall seed',
       (exists pairs, matchWishes selfTest_players selfTest_wishes (lit "seed-1")
                      = Return pairs)
       <-> (exists pairs, matchWishes selfTest_players selfTest_wishes seed' = Return pairs).
Proof.
  apply (matchWishes_decides selfTest_players selfTest_wishes (lit "seed-1")).
  - apply (bool_decide_unpack _). vm_compute. reflexivity.
  - apply (bool_decide_unpack _). vm_compute. reflexivity.
Defined.

Lemma reveal_outcome_witness :
  (exists pairs,
     valid_assignment (List.map as_player (room_players matching_room))
       (room_wishes matching_room) pairs
     /\ roomAPI (reveal matching_app)
        = (MockRoomAPI.updateRoom (roomAPI matching_app) (room_id matching_room)
             (toRevealed pairs)).1)
  \/ (roomAPI (reveal matching_app) = roomAPI matching_app
      /\ gameState (reveal matching_app) = gameState matching_app
      /\ exists e, error_text (reveal matching_app) = Some (MatchError e)
                   /\ e <> TypeError).
Proof.
  apply (reveal_outcome matching_app matching_room).
  - reflexivity.
  - reflexivity.
  - apply (bool_decide_unpack _). vm_compute. reflexivity.
  - apply (bool_decide_unpack _). vm_compute. reflexivity.
  - apply (bool_decide_unpack _). vm_compute. reflexivity.
Defined.

Lemma matchWishes_ignores_text_witness :
  matchWishes selfTest_players selfTest_wishes_with_texts (lit "seed-1")
  = matchWishes selfTest_players selfTest_wishes (lit "seed-1").
Proof.
  apply (matchWishes_ignores_text selfTest_players selfTest_wishes
           selfTest_wishes_with_texts (lit "seed-1")).
  repeat constructor.
Defined.

Lemma ui_everyone_ready_reachable : reachable_ui (roomAPI ui_everyone_ready).
Proof.
  unfold ui_everyone_ready.
  eapply reachable_ui_handler; [|apply handles_other, handles_clickLock].
  eapply reachable_ui_handler; [|apply handles_other, handles_updatePlayerWish].
  eapply reachable_ui_handler; [|apply handles_other, handles_updatePlayerWish].
  change (roomAPI ui_owner) with (roomAPI ui_second_ready).
  unfold ui_second_ready.
  eapply reachable_ui_handler; [|apply handles_other, handles_clickLock].
  eapply reachable_ui_handler; [|apply handles_other, handles_updatePlayerWish].
  eapply reachable_ui_handler; [|apply handles_other, handles_updatePlayerWish].
  unfold ui_joined.
  eapply reachable_ui_handler; [|apply handles_joinRoom].
  unfold ui_created.
  eapply reachable_ui_handler; [|apply handles_createRoom].
  apply reachable_ui_new.
Qed.

Lemma app_player_ids_and_names_witness :
  Forall (fun p => rp_id p <> []
                   /\ (length (rp_name p) <= 120)%nat
                   /\ single_spaced true (rp_name p) = true)
    (room_players ui_ready_room).
Proof.
  apply (app_player_ids_and_names (roomAPI ui_everyone_ready) (lit "ROOM01")
           ui_ready_room).
  - exact ui_everyone_ready_reachable.
  - vm_compute. reflexivity.
Defined.

Lemma app_draw_witness :
  (exists pairs,
     matchWishes (List.map as_player (room_players ui_ready_room))
       (collectWishes example_stamps (room_players ui_ready_room)) (lit "1-abc|2|xyz")
     = Return pairs
     /\ valid_assignment (List.map as_player (room_players ui_ready_room))
          (collectWishes example_stamps (room_players ui_ready_room)) pairs)
  \/ matchWishes (List.map as_player (room_players ui_ready_room))
       (collectWishes example_stamps (room_players ui_ready_room)) (lit "1-abc|2|xyz")
     = Throw Exhausted.
Proof.
  apply (app_draw (roomAPI ui_everyone_ready) (lit "ROOM01") ui_ready_room
           example_stamps (lit "1-abc|2|xyz")).
  - exact ui_everyone_ready_reachable.
  - vm_compute. reflexivity.
  - vm_compute. reflexivity.
  - apply (bool_decide_unpack _). vm_compute. reflexivity.
Defined.
